(** * Shared function-space data of firedrake: a shallow embedding

  The development follows [firedrake/functionspacedata.py]: the
  per-mesh caches, the canonical key of an [entity_dofs] dictionary,
  the node set and its size limit, the boundary masks of extruded
  meshes, the boundary-node resolver and the construction of
  entity->node maps in which Dirichlet constraints are encoded as
  negative entries.

  Python values are modelled as follows.
  - integers of [IntType] are [Z], with the wrap-around of the
    fixed-width type written out ([Np.wrap]);
  - numpy arrays are lists, two-dimensional arrays lists of rows;
  - exceptions are a sum type ([Py.result]);
  - the dictionary of work-function limits is a finite map ([gmap]);
    dictionaries whose iteration order matters, or whose keys are
    tuples of objects, are association lists in insertion order;
  - objects that are compared by identity (the maps handed out by
    [get_map]) live in a heap and are named by their address. *)

From Stdlib Require Import ZArith Lia List Permutation Sorted Ascii.
From stdpp Require Import base decidable option list sorting gmap strings.
Import ListNotations.

Local Open Scope Z_scope.

(** ** Python runtime: exceptions, [sorted], [reduce] *)

Module Py.

Inductive exn : Type :=
| KeyError
| ValueError
| RuntimeError
| IndexError
| TypeError
| AssertionError
| NotImplementedError
| UnboundLocalError.

#[global] Instance exn_eq_dec : EqDecision exn.
Proof. solve_decision. Defined.

Inductive result (A : Type) : Type :=
| Ok (a : A)
| Raise (e : exn).

Arguments Ok {A} a.
Arguments Raise {A} e.

Definition bind {A B : Type} (r : result A) (k : A -> result B) : result B :=
  match r with
  | Ok a => k a
  | Raise e => Raise e
  end.

(** [for x in l: body] where the body may raise and threads a value. *)
Fixpoint for_each {A S : Type} (body : A -> S -> result S) (l : list A) (s : S)
  : result S :=
  match l with
  | [] => Ok s
  | x :: l' => bind (body x s) (for_each body l')
  end.

(** [sorted(l)] and [sorted(l, key=...)]: [leb x y] is Python's
    [not (y < x)] on the values (or on their keys).  Python's sort is
    stable; so is this insertion sort, which puts an element before the
    first one that is not smaller. *)
Section Sorted.
Context {A : Type} (leb : A -> A -> bool).

Fixpoint insert_by (x : A) (l : list A) : list A :=
  match l with
  | [] => [x]
  | y :: l' => if leb x y then x :: y :: l' else y :: insert_by x l'
  end.

Fixpoint sorted_by (l : list A) : list A :=
  match l with
  | [] => []
  | x :: l' => insert_by x (sorted_by l')
  end.
End Sorted.

(** [for x in l] collecting one result per element, stopping at the
    first exception. *)
Fixpoint mapM {A B : Type} (f : A -> result B) (l : list A) : result (list B) :=
  match l with
  | [] => Ok []
  | x :: l' =>
      match f x with
      | Ok y => match mapM f l' with Ok ys => Ok (y :: ys) | Raise e => Raise e end
      | Raise e => Raise e
      end
  end.

(** [range(n)] *)
Definition range (n : Z) : list Z := map Z.of_nat (seq 0 (Z.to_nat n)).

(** Dictionaries whose iteration order is observable: association lists
    in insertion order, keys without repetition. *)
Abbreviation dict K V := (list (K * V)).

Definition keys {K V : Type} (d : dict K V) : list K := map fst d.
Definition values {K V : Type} (d : dict K V) : list V := map snd d.

(** [d[k]] *)
Fixpoint getitem {K V : Type} `{EqDecision K} (d : dict K V) (k : K) : result V :=
  match d with
  | [] => Raise KeyError
  | (k', v) :: d' => if decide (k' = k) then Ok v else getitem d' k
  end.

(** [1 << n] *)
Definition shl1 (n : Z) : result Z :=
  if n <? 0 then Raise ValueError else Ok (Z.shiftl 1 n).

(** [functools.reduce(f, l)] without an initial value. *)
Definition reduce {A : Type} (f : A -> A -> A) (l : list A) : result A :=
  match l with
  | [] => Raise TypeError
  | x :: l' => Ok (fold_left f l' x)
  end.

(** *** [("%s_" + name) % value] for a string [value]

    The value is used up by the leading [%s]; what follows is the text
    of [name], read as CPython 3 reads a format string that has no
    value left.  [FormatState] is the place in a conversion
    specification: after the [%], in the flags, in the width, after the
    point, in the precision, at the conversion character. *)
Inductive FormatState : Type :=
| Literal
| Start
| Flags
| Width (w : Z)
| PrecisionStart
| Precision (p : Z)
| Conversion.

Definition code (c : ascii) : Z := Z.of_N (Ascii.N_of_ascii c).

Definition is_digit (c : ascii) : bool := (48 <=? code c) && (code c <=? 57).

(** The conversion character: [%%] writes a [%]; every other character
    asks for a value, and there is none ("not enough arguments for
    format string"). *)
Definition format_conversion (c : ascii) : result (option ascii * FormatState) :=
  if Ascii.eqb c "%" then Ok (Some "%"%char, Literal) else Raise TypeError.

(** One of [h], [l], [L] before the conversion character is skipped. *)
Definition format_length (c : ascii) : result (option ascii * FormatState) :=
  if Ascii.eqb c "h" || Ascii.eqb c "l" || Ascii.eqb c "L" then Ok (None, Conversion)
  else format_conversion c.

Definition format_point (c : ascii) : result (option ascii * FormatState) :=
  if Ascii.eqb c "." then Ok (None, PrecisionStart) else format_length c.

(** After the flags: [*] asks for a value; a digit starts the width. *)
Definition format_width (c : ascii) : result (option ascii * FormatState) :=
  if Ascii.eqb c "*" then Raise TypeError
  else if is_digit c then Ok (None, Width (code c - 48))
  else format_point c.

Definition format_flags (c : ascii) : result (option ascii * FormatState) :=
  if Ascii.eqb c "-" || Ascii.eqb c "+" || Ascii.eqb c " " || Ascii.eqb c "#"
     || Ascii.eqb c "0"
  then Ok (None, Flags)
  else format_width c.

(** One character of the format: what is written, and the next state.
    [%(] asks for a mapping ("format requires a mapping"); the width is
    bounded by [PY_SSIZE_T_MAX] and the precision by [INT_MAX] ("width
    too big", "precision too big"). *)
Definition format_step (s : FormatState) (c : ascii)
  : result (option ascii * FormatState) :=
  match s with
  | Literal => if Ascii.eqb c "%" then Ok (None, Start) else Ok (Some c, Literal)
  | Start => if Ascii.eqb c "(" then Raise TypeError else format_flags c
  | Flags => format_flags c
  | Width w =>
      if is_digit c then
        if (2 ^ 63 - 1 - (code c - 48)) / 10 <? w then Raise ValueError
        else Ok (None, Width (w * 10 + (code c - 48)))
      else format_point c
  | PrecisionStart =>
      if Ascii.eqb c "*" then Raise TypeError
      else if is_digit c then Ok (None, Precision (code c - 48))
      else format_length c
  | Precision p =>
      if is_digit c then
        if (2 ^ 31 - 1 - (code c - 48)) / 10 <? p then Raise ValueError
        else Ok (None, Precision (p * 10 + (code c - 48)))
      else format_length c
  | Conversion => format_conversion c
  end.

(** The rest of the format from state [s]; a format that ends inside a
    specification is an "incomplete format". *)
Fixpoint format_rest (s : FormatState) (l : list ascii) : result (list ascii) :=
  match l with
  | [] => match s with Literal => Ok [] | _ => Raise ValueError end
  | c :: l' =>
      match format_step s c with
      | Ok (out, s') =>
          match format_rest s' l' with
          | Ok r => Ok (match out with Some o => o :: r | None => r end)
          | Raise e => Raise e
          end
      | Raise e => Raise e
      end
  end.

Definition format_name (value name : string) : result string :=
  match format_rest Literal (String.list_ascii_of_string name) with
  | Ok r => Ok (value ++ "_" ++ String.string_of_list_ascii r)%string
  | Raise e => Raise e
  end.

End Py.

Import Py.

#[global] Instance result_ret : MRet Py.result := @Py.Ok.
#[global] Instance result_bind : MBind Py.result :=
fun A B k r => Py.bind r k.

(** ** numpy arrays over [IntType] *)

Module Np.

(** [pyop2.datatypes.IntType] is the numpy type of PETSc's indices:
    32-bit integers, or 64-bit ones when PETSc is built for them. *)
Inductive IntType : Type :=
| Int32
| Int64.

(** [IntType.itemsize] *)
Definition itemsize (T : IntType) : Z :=
  match T with
  | Int32 => 4
  | Int64 => 8
  end.

(** [IntType.itemsize * 8] *)
Definition bits (T : IntType) : Z := itemsize T * 8.

(** Two's-complement reduction of an exact integer to [IntType]. *)
Definition wrap (T : IntType) (x : Z) : Z :=
  (x + 2 ^ (bits T - 1)) mod 2 ^ bits T - 2 ^ (bits T - 1).

(** Arithmetic of arrays of [IntType]: silent wrap-around. *)
Definition add (T : IntType) (x y : Z) : Z := wrap T (x + y).
Definition neg (T : IntType) (x : Z) : Z := wrap T (- x).
Definition mul (T : IntType) (x y : Z) : Z := wrap T (x * y).

Definition representable (T : IntType) (x : Z) : Prop :=
  - 2 ^ (bits T - 1) <= x < 2 ^ (bits T - 1).

(** [numpy.arange(n, dtype=IntType)] *)
Definition arange (n : Z) : list Z := map Z.of_nat (seq 0 (Z.to_nat n)).

(** [numpy.zeros(n, dtype=IntType)] *)
Definition zeros (n : Z) : list Z := repeat 0 (Z.to_nat n).

(** Index normalisation of numpy: negative indices count from the end,
    anything outside [-n, n) raises. *)
Definition norm_index (n : nat) (i : Z) : result nat :=
  if (0 <=? i) && (i <? Z.of_nat n) then Ok (Z.to_nat i)
  else if (- Z.of_nat n <=? i) && (i <? 0) then Ok (Z.to_nat (i + Z.of_nat n))
  else Raise IndexError.

(** [a[i]] for one index. *)
Definition getitem (a : list Z) (i : Z) : result Z :=
  j ← norm_index (length a) i;
  match a !! j with
  | Some v => Ok v
  | None => Raise IndexError
  end.

(** [a.take(idx)] for a one-dimensional [a]. *)
Fixpoint take (a : list Z) (idx : list Z) : result (list Z) :=
  match idx with
  | [] => Ok []
  | i :: idx' =>
      v ← getitem a i;
      vs ← take a idx';
      Ok (v :: vs)
  end.

(** [a.take(idx)] where [idx] is two-dimensional: the result has the
    shape of [idx]. *)
Fixpoint take2 (a : list Z) (idx : list (list Z)) : result (list (list Z)) :=
  match idx with
  | [] => Ok []
  | row :: idx' =>
      r ← take a row;
      rs ← take2 a idx';
      Ok (r :: rs)
  end.

(** [a[idx] = vals] with an index array and a value array of the same
    length, assigned left to right. *)
Fixpoint setitems (a : list Z) (idx vals : list Z) : result (list Z) :=
  match idx, vals with
  | [], [] => Ok a
  | i :: idx', v :: vals' =>
      j ← norm_index (length a) i;
      setitems (<[j := v]> a) idx' vals'
  | _, _ => Raise ValueError
  end.

(** [a[idx] = v] with a scalar [v] broadcast over the index array. *)
Definition setitems_scalar (a : list Z) (idx : list Z) (v : Z) : result (list Z) :=
  setitems a idx (map (fun _ => v) idx).

(** Sorted insertion without repetition; [unique] folds it. *)
Fixpoint insert_unique (x : Z) (l : list Z) : list Z :=
  match l with
  | [] => [x]
  | y :: l' =>
      if x <? y then x :: y :: l'
      else if x =? y then y :: l'
      else y :: insert_unique x l'
  end.

(** [numpy.unique(a)]: the sorted distinct values of [a]. *)
Definition unique (a : list Z) : list Z := fold_right insert_unique [] a.

(** [numpy.union1d(a, b) = unique(concatenate((a, b)))] *)
Definition union1d (a b : list Z) : list Z := unique (a ++ b).

(** [numpy.searchsorted(a, v)] (side left) for one value: bisection
    between [lo] and [hi], [fuel] bounding the number of halvings. *)
Fixpoint bisect_left (fuel : nat) (a : list Z) (v : Z) (lo hi : nat) : nat :=
  match fuel with
  | O => lo
  | S fuel' =>
      if (lo <? hi)%nat then
        let mid := ((lo + hi) / 2)%nat in
        match a !! mid with
        | Some x =>
            if x <? v then bisect_left fuel' a v (S mid) hi
            else bisect_left fuel' a v lo mid
        | None => lo
        end
      else lo
  end.

Definition searchsorted (a : list Z) (vs : list Z) : list Z :=
  map (fun v => Z.of_nat (bisect_left (S (length a)) a v 0 (length a))) vs.

(** [a.take(idx, axis=0)] for a two-dimensional [a]: a selection of rows. *)
Fixpoint take_rows (a : list (list Z)) (idx : list Z) : result (list (list Z)) :=
  match idx with
  | [] => Ok []
  | i :: idx' =>
      j ← norm_index (length a) i;
      match a !! j with
      | Some row =>
          rows ← take_rows a idx';
          Ok (row :: rows)
      | None => Raise IndexError
      end
  end.

(** [a[lo:hi]] for [0 <= lo <= hi]. *)
Definition slice (a : list Z) (lo hi : Z) : list Z :=
  firstn (Z.to_nat (hi - lo)) (skipn (Z.to_nat lo) a).

(** [row + k * offset] for a row of a two-dimensional array and a
    one-dimensional [offset].  Arrays of one length are added entry by
    entry; an array of one entry is broadcast along the other; other
    shapes do not broadcast. *)
Definition add_scaled (T : IntType) (k : Z) (row offset : list Z) : result (list Z) :=
  if (length row =? length offset)%nat
  then Ok (zip_with (fun x o => add T x (mul T k o)) row offset)
  else match row, offset with
       | _, [o] => Ok (map (fun x => add T x (mul T k o)) row)
       | [x], _ => Ok (map (fun o => add T x (mul T k o)) offset)
       | _, _ => Raise ValueError
       end.

(** [numpy.where(a == v)[0]] *)
Fixpoint where_eq_from (i : Z) (a : list Z) (v : Z) : list Z :=
  match a with
  | [] => []
  | x :: a' =>
      if x =? v then i :: where_eq_from (i + 1) a' v
      else where_eq_from (i + 1) a' v
  end.

Definition where_eq (a : list Z) (v : Z) : list Z := where_eq_from 0 a v.

End Np.

(** ** External collaborators

    The mesh topology, PETSc sections, FInAT elements, PyOP2 sets and
    maps, function spaces and boundary conditions are defined outside
    this module.  Each is represented by a record of what this module
    reads from it. *)

(** A PETSc section over the points [0 .. chart): the number of dofs of
    every point that was given one with [setDof], in point order. *)
Record PetscSection : Type := mkSection {
  sec_chart : Z;
  sec_dofs : list Z
}.

Definition setChart (s : PetscSection) (pend : Z) : PetscSection :=
  {| sec_chart := pend; sec_dofs := sec_dofs s |}.

(** [section.setDof(p, n)] where [p] is the next point without dofs, as
    in every use below. *)
Definition setDof_next (s : PetscSection) (n : Z) : PetscSection :=
  {| sec_chart := sec_chart s; sec_dofs := sec_dofs s ++ [n] |}.

Definition getDof (s : PetscSection) (p : Z) : Z :=
  if p <? 0 then 0 else nth (Z.to_nat p) (sec_dofs s) 0.

Definition sumZ (l : list Z) : Z := fold_right Z.add 0 l.

Definition getOffset (s : PetscSection) (p : Z) : Z :=
  if p <? 0 then 0 else sumZ (firstn (Z.to_nat p) (sec_dofs s)).

Definition getStorageSize (s : PetscSection) : Z := sumZ (sec_dofs s).

Module Op2.

(** [op2.Set(sizes, ...)] and [op2.ExtrudedSet(parent, layers)]; the
    total size is the last of the size classes. *)
Record Set_ : Type := mkSet {
  set_sizes : list Z;
  set_layers : option Z
}.

Definition total_size (s : Set_) : Z := List.last (set_sizes s) 0.

Definition ExtrudedSet (parent : Set_) (layers : Z) : Set_ :=
  {| set_sizes := set_sizes parent; set_layers := Some layers |}.

(** [op2.Map.MapMask(section, indices, facet_points)] *)
Record MapMask : Type := mkMapMask {
  mask_section : PetscSection;
  mask_indices : list Z;
  mask_facet_points : list Z
}.

End Op2.

(** The values a [sub_domain] takes: the strings ["on_boundary"],
    ["top"], ["bottom"], a facet tag or a tuple of tags. *)
Inductive SubDomain : Type :=
| SubStr (s : string)
| SubInt (i : Z)
| SubTuple (t : list Z).

#[global] Instance SubDomain_eq_dec : EqDecision SubDomain.
Proof. solve_decision. Defined.

(** [sub_domain in ['top', 'bottom']] *)
Definition is_top_bottom (sd : SubDomain) : bool :=
  match sd with
  | SubStr s => bool_decide (s = "top"%string) || bool_decide (s = "bottom"%string)
  | _ => false
  end.

(** [pyop2.utils.as_tuple] on a sub-domain that is not a string. *)
Definition as_tuple (sd : SubDomain) : SubDomain :=
  match sd with
  | SubInt i => SubTuple [i]
  | _ => sd
  end.

(** What [get_map] and the resolver read from a function space.
    [fs_topological] names the underlying topological function space;
    two spaces compare equal when these names agree.  A component proxy
    ([V.sub(i)] of a vector space) has [fs_component = Some i] and its
    vector space as [fs_parent]. *)
#[warnings="-register-all"]
Inductive FunctionSpace : Type := mkFS {
  fs_topological : nat;
  fs_mesh : nat;
  fs_ufl_element : string;
  fs_name : string;
  fs_len : nat;
  fs_value_size : Z;
  fs_component : option Z;
  fs_parent : option FunctionSpace
}.

(** Equality of function-space descriptions, computed field by field
    and along the chain of parents. *)
Fixpoint fs_eqb (a b : FunctionSpace) : bool :=
  match a, b with
  | mkFS t1 m1 u1 n1 l1 v1 c1 p1, mkFS t2 m2 u2 n2 l2 v2 c2 p2 =>
      bool_decide (t1 = t2) && bool_decide (m1 = m2) && bool_decide (u1 = u2)
      && bool_decide (n1 = n2) && bool_decide (l1 = l2) && bool_decide (v1 = v2)
      && bool_decide (c1 = c2)
      && match p1, p2 with
         | Some x, Some y => fs_eqb x y
         | None, None => true
         | _, _ => false
         end
  end.

Lemma fs_eqb_true : forall a b : FunctionSpace, fs_eqb a b = true -> a = b.
Proof.
  fix IH 1. intros [t1 m1 u1 n1 l1 v1 c1 p1] [t2 m2 u2 n2 l2 v2 c2 p2]. simpl.
  rewrite !andb_true_iff, !bool_decide_eq_true.
  intros [[[[[[[-> ->] ->] ->] ->] ->] ->] Hp].
  f_equal. destruct p1 as [x |], p2 as [y |]; try discriminate; [| reflexivity].
  f_equal. by apply IH.
Qed.

Lemma fs_eqb_refl : forall a : FunctionSpace, fs_eqb a a = true.
Proof.
  fix IH 1. intros [t1 m1 u1 n1 l1 v1 c1 p1]. simpl.
  rewrite !bool_decide_eq_true_2 by reflexivity. simpl.
  destruct p1 as [x |]; [apply IH | reflexivity].
Qed.

Lemma fs_eqb_false (a b : FunctionSpace) : fs_eqb a b = false -> a <> b.
Proof. intros Hne ->. rewrite fs_eqb_refl in Hne. discriminate. Qed.

#[global] Instance FunctionSpace_dec : EqDecision FunctionSpace :=
  fun a b =>
    match fs_eqb a b as c return fs_eqb a b = c -> Decision (a = b) with
    | true => fun H => left (fs_eqb_true a b H)
    | false => fun H => right (fs_eqb_false a b H)
    end eq_refl.

(** A [DirichletBC]: [bc_hash] is [bc.__hash__()], the identity the
    constraints are ordered by. *)
Record DirichletBC : Type := mkBC {
  bc_hash : Z;
  bc_sub_domain : SubDomain;
  bc_method : string;
  bc_nodes : list Z;
  bc_function_space : FunctionSpace
}.

#[global] Instance DirichletBC_eq_dec : EqDecision DirichletBC.
Proof. solve_decision. Defined.

(** The three entity sets of a mesh that index the map caches. *)
Inductive EntitySet : Type :=
| CellSet
| InteriorFacetSet
| ExteriorFacetSet.

#[global] Instance EntitySet_eq_dec : EqDecision EntitySet.
Proof. solve_decision. Defined.

(** Keys of the FInAT dictionaries on a tensor-product cell are tuples
    of dimensions, compared as Python compares tuples. *)
Fixpoint tuple_leb (a b : list Z) : bool :=
  match a, b with
  | [], _ => true
  | _ :: _, [] => false
  | x :: a', y :: b' => if x <? y then true else if y <? x then false else tuple_leb a' b'
  end.

(** What is read from a FInAT element.  [entity_support_dofs] may raise
    [NotImplementedError]. *)
Record FinatElement : Type := mkElement {
  el_spatial_dimension : Z;
  el_space_dimension : Z;
  el_entity_dofs : dict (list Z) (dict Z (list Z));
  el_entity_closure_dofs : dict (list Z) (dict Z (list Z));
  el_entity_support_dofs : result (dict (list Z) (dict Z (list Z)))
}.

(** What is read from a mesh topology. *)
Record MeshTopology : Type := mkMesh {
  mesh_id : nat;
  cell_set_extruded : bool;
  variable_layers : bool;
  cell_set_layers : Z;
  create_section : list Z -> PetscSection;
  node_classes : list Z -> list Z;
  exterior_facets_subset : SubDomain -> list Z
}.

(** ** The per-mesh cache *)

(** The [cached] decorator: [cache] is
    [mesh._shared_data_cache[f.__name__]]. *)
Definition cached {K V : Type} `{EqDecision K}
    (f : K -> result V) (key : K) (cache : dict K V) : result V * dict K V :=
  match getitem cache key with
  | Ok v => (Ok v, cache)
  | Raise KeyError =>
      match f key with
      | Ok r => (Ok r, cache ++ [(key, r)])
      | Raise e => (Raise e, cache)
      end
  | Raise e => (Raise e, cache)
  end.

(** [get_global_numbering(mesh, nodes_per_entity)], without the cache. *)
Definition get_global_numbering (mesh : MeshTopology) (nodes_per_entity : list Z)
  : result PetscSection :=
  Ok (create_section mesh nodes_per_entity).

(** The body of [get_node_set]; [numbering_cache] is the cache of
    [get_global_numbering]. *)
Definition get_node_set (T : Np.IntType) (mesh : MeshTopology)
    (numbering_cache : dict (list Z) PetscSection) (nodes_per_entity : list Z)
  : result Op2.Set_ :=
  global_numbering ← fst (cached (get_global_numbering mesh) nodes_per_entity numbering_cache);
  let node_classes := node_classes mesh nodes_per_entity in
  let node_set := Op2.mkSet node_classes None in
  let extruded := cell_set_extruded mesh in
  let node_set := if extruded then Op2.ExtrudedSet node_set 2 else node_set in
  if negb (bool_decide (getStorageSize global_numbering = Op2.total_size node_set))
  then Raise AssertionError
  else if negb extruded && (Z.shiftl 1 (Np.itemsize T * 8 - 4) <=? Op2.total_size node_set)
  then Raise RuntimeError
  else Ok node_set.

(** ** The canonical key of an [entity_dofs] dictionary *)

Section EntityDofsKey.
Context {K : Type} `{EqDecision K} (leb : K -> K -> bool).

(** The inner loop: the dof tuples of one entity dimension, by
    increasing sub-entity. *)
Definition entity_dofs_sub_key (sub : dict Z (list Z)) : result (list (list Z)) :=
  mapM (fun sk => getitem sub sk) (sorted_by Z.leb (keys sub)).

(** The tuple [(k, dofs_0, dofs_1, ...)] is the pair of [k] and the
    list of the dof tuples. *)
Definition entity_dofs_key (entity_dofs : dict K (dict Z (list Z)))
  : result (list (K * list (list Z))) :=
  mapM (fun k =>
          sub ← getitem entity_dofs k;
          sub_key ← entity_dofs_sub_key sub;
          Ok (k, sub_key))
       (sorted_by leb (keys entity_dofs)).

End EntityDofsKey.

(** ** Work functions *)

(** [mesh._shared_data_cache["max_work_functions"]] of every mesh, by
    mesh and then by UFL element. *)
Abbreviation WorkLimits := (gmap nat (gmap string Z)).

Definition get_max_work_functions (V : FunctionSpace) (w : WorkLimits) : Z :=
  let cache := default ∅ (w !! fs_mesh V) in
  default 25 (cache !! fs_ufl_element V).

Definition set_max_work_functions (V : FunctionSpace) (val : Z) (w : WorkLimits)
  : WorkLimits :=
  let cache := default ∅ (w !! fs_mesh V) in
  <[fs_mesh V := <[fs_ufl_element V := val]> cache]> w.

(** ** Boundary masks of an extruded mesh *)

(** The local variables of the loop of [get_boundary_masks]. *)
Record MaskLoop : Type := mkMaskLoop {
  closure_section : PetscSection;
  support_section : PetscSection;
  closure_indices : list Z;
  support_indices : list Z;
  facet_points : list Z;
  loop_p : Z
}.

(** The body of the inner loop, for sub-entity [key] of dimension [ent]. *)
Definition mask_loop_body (dim : Z)
    (ecd : dict (list Z) (dict Z (list Z)))
    (esd : option (dict (list Z) (dict Z (list Z))))
    (ent : list Z) (key : Z) (s : MaskLoop) : result MaskLoop :=
  ecd_ent ← getitem ecd ent;
  closure ← getitem ecd_ent key;
  let closure_section := setDof_next (closure_section s) (Z.of_nat (length closure)) in
  let closure_indices := closure_indices s ++ sorted_by Z.leb closure in
  '(support_section, support_indices) ←
    match esd with
    | Some esd =>
        esd_ent ← getitem esd ent;
        support ← getitem esd_ent key;
        Ok (setDof_next (support_section s) (Z.of_nat (length support)),
            support_indices s ++ sorted_by Z.leb support)
    | None => Ok (support_section s, support_indices s)
    end;
  let facet_points :=
    if sumZ ent =? dim - 1 then facet_points s ++ [loop_p s] else facet_points s in
  Ok (mkMaskLoop closure_section support_section closure_indices support_indices
        facet_points (loop_p s + 1)).

(** The body of the outer loop, for the entities of dimension [ent]. *)
Definition mask_loop_ent (dim : Z)
    (ecd : dict (list Z) (dict Z (list Z)))
    (esd : option (dict (list Z) (dict Z (list Z))))
    (ent : list Z) (s : MaskLoop) : result MaskLoop :=
  if sumZ ent =? dim then Ok s
  else
    ecd_ent ← getitem ecd ent;
    for_each (mask_loop_body dim ecd esd ent) (sorted_by Z.leb (keys ecd_ent)) s.

(** The body of [get_boundary_masks(mesh, key, finat_element)]: [None]
    unless the mesh is extruded, else the dictionary of masks by
    method. *)
Definition get_boundary_masks (mesh : MeshTopology) (finat_element : FinatElement)
  : result (option (dict string (option Op2.MapMask))) :=
  if negb (cell_set_extruded mesh) then Ok None
  else
    let dim := el_spatial_dimension finat_element in
    let ecd := el_entity_closure_dofs finat_element in
    esd ← match el_entity_support_dofs finat_element with
          | Ok esd => Ok (Some esd)
          | Raise NotImplementedError => Ok None
          | Raise e => Raise e
          end;
    let chart := sumZ (map (fun sub : dict Z (list Z) => Z.of_nat (length sub)) (values ecd)) - 1 in
    let init :=
      mkMaskLoop (setChart (mkSection 0 []) chart) (setChart (mkSection 0 []) chart)
        [] [] [] 0 in
    s ← for_each (mask_loop_ent dim ecd esd) (sorted_by tuple_leb (keys ecd)) init;
    Ok (Some
          [("topological"%string,
             Some (Op2.mkMapMask (closure_section s) (closure_indices s) (facet_points s)));
           ("geometric"%string,
             Some (Op2.mkMapMask (support_section s) (support_indices s) (facet_points s)))]).

(** ** Function-space data and its maps *)

(** PyOP2 maps are compared by identity: they live in a heap and are
    named by their address.  [DecoratedMap] wraps the map at another
    address; an absent [vector_index] is [false]. *)
Inductive MapObject : Type :=
| Map (iterset : EntitySet) (toset : Op2.Set_) (arity : Z)
      (map_values : list (list Z)) (name : string)
      (offset : option (list Z)) (parent : option nat)
      (boundary_masks : option (dict string (option Op2.MapMask)))
| DecoratedMap (map : nat) (vector_index : bool)
      (implicit_bcs : option (list (SubDomain * string))).

(** The slots of [FunctionSpaceData] that are never assigned again. *)
Record FunctionSpaceData : Type := mkFSD {
  entity_node_lists : EntitySet -> list (list Z);
  node_set : Op2.Set_;
  fsd_boundary_masks : option (dict string (option Op2.MapMask));
  fsd_offset : option (list Z);
  fsd_extruded : bool;
  fsd_mesh : MeshTopology;
  global_numbering : PetscSection
}.

(** The heap of maps and [self.map_caches]: the dictionaries of the
    three entity sets, keyed by set and tuple of constraints, and the
    one of ["boundary_node"], keyed by method. *)
Record MapStore : Type := mkStore {
  heap : list MapObject;
  map_caches : dict (EntitySet * list DirichletBC) nat;
  boundary_node_cache : dict string nat
}.

(** What [get_map_caches] returns, before any map is built: empty
    dictionaries. *)
Definition empty_store : MapStore := mkStore [] [] [].

(** Construction of a map object: a fresh address. *)
Definition alloc (obj : MapObject) (st : MapStore) : nat * MapStore :=
  (length (heap st),
   mkStore (heap st ++ [obj]) (map_caches st) (boundary_node_cache st)).

(** [cache[lbcs] = val] *)
Fixpoint setitem {K V : Type} `{EqDecision K} (d : dict K V) (k : K) (v : V) : dict K V :=
  match d with
  | [] => [(k, v)]
  | (k', v') :: d' => if decide (k' = k) then (k', v) :: d' else (k', v') :: setitem d' k v
  end.

Definition cache_store (entity_set : EntitySet) (lbcs : list DirichletBC) (val : nat)
    (st : MapStore) : MapStore :=
  mkStore (heap st) (setitem (map_caches st) (entity_set, lbcs) val)
    (boundary_node_cache st).

(** The array of values of the map at an address, through decorations. *)
Fixpoint values_at (fuel : nat) (h : list MapObject) (a : nat) : option (list (list Z)) :=
  match fuel with
  | O => None
  | S fuel' =>
      match h !! a with
      | Some (Map _ _ _ vals _ _ _ _) => Some vals
      | Some (DecoratedMap a' _ _) => values_at fuel' h a'
      | None => None
      end
  end.

Definition map_values_of (st : MapStore) (a : nat) : option (list (list Z)) :=
  values_at (S (length (heap st))) (heap st) a.

(** [bc.sub_domain not in ['top', 'bottom']] *)
Definition is_explicit (bc : DirichletBC) : bool :=
  negb (is_top_bottom (bc_sub_domain bc)).

(** The rewriting of [bcs] at the start of [get_map]: the constraints
    that enter the cache key, and the implicit ones. *)
Definition split_bcs (bcs : option (list DirichletBC))
  : list DirichletBC * option (list (SubDomain * string)) :=
  match bcs with
  | Some bcs =>
      let explicit_bcs := List.filter is_explicit bcs in
      let implicit_bcs :=
        map (fun bc => (bc_sub_domain bc, bc_method bc))
          (List.filter (fun bc => is_top_bottom (bc_sub_domain bc)) bcs) in
      (if (length explicit_bcs =? 0)%nat then [] else bcs,
       if (length implicit_bcs =? 0)%nat then None else Some implicit_bcs)
  | None => ([], None)
  end.

(** [while fs.component is not None and fs.parent is not None:
       fs = fs.parent] *)
Fixpoint unwind_proxies (fs : FunctionSpace) : FunctionSpace :=
  match fs with
  | mkFS _ _ _ _ _ _ (Some _) (Some parent) => unwind_proxies parent
  | _ => fs
  end.

(** The body of [for bc in bcs] that checks the function space. *)
Definition check_bc (V : FunctionSpace) (bc : DirichletBC) (u : unit) : result unit :=
  let fs := unwind_proxies (bc_function_space bc) in
  if bool_decide (fs_topological fs = fs_topological V) then Ok u
  else Raise RuntimeError.

(** [key=lambda bc: bc.__hash__()] *)
Definition hash_leb (a b : DirichletBC) : bool := bc_hash a <=? bc_hash b.

(** [negids[idx] |= (1 << n)]: the entries at [idx] are read, or-ed
    with the bit and written back.  A bit that fits the array's type is
    or-ed in that type.  For a larger bit numpy 1 computes in the
    smallest type that holds both: below [2^63] that is a 64-bit
    integer, which is cast back to a 32-bit array with wrap-around; a
    64-bit array has no such type, nor has any array from [2^63] on,
    and the operation raises [TypeError]. *)
Definition ior_shift (T : Np.IntType) (negids idx : list Z) (n : Z) : result (list Z) :=
  old ← Np.take negids idx;
  bit ← shl1 n;
  if bit <? 2 ^ (Np.bits T - 1) then
    Np.setitems negids idx (map (fun v => Z.lor v bit) old)
  else if (Np.bits T =? 32) && (bit <? 2 ^ 63) then
    Np.setitems negids idx (map (fun v => Np.wrap T (Z.lor v bit)) old)
  else Raise TypeError.

(** [any(bc.function_space().component is not None for bc in lbcs)] *)
Definition decorate_of (lbcs : list DirichletBC) : bool :=
  existsb (fun bc => bool_decide (is_Some (fs_component (bc_function_space bc)))) lbcs.

(** The body of [for bc in lbcs] that sets the component bits of
    [negids]. *)
Definition encode_bc (T : Np.IntType) (decorate : bool) (bcids : list Z)
    (bc : DirichletBC) (negids : list Z) : result (list Z) :=
  if is_top_bottom (bc_sub_domain bc) then Ok negids
  else
    let nbits := Np.itemsize T * 8 - 2 in
    let fs := bc_function_space bc in
    negids ←
      (if decorate && bool_decide (fs_component fs = None) then
         let idx := Np.searchsorted bcids (bc_nodes bc) in
         if 3 <? fs_value_size fs then Raise ValueError
         else
           for_each (fun cmp negids => ior_shift T negids idx (nbits - cmp))
             (range (fs_value_size fs)) negids
       else Ok negids);
    match fs_component fs with
    | Some component =>
        let idx := Np.searchsorted bcids (bc_nodes bc) in
        ior_shift T negids idx (nbits - component)
    | None => Ok negids
    end.

(** [bcids] and [negids] of a cache miss with at least one explicit
    constraint; [nodes] is the non-empty list of their node arrays. *)
Definition encode_nodes (T : Np.IntType) (lbcs : list DirichletBC) (nodes : list (list Z))
  : result (list Z * list Z) :=
  bcids ← reduce Np.union1d nodes;
  negids ← for_each (encode_bc T (decorate_of lbcs) bcids) lbcs bcids;
  Ok (bcids, negids).

(** The lookup table [node_list_bc]. *)
Definition node_list_bc (T : Np.IntType) (self : FunctionSpaceData)
    (lbcs : list DirichletBC) (nodes : list (list Z)) : result (list Z) :=
  '(bcids, negids) ← encode_nodes T lbcs nodes;
  let node_list_bc := Np.arange (Op2.total_size (node_set self)) in
  if fsd_extruded self then Np.setitems_scalar node_list_bc bcids (-10000000)
  else Np.setitems node_list_bc bcids (map (fun e => Np.neg T (Np.add T e 1)) negids).

(** [new_entity_node_list] of a cache miss. *)
Definition new_entity_node_list (T : Np.IntType) (self : FunctionSpaceData)
    (entity_set : EntitySet) (lbcs : list DirichletBC) : result (list (list Z)) :=
  let entity_node_list := entity_node_lists self entity_set in
  let nodes := map bc_nodes (List.filter is_explicit lbcs) in
  match nodes with
  | [] => Ok entity_node_list
  | _ :: _ =>
      node_list_bc ← node_list_bc T self lbcs nodes;
      Np.take2 node_list_bc entity_node_list
  end.

(** [FunctionSpaceData.get_map]: the address of the map and the store
    after the call. *)
Definition get_map (T : Np.IntType) (self : FunctionSpaceData) (V : FunctionSpace)
    (entity_set : EntitySet) (map_arity : Z) (bcs : option (list DirichletBC))
    (name : string) (offset : option (list Z)) (parent : option nat)
    (st : MapStore) : result nat * MapStore :=
  if negb (fs_len V =? 1)%nat then (Raise AssertionError, st)
  else
    let '(bcs, implicit_bcs) := split_bcs bcs in
    match for_each (check_bc V) bcs tt with
    | Raise e => (Raise e, st)
    | Ok _ =>
        let lbcs := sorted_by hash_leb bcs in
        match getitem (map_caches st) (entity_set, lbcs) with
        | Ok val =>
            match implicit_bcs with
            | Some implicit_bcs =>
                let '(val, st) := alloc (DecoratedMap val false (Some implicit_bcs)) st in
                (Ok val, st)
            | None => (Ok val, st)
            end
        | Raise _ =>
            match new_entity_node_list T self entity_set lbcs with
            | Raise e => (Raise e, st)
            | Ok new_entity_node_list =>
                match format_name (fs_name V) name with
                | Raise e => (Raise e, st)
                | Ok map_name =>
                    let '(val, st) :=
                      alloc (Map entity_set (node_set self) map_arity new_entity_node_list
                               map_name offset parent (fsd_boundary_masks self)) st in
                    let '(val, st) :=
                      if decorate_of lbcs then alloc (DecoratedMap val true None) st
                      else (val, st) in
                    let st := cache_store entity_set lbcs val st in
                    match implicit_bcs with
                    | Some implicit_bcs =>
                        let '(val, st) :=
                          alloc (DecoratedMap val false (Some implicit_bcs)) st in
                        (Ok val, st)
                    | None => (Ok val, st)
                    end
                end
            end
        end
    end.

(** ** Boundary nodes *)

(** A function space as the resolver sees it: its identity, the shared
    data it delegates to ([V.cell_node_list], [V.offset],
    [V.boundary_masks], [V.extruded], [V.dof_dset.set]) and its element. *)
Record Space : Type := mkSpace {
  V_space : FunctionSpace;
  V_data : FunctionSpaceData;
  V_finat_element : FinatElement
}.

(** What the resolver calls outside this module:
    [extnum.boundary_nodes] and [extnum.top_bottom_boundary_nodes] for
    meshes with variable layers, [eutils.flat_entity_dofs], the halo
    exchange [global_to_local_begin/end] of a [Dat], and the map of
    [exterior_facet_boundary_node_map], of which only the values with
    halo and the offset are read. *)
Record Collaborators : Type := mkCollab {
  extnum_boundary_nodes : Space -> SubDomain -> string -> result (list Z);
  extnum_top_bottom_boundary_nodes :
    list (list Z) -> option Op2.MapMask -> option (list Z) -> SubDomain -> result (list Z);
  flat_entity_dofs : dict (list Z) (dict Z (list Z)) -> dict (list Z) (dict Z (list Z));
  exterior_facet_boundary_node_map :
    Space -> string -> result (list (list Z) * option (list Z));
  global_to_local : list Z -> list Z
}.

Definition on_boundary : SubDomain := SubStr "on_boundary".

(** The key of the caches of the two resolvers:
    [(entity_dofs_key, sub_domain, method)]. *)
Definition BoundaryKey : Type :=
  (list (list Z * list (list Z)) * SubDomain * string)%type.

(** The body of [get_top_bottom_boundary_nodes(mesh, key, V)]. *)
Definition get_top_bottom_boundary_nodes (T : Np.IntType) (env : Collaborators)
    (mesh : MeshTopology) (key : BoundaryKey) (V : Space) : result (list Z) :=
  let '(_, sub_domain, method) := key in
  let cell_node_list := entity_node_lists (V_data V) CellSet in
  let offset := fsd_offset (V_data V) in
  if variable_layers mesh then
    if bool_decide (method = "geometric"%string) then Raise NotImplementedError
    else
      masks ← match fsd_boundary_masks (V_data V) with
              | Some masks => Ok masks
              | None => Raise TypeError
              end;
      mask ← getitem masks method;
      extnum_top_bottom_boundary_nodes env cell_node_list mask offset sub_domain
  else
    idx ← getitem [(SubStr "bottom", -2); (SubStr "top", -1)] sub_domain;
    masks ← match fsd_boundary_masks (V_data V) with
            | Some masks => Ok masks
            | None => Raise TypeError
            end;
    mask ← getitem masks method;
    mask ← match mask with Some mask => Ok mask | None => Raise TypeError end;
    let section := Op2.mask_section mask in
    let indices := Op2.mask_indices mask in
    facet ← Np.getitem (Op2.mask_facet_points mask) idx;
    let dof := getDof section facet in
    let off := getOffset section facet in
    let mask := Np.slice indices off (off + dof) in
    nodes ← mapM (fun row => Np.take row mask) cell_node_list;
    nodes ←
      (if bool_decide (sub_domain = SubStr "top") then
         offset ← match offset with Some o => Ok o | None => Raise TypeError end;
         offset_mask ← Np.take offset mask;
         mapM (fun row => Np.add_scaled T (cell_set_layers mesh - 2) row offset_mask) nodes
       else Ok nodes);
    Ok (Np.unique (concat nodes)).

(** The local variable [indices] of [get_boundary_nodes] before the
    halo exchange: [None] when no assignment to it was executed. *)
Definition local_boundary_indices (T : Np.IntType) (env : Collaborators)
    (mesh : MeshTopology) (sub_domain : SubDomain) (method : string) (V : Space)
  : result (option (list Z)) :=
  if variable_layers mesh then
    indices ← extnum_boundary_nodes env V sub_domain method;
    Ok (Some indices)
  else
    m ← exterior_facet_boundary_node_map env V method;
    let nodes := fst m in
    if negb (bool_decide (sub_domain = on_boundary)) then
      let indices := exterior_facets_subset mesh sub_domain in
      nodes ← Np.take_rows nodes indices;
      if negb (fsd_extruded (V_data V)) then Ok (Some (Np.unique (concat nodes)))
      else
        m ← exterior_facet_boundary_node_map env V method;
        offset ← match snd m with Some o => Ok o | None => Raise TypeError end;
        layers ← mapM (fun i => mapM (fun row => Np.add_scaled T i row offset) nodes)
                   (range (cell_set_layers mesh - 1));
        match layers with
        | [] => Raise ValueError
        | _ :: _ => Ok (Some (Np.unique (concat (concat layers))))
        end
    else Ok None.

(** The body of [get_boundary_nodes(mesh, key, V)]. *)
Definition get_boundary_nodes (T : Np.IntType) (env : Collaborators)
    (mesh : MeshTopology) (key : BoundaryKey) (V : Space) : result (list Z) :=
  let '(_, sub_domain, method) := key in
  indices ← local_boundary_indices T env mesh sub_domain method V;
  let d := Np.zeros (Op2.total_size (node_set (V_data V))) in
  indices ← match indices with
            | Some indices => Ok indices
            | None => Raise UnboundLocalError
            end;
  d ← Np.setitems_scalar d indices 1;
  let d := global_to_local env d in
  Ok (map (Np.wrap T) (Np.where_eq d 1)).

(** The caches of the two resolvers on the mesh. *)
Record BoundaryCaches : Type := mkBCaches {
  top_bottom_cache : dict BoundaryKey (list Z);
  boundary_cache : dict BoundaryKey (list Z)
}.

(** [FunctionSpaceData.boundary_nodes(V, sub_domain, method)]; [mesh] is
    [V.mesh()]. *)
Definition boundary_nodes (T : Np.IntType) (env : Collaborators) (mesh : MeshTopology)
    (V : Space) (sub_domain : SubDomain) (method : string) (c : BoundaryCaches)
  : result (list Z) * BoundaryCaches :=
  if negb (bool_decide (method = "topological"%string)
           || bool_decide (method = "geometric"%string))
  then (Raise ValueError, c)
  else if is_top_bottom sub_domain then
    if negb (fsd_extruded (V_data V)) then (Raise ValueError, c)
    else
      let entity_dofs := flat_entity_dofs env (el_entity_dofs (V_finat_element V)) in
      match entity_dofs_key tuple_leb entity_dofs with
      | Raise e => (Raise e, c)
      | Ok edk =>
          let key := (edk, sub_domain, method) in
          let '(r, cache) :=
            cached (fun key => get_top_bottom_boundary_nodes T env mesh key V)
              key (top_bottom_cache c) in
          (r, mkBCaches cache (boundary_cache c))
      end
  else
    let sdkey := if bool_decide (sub_domain = on_boundary) then sub_domain
                 else as_tuple sub_domain in
    match entity_dofs_key tuple_leb (el_entity_dofs (V_finat_element V)) with
    | Raise e => (Raise e, c)
    | Ok edk =>
        let key := (edk, sdkey, method) in
        let '(r, cache) :=
          cached (fun key => get_boundary_nodes T env mesh key V)
            key (boundary_cache c) in
        (r, mkBCaches (top_bottom_cache c) cache)
    end.

(** ** The data shared on a mesh *)

(** The keys of [mesh._shared_data_cache[f.__name__]]: the nodes per
    entity for the numbering and the node set, the canonical entity
    dofs for the rest. *)
Inductive CacheKey : Type :=
| NodesKey (nodes_per_entity : list Z)
| DofsKey (edofs_key : list (list Z * list (list Z))).

#[global] Instance CacheKey_eq_dec : EqDecision CacheKey.
Proof. solve_decision. Defined.

(** What the cached functions build.  [FunctionSpaceData.__eq__]
    compares these objects by identity, so they live in a heap and are
    named by their address. *)
Inductive SharedObject : Type :=
| SectionObj (s : PetscSection)
| SetObj (s : Op2.Set_)
| MapCachesObj
| ArrayObj (a : list Z)
| NodeListsObj (lists : EntitySet -> list (list Z))
| MasksObj (masks : dict string (option Op2.MapMask)).

(** A Python reference: [None] or an object of the heap. *)
Inductive Ref : Type :=
| PyNone
| At (a : nat).

#[global] Instance Ref_eq_dec : EqDecision Ref.
Proof. solve_decision. Defined.

(** The objects built on a mesh and [mesh._shared_data_cache], the
    dictionary of dictionaries flattened to pairs of function name and
    key. *)
Record MeshState : Type := mkMeshState {
  objects : list SharedObject;
  shared_data_cache : dict (string * CacheKey) Ref
}.

(** Code that may raise and that builds objects on the mesh. *)
Definition Build (A : Type) : Type := MeshState -> result A * MeshState.

#[global] Instance build_ret : MRet Build := fun A x m => (Ok x, m).

#[global] Instance build_bind : MBind Build := fun A B f x m =>
  match x m with
  | (Ok a, m') => f a m'
  | (Raise e, m') => (Raise e, m')
  end.

Definition lift {A : Type} (r : result A) : Build A := fun m => (r, m).

Definition new_object (o : SharedObject) : Build Ref := fun m =>
  (Ok (At (length (objects m))),
   mkMeshState (objects m ++ [o]) (shared_data_cache m)).

Definition the_object (r : Ref) : Build SharedObject := fun m =>
  match r with
  | At a =>
      match objects m !! a with
      | Some o => (Ok o, m)
      | None => (Raise TypeError, m)
      end
  | PyNone => (Raise TypeError, m)
  end.

(** The [cached] decorator around a function that builds an object:
    [fname] is [f.__name__], [f] is the call [f(mesh, key, *args)].
    What [f] did to the mesh stays when it raises. *)
Definition cached_call (fname : string) (f : Build Ref) (key : CacheKey) : Build Ref :=
  fun m =>
    match getitem (shared_data_cache m) (fname, key) with
    | Ok v => (Ok v, m)
    | Raise KeyError =>
        match f m with
        | (Ok r, m') =>
            (Ok r,
             mkMeshState (objects m') (setitem (shared_data_cache m') (fname, key) r))
        | (Raise e, m') => (Raise e, m')
        end
    | Raise e => (Raise e, m)
    end.

(** The methods of the mesh that build the node lists and offsets. *)
Record MeshMethods : Type := mkMethods {
  make_dofs_per_plex_entity : dict (list Z) (dict Z (list Z)) -> list Z;
  make_cell_node_list :
    PetscSection -> dict (list Z) (dict Z (list Z)) -> option (list Z) -> list (list Z);
  make_facet_node_list : list (list Z) -> string -> option (list Z) -> list (list Z);
  make_offset : dict (list Z) (dict Z (list Z)) -> Z -> option (list Z);
  stratum_size : string -> Z
}.

(** [get_global_numbering(mesh, nodes_per_entity)] through the cache. *)
Definition cached_get_global_numbering (mesh : MeshTopology) (nodes_per_entity : list Z)
  : Build Ref :=
  cached_call "get_global_numbering"
    (s ← lift (get_global_numbering mesh nodes_per_entity);
     new_object (SectionObj s))
    (NodesKey nodes_per_entity).

(** [get_node_set(mesh, nodes_per_entity)] through the cache.  Its body
    first gets the numbering through the cache, which may store it, and
    then goes on as [get_node_set] with that numbering cached. *)
Definition cached_get_node_set (T : Np.IntType) (mesh : MeshTopology)
    (nodes_per_entity : list Z) : Build Ref :=
  cached_call "get_node_set"
    (global_numbering ← cached_get_global_numbering mesh nodes_per_entity;
     o ← the_object global_numbering;
     match o with
     | SectionObj s =>
         node_set ← lift (get_node_set T mesh [(nodes_per_entity, s)] nodes_per_entity);
         new_object (SetObj node_set)
     | _ => lift (Raise TypeError)
     end)
    (NodesKey nodes_per_entity).

(** [get_cell_node_list(mesh, entity_dofs, global_numbering, offsets)] *)
Definition get_cell_node_list (mm : MeshMethods)
    (entity_dofs : dict (list Z) (dict Z (list Z))) (global_numbering : PetscSection)
    (offsets : option (list Z)) : list (list Z) :=
  make_cell_node_list mm global_numbering entity_dofs offsets.

(** [get_facet_node_list(mesh, kind, cell_node_list, offsets)] *)
Definition get_facet_node_list (mm : MeshMethods) (kind : string)
    (cell_node_list : list (list Z)) (offsets : option (list Z))
  : result (list (list Z)) :=
  if negb (bool_decide (kind ∈ ["interior_facets"; "exterior_facets"]%string))
  then Raise AssertionError
  else if 0 <? stratum_size mm kind
  then Ok (make_facet_node_list mm cell_node_list kind offsets)
  else Ok [].

(** The body of [get_entity_node_lists]: the dictionary keyed by the
    three entity sets of the mesh. *)
Definition get_entity_node_lists (mm : MeshMethods)
    (entity_dofs : dict (list Z) (dict Z (list Z))) (global_numbering : PetscSection)
    (offsets : option (list Z)) : result (EntitySet -> list (list Z)) :=
  let cell_node_list := get_cell_node_list mm entity_dofs global_numbering offsets in
  interior_facet_node_list ←
    get_facet_node_list mm "interior_facets" cell_node_list offsets;
  exterior_facet_node_list ←
    get_facet_node_list mm "exterior_facets" cell_node_list offsets;
  Ok (fun entity_set =>
        match entity_set with
        | CellSet => cell_node_list
        | InteriorFacetSet => interior_facet_node_list
        | ExteriorFacetSet => exterior_facet_node_list
        end).

(** [get_entity_node_lists(mesh, key, entity_dofs, global_numbering,
    offsets)] through the cache; the numbering and the offsets are
    passed as the objects that the caller holds. *)
Definition cached_get_entity_node_lists (mm : MeshMethods)
    (key : list (list Z * list (list Z)))
    (entity_dofs : dict (list Z) (dict Z (list Z))) (global_numbering offsets : Ref)
  : Build Ref :=
  cached_call "get_entity_node_lists"
    (o ← the_object global_numbering;
     offsets ← match offsets with
               | PyNone => mret None
               | At _ =>
                   a ← the_object offsets;
                   match a with
                   | ArrayObj a => mret (Some a)
                   | _ => lift (Raise TypeError)
                   end
               end;
     match o with
     | SectionObj s =>
         lists ← lift (get_entity_node_lists mm entity_dofs s offsets);
         new_object (NodeListsObj lists)
     | _ => lift (Raise TypeError)
     end)
    (DofsKey key).

(** [get_map_caches(mesh, entity_dofs)] through the cache: a new
    dictionary of empty caches. *)
Definition cached_get_map_caches (key : list (list Z * list (list Z))) : Build Ref :=
  cached_call "get_map_caches" (new_object MapCachesObj) (DofsKey key).

(** [get_dof_offset(mesh, key, entity_dofs, ndof)] through the cache:
    an array, or [None]. *)
Definition cached_get_dof_offset (mm : MeshMethods) (key : list (list Z * list (list Z)))
    (entity_dofs : dict (list Z) (dict Z (list Z))) (ndof : Z) : Build Ref :=
  cached_call "get_dof_offset"
    (match make_offset mm entity_dofs ndof with
     | Some a => new_object (ArrayObj a)
     | None => mret PyNone
     end)
    (DofsKey key).

(** [get_boundary_masks(mesh, key, finat_element)] through the cache:
    a dictionary, or [None]. *)
Definition cached_get_boundary_masks (mesh : MeshTopology)
    (key : list (list Z * list (list Z))) (finat_element : FinatElement) : Build Ref :=
  cached_call "get_boundary_masks"
    (masks ← lift (get_boundary_masks mesh finat_element);
     match masks with
     | Some masks => new_object (MasksObj masks)
     | None => mret PyNone
     end)
    (DofsKey key).

(** The slots of a [FunctionSpaceData] as references. *)
Record FunctionSpaceDataSlots : Type := mkSlots {
  slot_map_caches : Ref;
  slot_entity_node_lists : Ref;
  slot_node_set : Ref;
  slot_boundary_masks : Ref;
  slot_offset : Ref;
  slot_extruded : bool;
  slot_mesh : nat;
  slot_global_numbering : Ref
}.

(** [FunctionSpaceData.__init__(self, mesh, finat_element)] *)
Definition FunctionSpaceData_init (T : Np.IntType) (mesh : MeshTopology) (mm : MeshMethods)
    (finat_element : FinatElement) : Build FunctionSpaceDataSlots :=
  let entity_dofs := el_entity_dofs finat_element in
  let nodes_per_entity := make_dofs_per_plex_entity mm entity_dofs in
  global_numbering ← cached_get_global_numbering mesh nodes_per_entity;
  node_set ← cached_get_node_set T mesh nodes_per_entity;
  edofs_key ← lift (entity_dofs_key tuple_leb entity_dofs);
  map_caches ← cached_get_map_caches edofs_key;
  offset ← cached_get_dof_offset mm edofs_key entity_dofs (el_space_dimension finat_element);
  entity_node_lists ←
    cached_get_entity_node_lists mm edofs_key entity_dofs global_numbering offset;
  boundary_masks ← cached_get_boundary_masks mesh edofs_key finat_element;
  mret (mkSlots map_caches entity_node_lists node_set boundary_masks offset
          (cell_set_extruded mesh) (mesh_id mesh) global_numbering).

(** [FunctionSpaceData.__eq__] on two objects of the class: every slot
    of the one [is] that slot of the other. *)
Definition FunctionSpaceData_eq (a b : FunctionSpaceDataSlots) : bool :=
  bool_decide (slot_map_caches a = slot_map_caches b)
  && bool_decide (slot_entity_node_lists a = slot_entity_node_lists b)
  && bool_decide (slot_node_set a = slot_node_set b)
  && bool_decide (slot_boundary_masks a = slot_boundary_masks b)
  && bool_decide (slot_offset a = slot_offset b)
  && bool_decide (slot_extruded a = slot_extruded b)
  && bool_decide (slot_mesh a = slot_mesh b)
  && bool_decide (slot_global_numbering a = slot_global_numbering b).

(** * Vocabulary of the properties *)

(** [V'] has the mesh of [V] and a UFL element equal to that of [V]. *)
Definition same_limit_key (V V' : FunctionSpace) : Prop :=
  fs_mesh V' = fs_mesh V /\ fs_ufl_element V' = fs_ufl_element V.

(** A history of calls to [set_max_work_functions], oldest first. *)
Definition set_all (sets : list (FunctionSpace * Z)) (w : WorkLimits) : WorkLimits :=
  fold_left (fun w s => set_max_work_functions (fst s) (snd s) w) sets w.

(** The numbering that [get_node_set] obtains: the cached one, or a new
    section of the mesh. *)
Definition numbering_of (mesh : MeshTopology) (numbering_cache : dict (list Z) PetscSection)
    (nodes_per_entity : list Z) : PetscSection :=
  match getitem numbering_cache nodes_per_entity with
  | Ok s => s
  | Raise _ => create_section mesh nodes_per_entity
  end.

(** The local node count: [node_set.total_size]. *)
Definition local_node_count (mesh : MeshTopology) (nodes_per_entity : list Z) : Z :=
  List.last (node_classes mesh nodes_per_entity) 0.

(** The loop has not touched the support section and indices of [s0]. *)
Definition support_untouched (s0 s : MaskLoop) : Prop :=
  support_section s = support_section s0 /\ support_indices s = support_indices s0.

(** The chart of the two sections: the entities of the cell but the
    cell itself. *)
Definition mask_chart (finat_element : FinatElement) : Z :=
  sumZ (map (fun sub : dict Z (list Z) => Z.of_nat (length sub))
          (values (el_entity_closure_dofs finat_element))) - 1.

(** A dictionary has every key once. *)
Definition is_dict {K V : Type} (d : dict K V) : Prop := NoDup (keys d).

(** Two dictionaries with the same keys and related values, in whatever
    order they iterate. *)
Definition same_items {K V : Type} `{EqDecision K} (R : V -> V -> Prop)
    (d1 d2 : dict K V) : Prop :=
  is_dict d1 /\ is_dict d2
  /\ forall k, match getitem d1 k, getitem d2 k with
               | Ok v1, Ok v2 => R v1 v2
               | Raise _, Raise _ => True
               | _, _ => False
               end.

(** Two [entity_dofs] dictionaries that are the same mapping from
    entity key to sub-entity key to tuple of dofs. *)
Definition same_layout {K : Type} `{EqDecision K}
    (d1 d2 : dict K (dict Z (list Z))) : Prop :=
  same_items (same_items eq) d1 d2.

(** The value of [d[k]] for a key of [d], for stating what the loops
    compute. *)
Definition item_of {K V : Type} `{EqDecision K} (dflt : V) (d : dict K V) (k : K) : V :=
  match getitem d k with
  | Ok v => v
  | Raise _ => dflt
  end.

(** The constraint is defined on [V], through component proxies. *)
Definition targets (V : FunctionSpace) (bc : DirichletBC) : Prop :=
  fs_topological (unwind_proxies (bc_function_space bc)) = fs_topological V.

(** The constraints of [bcs] have identities of their own: no two of
    them share a hash. *)
Definition distinct_hashes (bcs : list DirichletBC) : Prop :=
  forall a b, In a bcs -> In b bcs -> bc_hash a = bc_hash b -> a = b.

(** The invariant of the map caches: the map cached under a tuple of
    constraints holds the entity-node array built from that tuple. *)
Definition cache_consistent (T : Np.IntType) (self : FunctionSpaceData) (st : MapStore)
  : Prop :=
  forall entity_set lbcs a,
    getitem (map_caches st) (entity_set, lbcs) = Ok a ->
    exists vals,
      new_entity_node_list T self entity_set lbcs = Ok vals
      /\ map_values_of st a = Some vals.

(** [negids] has one entry per constrained node, related to it by [R]. *)
Definition entries_ok (R : Z -> Z -> Prop) (bcids negids : list Z) : Prop :=
  length negids = length bcids
  /\ forall k n e, bcids !! k = Some n -> negids !! k = Some e -> R n e.

(** The component of a component-indexed constraint is 0, 1 or 2. *)
Definition component_ok (bc : DirichletBC) : Prop :=
  match fs_component (bc_function_space bc) with
  | Some c => 0 <= c <= 2
  | None => True
  end.

(** The constraint that [get_map] refuses: an explicit one on a whole
    space of more than three components, among component-indexed ones. *)
Definition oversized (decorate : bool) (bc : DirichletBC) : bool :=
  is_explicit bc && decorate
  && bool_decide (fs_component (bc_function_space bc) = None)
  && (3 <? fs_value_size (bc_function_space bc)).

(** The nodes of the explicit constraints, of which [bcids] is the
    union. *)
Definition explicit_nodes (lbcs : list DirichletBC) : list (list Z) :=
  map bc_nodes (List.filter is_explicit lbcs).

(** The nodes of all explicit constraints together. *)
Definition constrained_nodes (lbcs : list DirichletBC) : list Z :=
  concat (explicit_nodes lbcs).

(** A constraint as the boundary-condition module hands it over: its
    nodes increasing, its component, if any, one of three. *)
Definition wf_bc (bc : DirichletBC) : Prop :=
  StronglySorted Z.lt (bc_nodes bc) /\ component_ok bc.

(** The value that marks a constrained node on an extruded mesh. *)
Definition sentinel : Z := -10000000.

(** An entry of [negids] before the negation: the node in the low bits,
    component bits above them, the sign bit clear. *)
Definition encoded (T : Np.IntType) (n e : Z) : Prop :=
  0 <= e < 2 ^ (Np.bits T - 1) /\ e mod 2 ^ (Np.bits T - 4) = n.

(** The constraint has no component restriction. *)
Definition plain (bc : DirichletBC) : Prop :=
  fs_component (bc_function_space bc) = None.

(** What the map holds for the node [n]. *)
Definition constrain_entry (bcs : list DirichletBC) (n : Z) : Z :=
  if decide (n ∈ constrained_nodes bcs) then - (n + 1) else n.

(** A constraint on a scalar space: explicit, defined on [V], without
    component restriction, its nodes among those of the node set. *)
Definition scalar_bc (self : FunctionSpaceData) (V : FunctionSpace) (bc : DirichletBC)
  : Prop :=
  is_explicit bc = true /\ targets V bc /\ plain bc
  /\ Forall (fun n => 0 <= n < Op2.total_size (node_set self)) (bc_nodes bc).

(** The name of a map holds no [%]: the format ["%s_" + name] has the
    one conversion that the name of the function space fills. *)
Definition plain_name (name : string) : bool :=
  forallb (fun c => negb (Ascii.eqb c "%")) (String.list_ascii_of_string name).

(** * Sample meshes, spaces and constraints *)

(** A mesh that is not extruded and has exactly [2^28] local nodes. *)
Definition mesh_at_limit : MeshTopology :=
  mkMesh 0 false false 1
    (fun _ => mkSection 1 [2 ^ 28]) (fun _ => [0; 0; 2 ^ 28]) (fun _ => []).

(** An interval mesh of three cells with a linear element: four nodes,
    the exterior facets are the two end points. *)
Definition interval_mesh : MeshTopology :=
  mkMesh 1 false false 1 (fun _ => mkSection 4 [1; 1; 1; 1]) (fun _ => [4; 4; 4])
    (fun _ => [0; 1]).

Definition interval_element : FinatElement :=
  mkElement 1 2
    [([0], [(0, [0]); (1, [1])]); ([1], [(0, [])])]
    [([0], [(0, [0]); (1, [1])]); ([1], [(0, [0; 1])])]
    (Ok [([0], [(0, [0]); (1, [1])]); ([1], [(0, [0; 1])])]).

Definition interval_data : FunctionSpaceData :=
  mkFSD
    (fun s => match s with
              | CellSet => [[0; 1]; [1; 2]; [2; 3]]
              | InteriorFacetSet => [[0; 1; 1; 2]; [1; 2; 2; 3]]
              | ExteriorFacetSet => [[0; 1]; [2; 3]]
              end)
    (Op2.mkSet [4; 4; 4] None) None None false interval_mesh
    (mkSection 4 [1; 1; 1; 1]).

Definition interval_space : Space :=
  mkSpace (mkFS 7 1 "P1" "V" 1 1 None None) interval_data interval_element.

(** The exterior facets see the nodes 0 and 3; nothing is exchanged. *)
Definition interval_collaborators : Collaborators :=
  mkCollab (fun _ _ _ => Ok []) (fun _ _ _ _ => Ok []) (fun d => d)
    (fun _ _ => Ok ([[0]; [3]], None)) (fun d => d).

(** An extruded interval: one base cell, two layers of cells (three
    layers of nodes), the bilinear element on the quadrilateral column
    cell.  The element has no support dofs. *)
Definition column_mesh : MeshTopology :=
  mkMesh 2 true false 3 (fun _ => mkSection 2 [3; 3]) (fun _ => [6; 6; 6]) (fun _ => []).

Definition column_closure_dofs : dict (list Z) (dict Z (list Z)) :=
  [([1; 1], [(0, [0; 1; 2; 3])]);
   ([1; 0], [(1, [1; 3]); (0, [0; 2])]);
   ([0; 1], [(0, [0; 1]); (1, [2; 3])]);
   ([0; 0], [(0, [0]); (1, [1]); (2, [2]); (3, [3])])].

Definition column_element : FinatElement :=
  mkElement 2 4
    [([0; 0], [(0, [0]); (1, [1]); (2, [2]); (3, [3])]);
     ([0; 1], [(0, []); (1, [])]);
     ([1; 0], [(0, []); (1, [])]);
     ([1; 1], [(0, [])])]
    column_closure_dofs
    (Raise NotImplementedError).

Definition column_masks : option (dict string (option Op2.MapMask)) :=
  match get_boundary_masks column_mesh column_element with
  | Ok masks => masks
  | Raise _ => None
  end.

Definition column_data : FunctionSpaceData :=
  mkFSD (fun s => match s with
                  | CellSet => [[0; 1; 3; 4]]
                  | InteriorFacetSet => []
                  | ExteriorFacetSet => [[0; 1; 3; 4]; [0; 1; 3; 4]]
                  end)
    (Op2.ExtrudedSet (Op2.mkSet [6; 6; 6] None) 2)
    column_masks (Some [1; 1; 1; 1]) true column_mesh (mkSection 2 [3; 3]).

Definition column_space : Space :=
  mkSpace (mkFS 8 2 "Q1" "W" 1 1 None None) column_data column_element.

(** The dofs of a triangle with two dofs on an edge, listed in two
    orders; the dofs [3; 2] of the edge are not in increasing order. *)
Definition layout_a : dict Z (dict Z (list Z)) :=
  [(0, [(0, [0]); (1, [1])]); (1, [(0, [3; 2])])].

Definition layout_b : dict Z (dict Z (list Z)) :=
  [(1, [(0, [3; 2])]); (0, [(1, [1]); (0, [0])])].

(** Two constraints on the interval space, one per end point. *)
Definition interval_V : FunctionSpace := V_space interval_space.

Definition bc_left : DirichletBC := mkBC 11 (SubInt 1) "topological" [0] interval_V.
Definition bc_right : DirichletBC := mkBC 12 (SubInt 2) "topological" [3] interval_V.

Definition store_after_first : MapStore :=
  snd (get_map Np.Int32 interval_data interval_V CellSet 2 (Some [bc_left; bc_right])
         "cell_node" None None empty_store).

(** A vector space of two components on the column mesh, its first
    component, and a constraint on each. *)
Definition column_W : FunctionSpace := mkFS 9 2 "Q1 x 2" "W" 1 2 None None.
Definition column_W0 : FunctionSpace := mkFS 10 2 "Q1" "W_0" 1 1 (Some 0) (Some column_W).

Definition bc_component : DirichletBC := mkBC 21 (SubInt 1) "topological" [0; 1; 2] column_W0.
Definition bc_whole : DirichletBC := mkBC 22 (SubInt 2) "topological" [3; 5] column_W.

(** A vector space of five components on the interval, its second
    component, and a constraint on each. *)
Definition interval_V5 : FunctionSpace := mkFS 12 1 "P1 x 5" "V5" 1 5 None None.
Definition interval_V5_1 : FunctionSpace :=
  mkFS 13 1 "P1" "V5_1" 1 1 (Some 1) (Some interval_V5).

Definition bc_five : DirichletBC := mkBC 31 (SubInt 1) "topological" [0] interval_V5.
Definition bc_five_1 : DirichletBC := mkBC 32 (SubInt 2) "topological" [3] interval_V5_1.

(** A vector space of three components on the interval, and its first
    component. *)
Definition interval_V3 : FunctionSpace := mkFS 14 1 "P1 x 3" "V3" 1 3 None None.
Definition interval_V3_0 : FunctionSpace :=
  mkFS 15 1 "P1" "V3_0" 1 1 (Some 0) (Some interval_V3).

(** Three constraints on the interval with a vector space of three
    components: nodes 0 and 3 are constrained in every component, node 1
    in the first only. *)
Definition bc_ends : DirichletBC := mkBC 43 (SubInt 1) "topological" [0; 3] interval_V3.
Definition bc_inner_0 : DirichletBC := mkBC 44 (SubInt 2) "topological" [1] interval_V3_0.

(** Implicit constraints on the column: its top and its bottom. *)
Definition bc_top : DirichletBC := mkBC 51 (SubStr "top") "topological" [2; 5] column_W.
Definition bc_bottom : DirichletBC := mkBC 52 (SubStr "bottom") "geometric" [0; 3] column_W.

(** The array that [get_boundary_nodes] exchanges: 1 at the nodes found
    locally, 0 elsewhere. *)
Definition marked (total : Z) (indices : list Z) : list Z :=
  map (fun i => if decide (i ∈ indices) then 1 else 0) (Np.arange total).

(** The bits that the loop of [get_map] sets in [negids]: for every
    constraint in turn, which bit is set at which nodes.  A whole-space
    constraint among component-indexed ones sets the bit of every
    component of its space, a component-indexed one the bit of its
    component; the bit of component [c] is [nbits - c]. *)
Definition bit_settings (T : Np.IntType) (decorate : bool) (bc : DirichletBC)
  : list (list Z * Z) :=
  if is_top_bottom (bc_sub_domain bc) then []
  else
    (if decorate && bool_decide (fs_component (bc_function_space bc) = None)
     then map (fun cmp => (bc_nodes bc, Np.itemsize T * 8 - 2 - cmp))
            (range (fs_value_size (bc_function_space bc)))
     else [])
    ++ match fs_component (bc_function_space bc) with
       | Some c => [(bc_nodes bc, Np.itemsize T * 8 - 2 - c)]
       | None => []
       end.

(** Bit [i] is set at node [n] by one of the settings. *)
Definition set_by (settings : list (list Z * Z)) (n i : Z) : Prop :=
  Exists (fun s => In n (fst s) /\ i = snd s) settings.

(** Every entry of [negids] has the bits of its node and the bits set
    at its node, and no other. *)
Definition bits_ok (settings : list (list Z * Z)) (bcids negids : list Z) : Prop :=
  length negids = length bcids
  /\ forall k n e, bcids !! k = Some n -> negids !! k = Some e ->
       forall i, 0 <= i ->
         Z.testbit e i = true <-> Z.testbit n i = true \/ set_by settings n i.

(** Component [c] is constrained at node [n]: by a constraint on that
    component, or by a constraint on the whole of a space that has the
    component, when some constraint is component-indexed. *)
Definition component_constrained (lbcs : list DirichletBC) (n c : Z) : Prop :=
  exists bc,
    In bc lbcs /\ is_explicit bc = true /\ In n (bc_nodes bc)
    /\ (fs_component (bc_function_space bc) = Some c
        \/ (fs_component (bc_function_space bc) = None
            /\ decorate_of lbcs = true
            /\ 0 <= c < fs_value_size (bc_function_space bc))).

(** The column element with its support dofs given: for this element
    they are the closure dofs. *)
Definition column_element_supported : FinatElement :=
  mkElement 2 4 (el_entity_dofs column_element) column_closure_dofs
    (Ok column_closure_dofs).

(** The points of a mask in the order of the loops of
    [get_boundary_masks]: the sub-entities of every dimension but the
    cell's, dimensions and sub-entities in increasing order. *)
Definition mask_points (dim : Z) (d : dict (list Z) (dict Z (list Z)))
  : list (list Z * Z) :=
  concat
    (map (fun ent =>
            if sumZ ent =? dim then []
            else map (pair ent) (sorted_by Z.leb (keys (item_of [] d ent))))
       (sorted_by tuple_leb (keys d))).

(** The dofs that [d] gives the sub-entity [p]. *)
Definition dofs_at (d : dict (list Z) (dict Z (list Z))) (p : list Z * Z) : list Z :=
  item_of [] (item_of [] d (fst p)) (snd p).

(** [esd] has every sub-entity of [ecd]. *)
Definition covers (ecd esd : dict (list Z) (dict Z (list Z))) : bool :=
  forallb (fun ent =>
             bool_decide (ent ∈ keys esd)
             && forallb (fun key => bool_decide (key ∈ keys (item_of [] esd ent)))
                  (keys (item_of [] ecd ent)))
    (keys ecd).

(** Reading the mask at each point gives the dofs of that point in
    increasing order: [indices[offset(p) : offset(p) + dof(p)]]. *)
Definition reads_back (M : Op2.MapMask) (pts : list (list Z * Z))
    (d : dict (list Z) (dict Z (list Z))) : Prop :=
  forall k p, pts !! k = Some p ->
    Np.slice (Op2.mask_indices M)
      (getOffset (Op2.mask_section M) (Z.of_nat k))
      (getOffset (Op2.mask_section M) (Z.of_nat k)
       + getDof (Op2.mask_section M) (Z.of_nat k))
    = sorted_by Z.leb (dofs_at d p).

(** The state of the loops of [get_boundary_masks] after the points
    [pts]. *)
Definition mask_state (dim : Z) (ecd : dict (list Z) (dict Z (list Z)))
    (esd : option (dict (list Z) (dict Z (list Z)))) (pts : list (list Z * Z))
    (s : MaskLoop) : Prop :=
  sec_dofs (closure_section s) = map (fun p => Z.of_nat (length (dofs_at ecd p))) pts
  /\ closure_indices s = concat (map (fun p => sorted_by Z.leb (dofs_at ecd p)) pts)
  /\ match esd with
     | Some esd =>
         sec_dofs (support_section s)
         = map (fun p => Z.of_nat (length (dofs_at esd p))) pts
         /\ support_indices s
            = concat (map (fun p => sorted_by Z.leb (dofs_at esd p)) pts)
     | None => sec_dofs (support_section s) = [] /\ support_indices s = []
     end
  /\ facet_points s = Np.where_eq (map (fun p => sumZ (fst p)) pts) (dim - 1)
  /\ loop_p s = Z.of_nat (length pts).

(** The mesh only grows: the objects stay at their addresses and the
    cached entries stay cached. *)
Definition extends (m m' : MeshState) : Prop :=
  (exists added, objects m' = objects m ++ added)
  /\ forall k v, getitem (shared_data_cache m) k = Ok v ->
                 getitem (shared_data_cache m') k = Ok v.

(** Code that only lets the mesh grow. *)
Definition grows {A : Type} (f : Build A) : Prop :=
  forall m r m', f m = (r, m') -> extends m m'.

(** The methods of the interval mesh: a node per vertex, the cells see
    their two vertices, no offsets. *)
Definition interval_methods : MeshMethods :=
  mkMethods (fun _ => [1; 0])
    (fun _ _ _ => [[0; 1]; [1; 2]; [2; 3]])
    (fun _ kind _ => if bool_decide (kind = "exterior_facets"%string)
                     then [[0]; [3]] else [[1]; [2]])
    (fun _ _ => None)
    (fun _ => 2).

(** The linear element on the interval with its dictionaries built in
    another order. *)
Definition interval_element_reordered : FinatElement :=
  mkElement 1 2
    [([1], [(0, [])]); ([0], [(1, [1]); (0, [0])])]
    [([1], [(0, [0; 1])]); ([0], [(1, [1]); (0, [0])])]
    (Raise NotImplementedError).

(** The interval mesh after the data of the linear element was built
    on it. *)
Definition interval_mesh_state : MeshState :=
  snd (FunctionSpaceData_init Np.Int32 interval_mesh interval_methods interval_element
         (mkMeshState [] [])).

(** The dictionaries of map caches that are cached on the mesh are
    objects of the heap, one for each key. *)
Definition map_caches_distinct (m : MeshState) : Prop :=
  forall k r,
    getitem (shared_data_cache m) ("get_map_caches"%string, k) = Ok r ->
    exists a,
      r = At a /\ (a < length (objects m))%nat
      /\ forall k', getitem (shared_data_cache m) ("get_map_caches"%string, k') = Ok r ->
                    k' = k.

(** Code that leaves the entries of the function [fname] alone. *)
Definition keeps {A : Type} (fname : string) (f : Build A) : Prop :=
  forall m r m' key,
    f m = (r, m') ->
    getitem (shared_data_cache m') (fname, key) = getitem (shared_data_cache m) (fname, key).

(** A quadratic element on the interval: a node per vertex as for the
    linear element, and other entity dofs. *)
Definition interval_element_other : FinatElement :=
  mkElement 1 3
    [([0], [(0, [0]); (1, [1])]); ([1], [(0, [2])])]
    [([0], [(0, [0]); (1, [1])]); ([1], [(0, [0; 1; 2])])]
    (Raise NotImplementedError).




(** The cell nodes at the dofs [sel] of every cell, each moved up by
    [shift] of its dof, in exact arithmetic. *)
Definition facet_nodes (cell_node_list : list (list Z)) (sel : list Z) (shift : Z -> Z)
  : list Z :=
  concat
    (map (fun row => map (fun j => default 0 (row !! Z.to_nat j) + shift j) sel)
       cell_node_list).

(** The map at an address was built with [vector_index=True]. *)
Definition vector_indexed (st : MapStore) (a : nat) : bool :=
  match heap st !! a with
  | Some (DecoratedMap _ vector_index _) => vector_index
  | _ => false
  end.

(** Every cached map carries [vector_index=True] exactly when one of
    the constraints of its key is component-indexed. *)
Definition cache_decorated (st : MapStore) : Prop :=
  forall entity_set lbcs a,
    getitem (map_caches st) (entity_set, lbcs) = Ok a ->
    (a < length (heap st))%nat /\ vector_indexed st a = decorate_of lbcs.

(** The dictionary has every key once, and the sub-entities of every
    entity are numbered from 0, as FInAT numbers them. *)
Definition well_numbered {K : Type} `{EqDecision K} (d : dict K (dict Z (list Z))) : bool :=
  bool_decide (NoDup (keys d))
  && forallb (fun sub : dict Z (list Z) =>
                bool_decide (sorted_by Z.leb (keys sub) = range (Z.of_nat (length sub))))
       (values d).

(** An interval mesh with variable layers, whose boundary nodes the
    extruded numbering finds in the order of its traversal. *)
Definition variable_mesh : MeshTopology :=
  mkMesh 3 true true 3 (fun _ => mkSection 4 [1; 1; 1; 1]) (fun _ => [4; 4; 4])
    (fun _ => []).

Definition variable_collaborators : Collaborators :=
  mkCollab (fun _ _ _ => Ok [3; 0; 3]) (fun _ _ _ _ => Ok []) (fun d => d)
    (fun _ _ => Raise NotImplementedError) (fun d => d).

(** The methods of the mesh at the limit. *)
Definition limit_methods : MeshMethods :=
  mkMethods (fun _ => [1]) (fun _ _ _ => []) (fun _ _ _ => []) (fun _ _ => None)
    (fun _ => 0).

(** * Properties *)

(** ** Work functions *)

Lemma get_set_same (V V' : FunctionSpace) (val : Z) (w : WorkLimits) :
  same_limit_key V V' ->
  get_max_work_functions V' (set_max_work_functions V val w) = val.
Proof.
  intros [Hm Hu]. unfold get_max_work_functions, set_max_work_functions.
  rewrite Hm, Hu, lookup_insert_eq. simpl. by rewrite lookup_insert_eq.
Qed.

Lemma get_set_other (V V' : FunctionSpace) (val : Z) (w : WorkLimits) :
  ~ same_limit_key V V' ->
  get_max_work_functions V' (set_max_work_functions V val w)
  = get_max_work_functions V' w.
Proof.
  intros Hne. unfold get_max_work_functions, set_max_work_functions.
  destruct (decide (fs_mesh V = fs_mesh V')) as [Hm | Hm].
  - rewrite Hm, lookup_insert_eq. simpl.
    rewrite lookup_insert_ne; [reflexivity |].
    intros Hu. apply Hne. split; congruence.
  - by rewrite lookup_insert_ne.
Qed.

Lemma get_unset (V : FunctionSpace) (sets : list (FunctionSpace * Z)) (w : WorkLimits) :
  Forall (fun s => ~ same_limit_key (fst s) V) sets ->
  get_max_work_functions V (set_all sets w) = get_max_work_functions V w.
Proof.
  revert w. induction sets as [| s sets IH]; intros w Hall; [reflexivity |].
  inversion Hall as [| ? ? Hs Hrest]; subst. simpl.
  unfold set_all in IH. rewrite IH by assumption. by apply get_set_other.
Qed.

(** C10: after the limit is set for a function space, any function
    space with the same mesh and an equal UFL element reads the value
    that was set; and a function space for whose key no limit was ever
    set, whatever was set for other keys, reads the default 25. *)
Theorem max_work_functions_round_trip (V : FunctionSpace) :
  (forall (V' : FunctionSpace) (val : Z) (w : WorkLimits),
      fs_mesh V' = fs_mesh V -> fs_ufl_element V' = fs_ufl_element V ->
      get_max_work_functions V' (set_max_work_functions V val w) = val)
  /\ (forall sets : list (FunctionSpace * Z),
         Forall (fun s => ~ same_limit_key (fst s) V) sets ->
         get_max_work_functions V (set_all sets ∅) = 25).
Proof.
  split.
  - intros V' val w Hm Hu. apply get_set_same. by split.
  - intros sets Hall. rewrite get_unset by assumption. reflexivity.
Qed.

(** ** The node set and its size limit *)

Lemma getitem_raise_KeyError {K V : Type} `{EqDecision K} (d : dict K V) (k : K) (e : exn) :
  getitem d k = Raise e -> e = KeyError.
Proof.
  induction d as [| [k' v] d IH]; simpl; [congruence |].
  destruct (decide (k' = k)); [congruence | exact IH].
Qed.

Lemma cached_numbering (mesh : MeshTopology) (cache : dict (list Z) PetscSection)
    (npe : list Z) :
  fst (cached (get_global_numbering mesh) npe cache) = Ok (numbering_of mesh cache npe).
Proof.
  unfold cached, numbering_of, get_global_numbering.
  destruct (getitem cache npe) as [s | e] eqn:Hget; [reflexivity |].
  apply getitem_raise_KeyError in Hget. subst e. reflexivity.
Qed.

Lemma shiftl_1_limit (T : Np.IntType) :
  Z.shiftl 1 (Np.itemsize T * 8 - 4) = 2 ^ (Np.bits T - 4).
Proof. destruct T; reflexivity. Qed.

Lemma total_size_node_set (mesh : MeshTopology) (npe : list Z) :
  Op2.total_size
    (if cell_set_extruded mesh
     then Op2.ExtrudedSet (Op2.mkSet (node_classes mesh npe) None) 2
     else Op2.mkSet (node_classes mesh npe) None)
  = local_node_count mesh npe.
Proof. destruct (cell_set_extruded mesh); reflexivity. Qed.

(** C5, as the code has it: building the node set raises the
    [RuntimeError] of the size limit exactly when the assertion on the
    storage size holds, the mesh is not extruded and the local node
    count is at least [2^(indexBits-4)]; the limit itself is refused. *)
Theorem get_node_set_limit (T : Np.IntType) (mesh : MeshTopology)
    (numbering_cache : dict (list Z) PetscSection) (nodes_per_entity : list Z) :
  get_node_set T mesh numbering_cache nodes_per_entity = Raise RuntimeError
  <-> getStorageSize (numbering_of mesh numbering_cache nodes_per_entity)
      = local_node_count mesh nodes_per_entity
      /\ cell_set_extruded mesh = false
      /\ 2 ^ (Np.bits T - 4) <= local_node_count mesh nodes_per_entity.
Proof.
  unfold get_node_set. rewrite cached_numbering. simpl.
  rewrite total_size_node_set, shiftl_1_limit.
  set (gn := numbering_of mesh numbering_cache nodes_per_entity).
  set (n := local_node_count mesh nodes_per_entity).
  case_bool_decide as Hsz; simpl.
  - destruct (cell_set_extruded mesh) eqn:Hext; simpl.
    + split; [congruence | intros (_ & ? & _); congruence].
    + destruct (Z.leb_spec (2 ^ (Np.bits T - 4)) n); split; try congruence; try tauto.
      intros (_ & _ & ?). lia.
  - split; [congruence | intros (? & _); contradiction].
Qed.

(** C5 as stated fails: with 32-bit indices a mesh that is not extruded
    and has exactly [2^28] local nodes, which does not exceed [2^28], is
    refused. *)
Lemma get_node_set_limit_not_strict :
  ~ (get_node_set Np.Int32 mesh_at_limit [] [1] = Raise RuntimeError
     <-> cell_set_extruded mesh_at_limit = false
         /\ 2 ^ (Np.bits Np.Int32 - 4) < local_node_count mesh_at_limit [1]).
Proof.
  intros [H _].
  assert (Hr : get_node_set Np.Int32 mesh_at_limit [] [1] = Raise RuntimeError)
    by (vm_compute; reflexivity).
  destruct (H Hr) as [_ Hlt]. vm_compute in Hlt. discriminate.
Qed.

(** ** Boundary nodes on the whole boundary *)

Lemma local_boundary_indices_on_boundary (T : Np.IntType) (env : Collaborators)
    (mesh : MeshTopology) (method : string) (V : Space) :
  variable_layers mesh = false ->
  local_boundary_indices T env mesh on_boundary method V
  = match exterior_facet_boundary_node_map env V method with
    | Ok _ => Ok None
    | Raise e => Raise e
    end.
Proof.
  intros Hvl. unfold local_boundary_indices. rewrite Hvl.
  destruct (exterior_facet_boundary_node_map env V method); reflexivity.
Qed.

(** On a mesh without variable layers, [get_boundary_nodes] for
    ["on_boundary"] never returns: no assignment to [indices] is
    executed before it is read. *)
Lemma get_boundary_nodes_on_boundary (T : Np.IntType) (env : Collaborators)
    (mesh : MeshTopology) (edk : list (list Z * list (list Z))) (method : string)
    (V : Space) :
  variable_layers mesh = false ->
  get_boundary_nodes T env mesh (edk, on_boundary, method) V
  = match exterior_facet_boundary_node_map env V method with
    | Ok _ => Raise UnboundLocalError
    | Raise e => Raise e
    end.
Proof.
  intros Hvl. unfold get_boundary_nodes.
  rewrite local_boundary_indices_on_boundary by assumption.
  destruct (exterior_facet_boundary_node_map env V method); reflexivity.
Qed.

(** C3 fails on the code: on the interval mesh,
    [boundary_nodes(V, "on_boundary", "topological")] raises
    [UnboundLocalError] instead of returning the two end points, and
    caches nothing. *)
Theorem boundary_nodes_on_boundary_unbound :
  boundary_nodes Np.Int32 interval_collaborators interval_mesh interval_space
    on_boundary "topological" (mkBCaches [] [])
  = (Raise UnboundLocalError, mkBCaches [] []).
Proof. vm_compute. reflexivity. Qed.

(** With a facet tag the same space is resolved: the branch that
    assigns [indices] is taken. *)
Example boundary_nodes_tagged :
  fst (boundary_nodes Np.Int32 interval_collaborators interval_mesh interval_space
         (SubInt 1) "topological" (mkBCaches [] []))
  = Ok [0; 3].
Proof. vm_compute. reflexivity. Qed.

(** ** Loops, dictionaries and sorting *)

Lemma for_each_invariant {A S : Type} (P : S -> Prop) (body : A -> S -> result S)
    (l : list A) (s : S) :
  (forall x s, In x l -> P s -> exists s', body x s = Ok s' /\ P s') ->
  P s ->
  exists s', for_each body l s = Ok s' /\ P s'.
Proof.
  revert s. induction l as [| x l IH]; intros s Hbody Hs; simpl.
  - eauto.
  - destruct (Hbody x s) as (s1 & Hx & Hs1); [by left | assumption |].
    rewrite Hx. simpl. apply IH; [| assumption].
    intros y s2 Hy. apply Hbody. by right.
Qed.

Lemma getitem_In_keys {K V : Type} `{EqDecision K} (d : dict K V) (k : K) :
  In k (keys d) -> exists v, getitem d k = Ok v /\ In (k, v) d.
Proof.
  induction d as [| [k' v] d IH]; simpl; [tauto |].
  intros Hin. destruct (decide (k' = k)) as [-> | Hne].
  - exists v. split; [reflexivity | by left].
  - destruct Hin as [? | Hin]; [contradiction |].
    destruct (IH Hin) as (v' & Hget & Hv'). exists v'. split; [assumption | by right].
Qed.

Lemma getitem_Ok_In {K V : Type} `{EqDecision K} (d : dict K V) (k : K) (v : V) :
  getitem d k = Ok v -> In (k, v) d.
Proof.
  induction d as [| [k' v'] d IH]; simpl; [congruence |].
  destruct (decide (k' = k)) as [-> | Hne].
  - intros [= ->]. by left.
  - intros Hget. right. by apply IH.
Qed.

Section SortedBy.
Context {A : Type} (leb : A -> A -> bool).

Lemma insert_by_perm (x : A) (l : list A) : Permutation (insert_by leb x l) (x :: l).
Proof.
  induction l as [| y l IH]; simpl; [reflexivity |].
  destruct (leb x y); [reflexivity |].
  rewrite IH. apply perm_swap.
Qed.

Lemma sorted_by_perm (l : list A) : Permutation (sorted_by leb l) l.
Proof.
  induction l as [| x l IH]; simpl; [reflexivity |].
  rewrite insert_by_perm. by constructor.
Qed.

Lemma sorted_by_In (l : list A) (x : A) : In x (sorted_by leb l) <-> In x l.
Proof.
  split; apply Permutation_in; [| symmetry]; apply sorted_by_perm.
Qed.

End SortedBy.

(** ** Boundary masks when the support dofs are not implemented *)

Lemma mask_loop_body_no_support (dim : Z) (ecd : dict (list Z) (dict Z (list Z)))
    (ent : list Z) (sub : dict Z (list Z)) (key : Z) (s0 s : MaskLoop) :
  getitem ecd ent = Ok sub -> In key (keys sub) -> support_untouched s0 s ->
  exists s', mask_loop_body dim ecd None ent key s = Ok s' /\ support_untouched s0 s'.
Proof.
  intros Hent Hkey [Hsec Hidx]. unfold mask_loop_body. rewrite Hent. simpl.
  destruct (getitem_In_keys sub key Hkey) as (closure & -> & _). simpl.
  eexists. split; [reflexivity |]. by split.
Qed.

Lemma mask_loop_ent_no_support (dim : Z) (ecd : dict (list Z) (dict Z (list Z)))
    (ent : list Z) (s0 s : MaskLoop) :
  In ent (keys ecd) -> support_untouched s0 s ->
  exists s', mask_loop_ent dim ecd None ent s = Ok s' /\ support_untouched s0 s'.
Proof.
  intros Hent Hs. unfold mask_loop_ent.
  destruct (sumZ ent =? dim); [eauto |].
  destruct (getitem_In_keys ecd ent Hent) as (sub & Hsub & _). rewrite Hsub. simpl.
  apply for_each_invariant; [| assumption].
  intros key s1 Hkey Hs1. apply sorted_by_In in Hkey.
  by apply mask_loop_body_no_support with (sub := sub).
Qed.

(** C8, as the code has it: on an extruded mesh whose element raises
    [NotImplementedError] for the support dofs, [get_boundary_masks]
    returns the dictionary with both methods; the topological mask is
    built, and the geometric mask is present too, with the same facet
    points, a section in which no point has dofs and no indices. *)
Theorem boundary_masks_without_support_dofs (mesh : MeshTopology)
    (finat_element : FinatElement) :
  cell_set_extruded mesh = true ->
  el_entity_support_dofs finat_element = Raise NotImplementedError ->
  exists closure_section closure_indices facet_points,
    get_boundary_masks mesh finat_element
    = Ok (Some
            [("topological"%string,
               Some (Op2.mkMapMask closure_section closure_indices facet_points));
             ("geometric"%string,
               Some (Op2.mkMapMask (mkSection (mask_chart finat_element) []) []
                       facet_points))]).
Proof.
  intros Hext Hesd. unfold get_boundary_masks. rewrite Hext, Hesd. simpl.
  set (init := mkMaskLoop _ _ _ _ _ _).
  destruct (for_each_invariant (support_untouched init)
              (mask_loop_ent (el_spatial_dimension finat_element)
                 (el_entity_closure_dofs finat_element) None)
              (sorted_by tuple_leb (keys (el_entity_closure_dofs finat_element))) init)
    as (s & Hs & Hsec & Hidx).
  - intros ent s1 Hent Hs1. apply sorted_by_In in Hent.
    by apply mask_loop_ent_no_support.
  - by split.
  - rewrite Hs. simpl. rewrite Hsec, Hidx. simpl.
    exists (closure_section s), (closure_indices s), (facet_points s). reflexivity.
Qed.

Example column_masks_value :
  column_masks
  = Some [("topological"%string,
            Some (Op2.mkMapMask (mkSection 8 [1; 1; 1; 1; 2; 2; 2; 2])
                    [0; 1; 2; 3; 0; 1; 2; 3; 0; 2; 1; 3] [4; 5; 6; 7]));
          ("geometric"%string,
            Some (Op2.mkMapMask (mkSection 8 []) [] [4; 5; 6; 7]))].
Proof. vm_compute. reflexivity. Qed.

Lemma boundary_masks_without_support_dofs_witness :
  exists closure_section closure_indices facet_points,
    get_boundary_masks column_mesh column_element
    = Ok (Some
            [("topological"%string,
               Some (Op2.mkMapMask closure_section closure_indices facet_points));
             ("geometric"%string,
               Some (Op2.mkMapMask (mkSection (mask_chart column_element) []) []
                       facet_points))]).
Proof.
  apply (boundary_masks_without_support_dofs column_mesh column_element);
    reflexivity.
Defined.

(** C8 as stated fails: for the column element, whose support dofs are
    not implemented, the entry of the geometric method is neither [None]
    nor missing from the dictionary. *)
Lemma geometric_mask_not_absent :
  ~ (exists masks,
        get_boundary_masks column_mesh column_element = Ok (Some masks)
        /\ (getitem masks "geometric"%string = Ok None
            \/ getitem masks "geometric"%string = Raise KeyError)).
Proof.
  intros (masks & Hmasks & Habsent).
  vm_compute in Hmasks. injection Hmasks as <-.
  vm_compute in Habsent. destruct Habsent; discriminate.
Qed.

(** The caller in this module reads the degraded mask as it reads any
    other: the top nodes by the topological method, and no node at all
    by the geometric method. *)
Example column_top_topological :
  get_top_bottom_boundary_nodes Np.Int32 interval_collaborators column_mesh
    ([], SubStr "top", "topological"%string) column_space
  = Ok [2; 5].
Proof. vm_compute. reflexivity. Qed.

Example column_top_geometric :
  get_top_bottom_boundary_nodes Np.Int32 interval_collaborators column_mesh
    ([], SubStr "top", "geometric"%string) column_space
  = Ok [].
Proof. vm_compute. reflexivity. Qed.

(** ** Sorting gives a canonical order *)

Section SortedCanonical.
Context {A : Type} (leb : A -> A -> bool).
Hypothesis leb_total : forall x y, leb x y = true \/ leb y x = true.
Hypothesis leb_trans : forall x y z, leb x y = true -> leb y z = true -> leb x z = true.

Let R (x y : A) : Prop := leb x y = true.

Lemma insert_by_sorted (x : A) (l : list A) :
  StronglySorted R l -> StronglySorted R (insert_by leb x l).
Proof.
  induction 1 as [| y l Hl IH Hy]; simpl.
  - repeat constructor.
  - destruct (leb x y) eqn:Hxy.
    + constructor; [by constructor |].
      constructor; [exact Hxy |].
      eapply Forall_impl; [exact Hy |]. intros z Hz. by apply leb_trans with y.
    + constructor; [exact IH |].
      apply Forall_forall. intros z Hz.
      apply list_elem_of_In, (Permutation_in _ (insert_by_perm leb x l)) in Hz.
      destruct Hz as [<- | Hz].
      * destruct (leb_total x y) as [H | H]; [congruence | exact H].
      * rewrite Forall_forall in Hy. apply Hy. by apply list_elem_of_In.
Qed.

Lemma sorted_by_sorted (l : list A) : StronglySorted R (sorted_by leb l).
Proof.
  induction l as [| x l IH]; simpl; [constructor | by apply insert_by_sorted].
Qed.

(** Two lists with the same elements are sorted to the same list, as
    soon as the order tells the elements apart. *)
Lemma sorted_by_canonical (l1 l2 : list A) :
  (forall x y, In x l1 -> In y l1 -> leb x y = true -> leb y x = true -> x = y) ->
  Permutation l1 l2 ->
  sorted_by leb l1 = sorted_by leb l2.
Proof.
  intros Hanti Hperm.
  apply (StronglySorted_unique_strong R); try apply sorted_by_sorted.
  - intros x y Hx Hy. apply Hanti.
    + by apply (sorted_by_In leb), list_elem_of_In.
    + apply (Permutation_in _ (Permutation_sym Hperm)).
      by apply (sorted_by_In leb), list_elem_of_In.
  - rewrite !sorted_by_perm. exact Hperm.
Qed.

End SortedCanonical.

Lemma Z_leb_total (x y : Z) : (x <=? y) = true \/ (y <=? x) = true.
Proof. lia. Qed.

Lemma Z_leb_trans (x y z : Z) : (x <=? y) = true -> (y <=? z) = true -> (x <=? z) = true.
Proof. lia. Qed.

Lemma Z_leb_antisym (x y : Z) : (x <=? y) = true -> (y <=? x) = true -> x = y.
Proof. lia. Qed.

Lemma tuple_leb_total (a b : list Z) : tuple_leb a b = true \/ tuple_leb b a = true.
Proof.
  revert b. induction a as [| x a IH]; intros [| y b]; simpl; auto.
  destruct (Z.ltb_spec x y), (Z.ltb_spec y x); auto; lia.
Qed.

Lemma tuple_leb_antisym (a b : list Z) :
  tuple_leb a b = true -> tuple_leb b a = true -> a = b.
Proof.
  revert b. induction a as [| x a IH]; intros [| y b]; simpl; try congruence.
  destruct (Z.ltb_spec x y), (Z.ltb_spec y x); try congruence; try lia.
  intros Hab Hba. f_equal; [lia | by apply IH].
Qed.

Lemma tuple_leb_trans (a b c : list Z) :
  tuple_leb a b = true -> tuple_leb b c = true -> tuple_leb a c = true.
Proof.
  revert b c. induction a as [| x a IH]; intros [| y b] [| z c]; simpl; try congruence.
  destruct (Z.ltb_spec x y), (Z.ltb_spec y x), (Z.ltb_spec y z), (Z.ltb_spec z y),
    (Z.ltb_spec x z), (Z.ltb_spec z x); try congruence; try lia.
  apply IH.
Qed.

(** ** The canonical key does not depend on the iteration order *)

Lemma mapM_ext_In {A B : Type} (f g : A -> result B) (l : list A) :
  (forall x, In x l -> f x = g x) -> mapM f l = mapM g l.
Proof.
  induction l as [| x l IH]; intros Hext; simpl; [reflexivity |].
  rewrite (Hext x) by (by left). rewrite IH; [reflexivity |].
  intros y Hy. apply Hext. by right.
Qed.

Lemma mapM_Ok {A B : Type} (f : A -> result B) (g : A -> B) (l : list A) :
  (forall x, In x l -> f x = Ok (g x)) -> mapM f l = Ok (map g l).
Proof.
  induction l as [| x l IH]; intros Hok; simpl; [reflexivity |].
  rewrite (Hok x) by (by left). rewrite IH; [reflexivity |].
  intros y Hy. apply Hok. by right.
Qed.

Lemma getitem_item_of {K V : Type} `{EqDecision K} (dflt : V) (d : dict K V) (k : K) :
  In k (keys d) -> getitem d k = Ok (item_of dflt d k).
Proof.
  intros Hk. unfold item_of.
  destruct (getitem_In_keys d k Hk) as (v & -> & _). reflexivity.
Qed.

Lemma getitem_Ok_keys {K V : Type} `{EqDecision K} (d : dict K V) (k : K) (v : V) :
  getitem d k = Ok v -> In k (keys d).
Proof.
  intros Hget. apply getitem_Ok_In in Hget.
  unfold keys. apply in_map_iff. by exists (k, v).
Qed.

Lemma same_items_keys {K V : Type} `{EqDecision K} (R : V -> V -> Prop)
    (d1 d2 : dict K V) :
  same_items R d1 d2 -> Permutation (keys d1) (keys d2).
Proof.
  intros (Hd1 & Hd2 & Hsame). apply NoDup_Permutation; try assumption.
  intros k. specialize (Hsame k). rewrite !list_elem_of_In. split; intros Hk.
  - destruct (getitem_In_keys _ _ Hk) as (v & Hv & _). rewrite Hv in Hsame.
    destruct (getitem d2 k) eqn:H2; [| contradiction]. by eapply getitem_Ok_keys.
  - destruct (getitem_In_keys _ _ Hk) as (v & Hv & _). rewrite Hv in Hsame.
    destruct (getitem d1 k) eqn:H1; [| contradiction]. by eapply getitem_Ok_keys.
Qed.

Lemma entity_dofs_sub_key_value (sub : dict Z (list Z)) :
  entity_dofs_sub_key sub
  = Ok (map (item_of [] sub) (sorted_by Z.leb (keys sub))).
Proof.
  unfold entity_dofs_sub_key. apply mapM_Ok.
  intros sk Hsk. apply getitem_item_of. by apply (sorted_by_In Z.leb).
Qed.

Lemma entity_dofs_sub_key_same (s1 s2 : dict Z (list Z)) :
  same_items eq s1 s2 -> entity_dofs_sub_key s1 = entity_dofs_sub_key s2.
Proof.
  intros Hsame. pose proof (same_items_keys _ _ _ Hsame) as Hperm.
  rewrite !entity_dofs_sub_key_value. f_equal.
  rewrite <- (sorted_by_canonical Z.leb Z_leb_total Z_leb_trans _ _
                (fun x y _ _ => Z_leb_antisym x y) Hperm).
  apply map_ext_in. intros sk Hsk. apply -> (sorted_by_In Z.leb) in Hsk.
  destruct Hsame as (_ & _ & Hsame). specialize (Hsame sk). unfold item_of.
  destruct (getitem_In_keys _ _ Hsk) as (v & Hv & _). rewrite Hv in *.
  destruct (getitem s2 sk); [congruence | contradiction].
Qed.

Section KeyCanonical.
Context {K : Type} `{EqDecision K} (leb : K -> K -> bool).
Hypothesis leb_total : forall x y, leb x y = true \/ leb y x = true.
Hypothesis leb_trans : forall x y z, leb x y = true -> leb y z = true -> leb x z = true.
Hypothesis leb_antisym : forall x y, leb x y = true -> leb y x = true -> x = y.

(** What [entity_dofs_key] computes: for the entity keys in increasing
    order, the dof tuples of the sub-entities in increasing order, each
    tuple as it is in the dictionary. *)
Lemma entity_dofs_key_value (d : dict K (dict Z (list Z))) :
  entity_dofs_key leb d
  = Ok (map (fun k => (k, map (item_of [] (item_of [] d k))
                            (sorted_by Z.leb (keys (item_of [] d k)))))
          (sorted_by leb (keys d))).
Proof.
  unfold entity_dofs_key. apply mapM_Ok.
  intros k Hk. apply -> (sorted_by_In leb) in Hk.
  rewrite (getitem_item_of [] d k Hk). simpl.
  rewrite entity_dofs_sub_key_value. reflexivity.
Qed.

Lemma entity_dofs_key_same (d1 d2 : dict K (dict Z (list Z))) :
  same_layout d1 d2 -> entity_dofs_key leb d1 = entity_dofs_key leb d2.
Proof.
  intros Hsame. pose proof (same_items_keys _ _ _ Hsame) as Hperm.
  unfold entity_dofs_key.
  rewrite <- (sorted_by_canonical leb leb_total leb_trans _ _
                (fun x y _ _ => leb_antisym x y) Hperm).
  apply mapM_ext_In. intros k Hk. apply -> (sorted_by_In leb) in Hk.
  destruct Hsame as (_ & _ & Hsame). specialize (Hsame k).
  destruct (getitem_In_keys _ _ Hk) as (s1 & Hs1 & _). rewrite Hs1 in *.
  destruct (getitem d2 k) as [s2 |]; [| contradiction]. simpl.
  by rewrite (entity_dofs_sub_key_same s1 s2).
Qed.

End KeyCanonical.

(** On a tensor-product cell, whose keys are tuples, the keys of two
    orderings of one layout agree. *)
Lemma entity_dofs_key_tuples (d1 d2 : dict (list Z) (dict Z (list Z))) :
  same_layout d1 d2 -> entity_dofs_key tuple_leb d1 = entity_dofs_key tuple_leb d2.
Proof.
  apply entity_dofs_key_same;
    [apply tuple_leb_total | apply tuple_leb_trans | apply tuple_leb_antisym].
Qed.

(** C7: [entity_dofs_key] is a function of the mapping alone: two
    [entity_dofs] dictionaries that hold the same dof tuples under the
    same entity and sub-entity keys, in whatever order they iterate, get
    the same key; and every dof tuple is in its entity's row of the key
    as it is in the dictionary, in the order of its indices. *)
Theorem entity_dofs_key_canonical {K : Type} `{EqDecision K} (leb : K -> K -> bool)
    (d1 d2 : dict K (dict Z (list Z))) :
  (forall x y, leb x y = true \/ leb y x = true) ->
  (forall x y z, leb x y = true -> leb y z = true -> leb x z = true) ->
  (forall x y, leb x y = true -> leb y x = true -> x = y) ->
  same_layout d1 d2 ->
  exists key,
    entity_dofs_key leb d1 = Ok key
    /\ entity_dofs_key leb d2 = Ok key
    /\ forall k sub sk dofs,
         getitem d1 k = Ok sub -> getitem sub sk = Ok dofs ->
         exists row, In (k, row) key /\ In dofs row.
Proof.
  intros Htotal Htrans Hanti Hsame.
  eexists. split; [apply entity_dofs_key_value |]. split.
  - rewrite <- (entity_dofs_key_same leb Htotal Htrans Hanti d1 d2 Hsame).
    apply entity_dofs_key_value.
  - intros k sub sk dofs Hsub Hdofs.
    exists (map (item_of [] sub) (sorted_by Z.leb (keys sub))). split.
    + apply in_map_iff. exists k. split.
      * assert (Hi : item_of [] d1 k = sub) by (unfold item_of; by rewrite Hsub).
        by rewrite Hi.
      * apply (sorted_by_In leb). by eapply getitem_Ok_keys.
    + apply in_map_iff. exists sk. split.
      * unfold item_of. rewrite Hdofs. reflexivity.
      * apply (sorted_by_In Z.leb). by eapply getitem_Ok_keys.
Qed.

Example layout_a_key : entity_dofs_key Z.leb layout_a = Ok [(0, [[0]; [1]]); (1, [[3; 2]])].
Proof. reflexivity. Qed.

Example layout_b_key : entity_dofs_key Z.leb layout_b = Ok [(0, [[0]; [1]]); (1, [[3; 2]])].
Proof. reflexivity. Qed.

Lemma same_layout_a_b : same_layout layout_a layout_b.
Proof.
  assert (Hsub0 : same_items eq [(0, [0]); (1, [1])] [(1, [1]); (0, [0])]).
  { split; [| split].
    - unfold is_dict. simpl. apply NoDup_ListNoDup. repeat constructor; simpl; lia.
    - unfold is_dict. simpl. apply NoDup_ListNoDup. repeat constructor; simpl; lia.
    - intros k. simpl. repeat case_decide; subst; try lia; try reflexivity; exact I. }
  assert (Hsub1 : same_items eq [(0, [3; 2])] [(0, [3; 2])]).
  { split; [| split].
    - unfold is_dict. simpl. apply NoDup_ListNoDup. repeat constructor; simpl; lia.
    - unfold is_dict. simpl. apply NoDup_ListNoDup. repeat constructor; simpl; lia.
    - intros k. simpl. repeat case_decide; subst; try lia; try reflexivity; exact I. }
  split; [| split].
  - unfold is_dict. simpl. apply NoDup_ListNoDup. repeat constructor; simpl; lia.
  - unfold is_dict. simpl. apply NoDup_ListNoDup. repeat constructor; simpl; lia.
  - intros k. simpl. repeat case_decide; subst; try lia; try assumption; exact I.
Qed.

Lemma entity_dofs_key_canonical_witness :
  exists key,
    entity_dofs_key Z.leb layout_a = Ok key
    /\ entity_dofs_key Z.leb layout_b = Ok key
    /\ forall k sub sk dofs,
         getitem layout_a k = Ok sub -> getitem sub sk = Ok dofs ->
         exists row, In (k, row) key /\ In dofs row.
Proof.
  apply (entity_dofs_key_canonical Z.leb layout_a layout_b).
  - intros x y. lia.
  - intros x y z. lia.
  - intros x y. lia.
  - exact same_layout_a_b.
Defined.

Lemma max_work_functions_round_trip_witness :
  get_max_work_functions (mkFS 3 1 "P1" "U" 1 1 None None)
    (set_max_work_functions (mkFS 7 1 "P1" "V" 1 1 None None) 40 ∅) = 40.
Proof.
  apply (max_work_functions_round_trip (mkFS 7 1 "P1" "V" 1 1 None None)); reflexivity.
Defined.

(** ** The cache of maps *)

Lemma getitem_setitem_eq {K V : Type} `{EqDecision K} (d : dict K V) (k : K) (v : V) :
  getitem (setitem d k v) k = Ok v.
Proof.
  induction d as [| [k' v'] d IH]; simpl.
  - by rewrite decide_True.
  - destruct (decide (k' = k)) as [-> | Hne]; simpl.
    + by rewrite decide_True.
    + by rewrite decide_False.
Qed.

Lemma getitem_setitem_ne {K V : Type} `{EqDecision K} (d : dict K V) (k k' : K) (v : V) :
  k <> k' -> getitem (setitem d k v) k' = getitem d k'.
Proof.
  intros Hne. induction d as [| [k0 v0] d IH]; simpl.
  - by rewrite decide_False.
  - destruct (decide (k0 = k)) as [-> | Hne0]; simpl.
    + by rewrite !decide_False.
    + destruct (decide (k0 = k')); [reflexivity | exact IH].
Qed.

(** With explicit constraints only, [bcs] is not rewritten and there
    are no implicit constraints. *)
Lemma split_bcs_explicit (bcs : list DirichletBC) :
  Forall (fun bc => is_explicit bc = true) bcs ->
  split_bcs (Some bcs) = (bcs, None).
Proof.
  intros Hall. unfold split_bcs.
  assert (Hexp : List.filter is_explicit bcs = bcs).
  { induction Hall as [| bc bcs Hbc _ IH]; simpl; [reflexivity |].
    by rewrite Hbc, IH. }
  assert (Himp : List.filter (fun bc => is_top_bottom (bc_sub_domain bc)) bcs = []).
  { clear Hexp. induction Hall as [| bc bcs Hbc _ IH]; simpl; [reflexivity |].
    unfold is_explicit in Hbc.
    destruct (is_top_bottom (bc_sub_domain bc)); [discriminate | exact IH]. }
  rewrite Hexp, Himp. simpl. by destruct bcs.
Qed.

Lemma check_bcs_Ok (V : FunctionSpace) (bcs : list DirichletBC) :
  Forall (targets V) bcs -> for_each (check_bc V) bcs tt = Ok tt.
Proof.
  induction 1 as [| bc bcs Hbc _ IH]; simpl; [reflexivity |].
  unfold check_bc at 1. by rewrite bool_decide_eq_true_2.
Qed.

Lemma check_bcs_inv (V : FunctionSpace) (bcs : list DirichletBC) (u : unit) :
  for_each (check_bc V) bcs tt = Ok u -> Forall (targets V) bcs.
Proof.
  induction bcs as [| bc bcs IH]; simpl; [constructor |].
  unfold check_bc at 1. case_bool_decide as Hbc; simpl; [| discriminate].
  intros Hrest. constructor; [exact Hbc | by apply IH].
Qed.

Lemma check_bcs_perm (V : FunctionSpace) (bcs1 bcs2 : list DirichletBC) (u : unit) :
  Permutation bcs1 bcs2 ->
  for_each (check_bc V) bcs1 tt = Ok u -> for_each (check_bc V) bcs2 tt = Ok tt.
Proof.
  intros Hperm Hok. apply check_bcs_Ok. rewrite <- Hperm. by eapply check_bcs_inv.
Qed.

Lemma hash_leb_total (a b : DirichletBC) : hash_leb a b = true \/ hash_leb b a = true.
Proof. unfold hash_leb. lia. Qed.

Lemma hash_leb_trans (a b c : DirichletBC) :
  hash_leb a b = true -> hash_leb b c = true -> hash_leb a c = true.
Proof. unfold hash_leb. lia. Qed.

Lemma sorted_bcs_canonical (bcs1 bcs2 : list DirichletBC) :
  distinct_hashes bcs1 -> Permutation bcs1 bcs2 ->
  sorted_by hash_leb bcs1 = sorted_by hash_leb bcs2.
Proof.
  intros Hdist Hperm.
  apply (sorted_by_canonical hash_leb hash_leb_total hash_leb_trans); [| exact Hperm].
  intros a b Ha Hb Hab Hba. apply Hdist; try assumption.
  unfold hash_leb in *. lia.
Qed.

(** C2, as the code has it: when two calls of [get_map] on the same
    data and entity set are given the same explicit constraints in
    another order (a permutation: the code removes no repetition), the
    constraints having hashes of their own, the second call returns the
    very map that the first one returned, and leaves the store as the
    first one left it. *)
Theorem get_map_permuted_constraints (T : Np.IntType) (self : FunctionSpaceData)
    (V : FunctionSpace) (entity_set : EntitySet) (bcs1 bcs2 : list DirichletBC)
    (arity1 arity2 : Z) (name1 name2 : string) (offset1 offset2 : option (list Z))
    (parent1 parent2 : option nat) (st st1 : MapStore) (val : nat) :
  Permutation bcs1 bcs2 ->
  distinct_hashes bcs1 ->
  Forall (fun bc => is_explicit bc = true) bcs1 ->
  get_map T self V entity_set arity1 (Some bcs1) name1 offset1 parent1 st = (Ok val, st1) ->
  get_map T self V entity_set arity2 (Some bcs2) name2 offset2 parent2 st1 = (Ok val, st1).
Proof.
  intros Hperm Hdist Hexp1.
  assert (Hexp2 : Forall (fun bc => is_explicit bc = true) bcs2) by (by rewrite <- Hperm).
  unfold get_map.
  destruct (negb (fs_len V =? 1)%nat); [discriminate |].
  rewrite (split_bcs_explicit bcs1 Hexp1), (split_bcs_explicit bcs2 Hexp2).
  destruct (for_each (check_bc V) bcs1 tt) as [u |] eqn:Hcheck; [| discriminate].
  rewrite (check_bcs_perm V bcs1 bcs2 u Hperm Hcheck).
  rewrite <- (sorted_bcs_canonical bcs1 bcs2 Hdist Hperm).
  set (lbcs := sorted_by hash_leb bcs1).
  destruct (getitem (map_caches st) (entity_set, lbcs)) as [hit |] eqn:Hget.
  - intros [= -> ->]. by rewrite Hget.
  - destruct (new_entity_node_list T self entity_set lbcs) as [vals |]; [| discriminate].
    destruct (format_name (fs_name V) name1) as [map_name |]; [| discriminate].
    unfold alloc, cache_store. simpl.
    destruct (decorate_of lbcs); simpl; intros [= <- <-]; simpl;
      by rewrite getitem_setitem_eq.
Qed.

Lemma get_map_permuted_constraints_witness :
  get_map Np.Int32 interval_data interval_V CellSet 2 (Some [bc_right; bc_left])
    "cell_node" None None store_after_first
  = (Ok 0%nat, store_after_first).
Proof.
  apply (get_map_permuted_constraints Np.Int32 interval_data interval_V CellSet
           [bc_left; bc_right] [bc_right; bc_left] 2 2 "cell_node" "cell_node"
           None None None None empty_store).
  - apply perm_swap.
  - intros a b [<- | [<- | []]] [<- | [<- | []]]; simpl; intros; try reflexivity; lia.
  - repeat constructor.
  - vm_compute. reflexivity.
Defined.

(** C2 as stated fails: the lists [bc_left; bc_right] and
    [bc_right; bc_left; bc_left] hold the same constraints as sets, in
    another order, yet the second call builds a second map. *)
Lemma get_map_repeated_constraint_misses :
  (forall bc, In bc [bc_left; bc_right] <-> In bc [bc_right; bc_left; bc_left])
  /\ get_map Np.Int32 interval_data interval_V CellSet 2 (Some [bc_left; bc_right])
       "cell_node" None None empty_store
     = (Ok 0%nat, store_after_first)
  /\ fst (get_map Np.Int32 interval_data interval_V CellSet 2
            (Some [bc_right; bc_left; bc_left]) "cell_node" None None store_after_first)
     = Ok 1%nat.
Proof.
  split; [| split].
  - intros bc. simpl. tauto.
  - vm_compute. reflexivity.
  - vm_compute. reflexivity.
Qed.

(** ** Arrays *)

Lemma wrap_representable (T : Np.IntType) (x : Z) :
  Np.representable T x -> Np.wrap T x = x.
Proof.
  unfold Np.representable, Np.wrap. intros Hx.
  assert (Hpow : 2 ^ Np.bits T = 2 * 2 ^ (Np.bits T - 1)).
  { rewrite <- Z.pow_succ_r by (destruct T; unfold Np.bits; simpl; lia).
    f_equal. lia. }
  rewrite Z.mod_small by lia. lia.
Qed.

Lemma norm_index_in_range (n : nat) (i : Z) :
  0 <= i < Z.of_nat n -> Np.norm_index n i = Ok (Z.to_nat i).
Proof.
  intros Hi. unfold Np.norm_index.
  destruct (Z.leb_spec 0 i), (Z.ltb_spec i (Z.of_nat n)); simpl; try lia. reflexivity.
Qed.

Lemma length_arange (n : Z) : length (Np.arange n) = Z.to_nat n.
Proof. unfold Np.arange. by rewrite length_map, length_seq. Qed.

Lemma lookup_arange (n i : Z) :
  0 <= i < n -> Np.arange n !! Z.to_nat i = Some i.
Proof.
  intros Hi. unfold Np.arange. rewrite list_lookup_fmap.
  rewrite lookup_seq_lt by lia. simpl. f_equal. lia.
Qed.

(** An assignment through an index array whose values are a function
    of the index: every index in range, the result has the value of the
    function at the assigned slots and is unchanged elsewhere. *)
Lemma setitems_by_index (f : Z -> Z) (idx : list Z) (a : list Z) :
  Forall (fun i => 0 <= i < Z.of_nat (length a)) idx ->
  exists a',
    Np.setitems a idx (map f idx) = Ok a'
    /\ length a' = length a
    /\ forall i, 0 <= i < Z.of_nat (length a) ->
         a' !! Z.to_nat i = if decide (i ∈ idx) then Some (f i) else a !! Z.to_nat i.
Proof.
  revert a. induction idx as [| j idx IH]; intros a Hall; simpl.
  - exists a. split; [reflexivity |]. split; [reflexivity |].
    intros i Hi. by destruct (decide (i ∈ [])) as [Hin%not_elem_of_nil |].
  - inversion Hall as [| ? ? Hj Hrest]; subst.
    rewrite (norm_index_in_range _ _ Hj). simpl.
    destruct (IH (<[Z.to_nat j := f j]> a)) as (a' & Hset & Hlen & Hval).
    { by rewrite length_insert. }
    rewrite length_insert in Hlen, Hval.
    exists a'. split; [exact Hset |]. split; [exact Hlen |].
    intros i Hi. rewrite (Hval i Hi).
    destruct (decide (i ∈ idx)) as [Hin | Hnin].
    + rewrite decide_True; [reflexivity | rewrite elem_of_cons; tauto].
    + destruct (decide (i = j)) as [-> | Hne].
      * rewrite decide_True by (rewrite elem_of_cons; tauto).
        apply list_lookup_insert_eq. lia.
      * rewrite decide_False by (rewrite elem_of_cons; tauto).
        apply list_lookup_insert_ne. lia.
Qed.

(** An assignment through an increasing index array, every index in
    range and a value for each: the result has the value of an index
    at its slot and is unchanged elsewhere. *)
Lemma setitems_values (idx vals a : list Z) :
  Forall (fun i => 0 <= i < Z.of_nat (length a)) idx ->
  StronglySorted Z.lt idx ->
  length vals = length idx ->
  exists a',
    Np.setitems a idx vals = Ok a'
    /\ length a' = length a
    /\ (forall k i v, idx !! k = Some i -> vals !! k = Some v ->
          a' !! Z.to_nat i = Some v)
    /\ (forall i, 0 <= i -> ~ In i idx -> a' !! Z.to_nat i = a !! Z.to_nat i).
Proof.
  revert vals a. induction idx as [| j idx IH]; intros vals a Hall Hs Hlen.
  - destruct vals; [| discriminate]. exists a. simpl.
    split; [reflexivity |]. split; [reflexivity |]. split; [| reflexivity].
    intros k i v Hk. by rewrite lookup_nil in Hk.
  - destruct vals as [| v vals]; [discriminate |]. simpl.
    inversion Hall as [| ? ? Hj Hrest]; subst.
    inversion Hs as [| ? ? Hs' Hlt]; subst.
    assert (Hnin : ~ In j idx).
    { intros Hin. rewrite List.Forall_forall in Hlt. specialize (Hlt j Hin). lia. }
    rewrite (norm_index_in_range _ _ Hj). simpl.
    destruct (IH vals (<[Z.to_nat j := v]> a)) as (a' & Hset & Hlen' & Hat & Hother).
    { by rewrite length_insert. }
    { exact Hs'. }
    { simpl in Hlen. lia. }
    rewrite length_insert in Hlen'.
    exists a'. split; [exact Hset |]. split; [exact Hlen' |]. split.
    + intros [| k] i w Hi Hw; simpl in Hi, Hw.
      * injection Hi as <-. injection Hw as <-.
        rewrite (Hother j) by (lia || exact Hnin).
        apply list_lookup_insert_eq. lia.
      * by apply (Hat k).
    + intros i Hi Hni. rewrite (Hother i Hi) by (intros H; apply Hni; by right).
      apply list_lookup_insert_ne. intros Heq. apply Hni. left. lia.
Qed.

Lemma take_in_range (a : list Z) (idx : list Z) :
  Forall (fun i => 0 <= i < Z.of_nat (length a)) idx ->
  Np.take a idx = Ok (map (fun i => default 0 (a !! Z.to_nat i)) idx).
Proof.
  induction 1 as [| i idx Hi _ IH]; simpl; [reflexivity |].
  unfold Np.getitem. rewrite (norm_index_in_range _ _ Hi). simpl.
  destruct (lookup_lt_is_Some_2 a (Z.to_nat i)) as [v Hv]; [lia |].
  rewrite Hv. simpl. rewrite IH. reflexivity.
Qed.

Lemma take2_in_range (a : list Z) (idx : list (list Z)) :
  Forall (Forall (fun i => 0 <= i < Z.of_nat (length a))) idx ->
  Np.take2 a idx = Ok (map (map (fun i => default 0 (a !! Z.to_nat i))) idx).
Proof.
  induction 1 as [| row idx Hrow _ IH]; simpl; [reflexivity |].
  rewrite (take_in_range _ _ Hrow). simpl. rewrite IH. reflexivity.
Qed.

(** ** The heap of maps *)

Lemma values_at_fuel (n m : nat) (h : list MapObject) (a : nat) (v : list (list Z)) :
  values_at n h a = Some v -> (n <= m)%nat -> values_at m h a = Some v.
Proof.
  revert m a. induction n as [| n IH]; intros m a; simpl; [discriminate |].
  intros Hv Hle. destruct m as [| m]; [lia |]. simpl.
  destruct (h !! a) as [[| a' ? ?] |]; try assumption.
  apply IH; [assumption | lia].
Qed.

Lemma values_at_app (n : nat) (h h' : list MapObject) (a : nat) (v : list (list Z)) :
  values_at n h a = Some v -> values_at n (h ++ h') a = Some v.
Proof.
  revert a. induction n as [| n IH]; intros a; simpl; [discriminate |].
  destruct (h !! a) as [obj |] eqn:Hobj; [| discriminate].
  rewrite (lookup_app_l_Some _ _ _ _ Hobj).
  destruct obj as [| a' ? ?]; [trivial | apply IH].
Qed.

Lemma map_values_of_alloc (obj : MapObject) (st : MapStore) (a : nat) (v : list (list Z)) :
  map_values_of st a = Some v -> map_values_of (snd (alloc obj st)) a = Some v.
Proof.
  unfold map_values_of. intros Hv.
  change (heap (snd (alloc obj st))) with (heap st ++ [obj]).
  apply values_at_app. apply (values_at_fuel _ _ _ _ _ Hv).
  rewrite length_app. lia.
Qed.

Lemma map_values_of_new_map (st : MapStore) (iterset : EntitySet) (toset : Op2.Set_)
    (arity : Z) (vals : list (list Z)) (name : string) (offset : option (list Z))
    (parent : option nat) (masks : option (dict string (option Op2.MapMask))) :
  map_values_of (snd (alloc (Map iterset toset arity vals name offset parent masks) st))
    (length (heap st))
  = Some vals.
Proof.
  unfold map_values_of, alloc. cbn [snd heap values_at].
  by rewrite lookup_app_r, Nat.sub_diag by lia.
Qed.

Lemma map_values_of_new_decoration (st : MapStore) (a : nat) (vector_index : bool)
    (implicit_bcs : option (list (SubDomain * string))) (v : list (list Z)) :
  map_values_of st a = Some v ->
  map_values_of (snd (alloc (DecoratedMap a vector_index implicit_bcs) st))
    (length (heap st))
  = Some v.
Proof.
  unfold map_values_of. intros Hv.
  change (heap (snd (alloc (DecoratedMap a vector_index implicit_bcs) st)))
    with (heap st ++ [DecoratedMap a vector_index implicit_bcs]).
  cbn [values_at]. rewrite lookup_app_r, Nat.sub_diag by lia. cbn [lookup list_lookup].
  apply values_at_app. apply (values_at_fuel _ _ _ _ _ Hv).
  rewrite length_app. simpl. lia.
Qed.

Lemma cache_consistent_empty (T : Np.IntType) (self : FunctionSpaceData) :
  cache_consistent T self empty_store.
Proof. intros entity_set lbcs a. simpl. discriminate. Qed.

Lemma cache_consistent_alloc (T : Np.IntType) (self : FunctionSpaceData) (st : MapStore)
    (obj : MapObject) :
  cache_consistent T self st -> cache_consistent T self (snd (alloc obj st)).
Proof.
  intros Hinv entity_set lbcs a Hget.
  destruct (Hinv entity_set lbcs a Hget) as (vals & Hvals & Hat).
  exists vals. split; [exact Hvals | by apply map_values_of_alloc].
Qed.

Lemma cache_consistent_store (T : Np.IntType) (self : FunctionSpaceData) (st : MapStore)
    (entity_set : EntitySet) (lbcs : list DirichletBC) (a : nat) (vals : list (list Z)) :
  cache_consistent T self st ->
  new_entity_node_list T self entity_set lbcs = Ok vals ->
  map_values_of st a = Some vals ->
  cache_consistent T self (cache_store entity_set lbcs a st).
Proof.
  intros Hinv Hvals Hat entity_set' lbcs' a'. unfold cache_store. simpl.
  destruct (decide ((entity_set, lbcs) = (entity_set', lbcs'))) as [[= <- <-] | Hne].
  - rewrite getitem_setitem_eq. intros [= <-]. by exists vals.
  - rewrite getitem_setitem_ne by exact Hne. apply Hinv.
Qed.

Lemma alloc_eq (obj : MapObject) (st : MapStore) :
  alloc obj st = (length (heap st), snd (alloc obj st)).
Proof. reflexivity. Qed.

(** [get_map] keeps the invariant, and the map it returns holds the
    array built from the sorted tuple of the constraints of its key. *)
Lemma get_map_consistent (T : Np.IntType) (self : FunctionSpaceData) (V : FunctionSpace)
    (entity_set : EntitySet) (map_arity : Z) (bcs : option (list DirichletBC))
    (name : string) (offset : option (list Z)) (parent : option nat)
    (st st' : MapStore) (r : result nat) :
  cache_consistent T self st ->
  get_map T self V entity_set map_arity bcs name offset parent st = (r, st') ->
  cache_consistent T self st'
  /\ forall a, r = Ok a ->
       exists vals,
         new_entity_node_list T self entity_set (sorted_by hash_leb (fst (split_bcs bcs)))
         = Ok vals
         /\ map_values_of st' a = Some vals.
Proof.
  intros Hinv. unfold get_map.
  destruct (negb (fs_len V =? 1)%nat).
  { intros [= <- <-]. split; [exact Hinv | discriminate]. }
  destruct (split_bcs bcs) as [bcs' implicit_bcs]. cbn [fst].
  destruct (for_each (check_bc V) bcs' tt) as [u | e].
  2: { intros [= <- <-]. split; [exact Hinv | discriminate]. }
  set (lbcs := sorted_by hash_leb bcs').
  destruct (getitem (map_caches st) (entity_set, lbcs)) as [hit | e] eqn:Hget.
  - destruct (Hinv _ _ _ Hget) as (vals & Hvals & Hat).
    destruct implicit_bcs as [implicit_bcs |].
    + rewrite alloc_eq. intros [= <- <-]. split.
      * by apply cache_consistent_alloc.
      * intros a [= <-]. exists vals. split; [exact Hvals |].
        by apply map_values_of_new_decoration.
    + intros [= <- <-]. split; [exact Hinv |].
      intros a [= <-]. by exists vals.
  - destruct (new_entity_node_list T self entity_set lbcs) as [vals | e'] eqn:Hvals.
    2: { intros [= <- <-]. split; [exact Hinv | discriminate]. }
    destruct (format_name (fs_name V) name) as [map_name | e'].
    2: { intros [= <- <-]. split; [exact Hinv | discriminate]. }
    rewrite alloc_eq.
    set (m := Map entity_set (node_set self) map_arity vals _ offset parent _).
    set (st1 := snd (alloc m st)).
    assert (Hinv1 : cache_consistent T self st1) by (by apply cache_consistent_alloc).
    assert (Hat1 : map_values_of st1 (length (heap st)) = Some vals)
      by apply map_values_of_new_map.
    assert (Hcached : exists val st2,
               (if decorate_of lbcs
                then alloc (DecoratedMap (length (heap st)) true None) st1
                else (length (heap st), st1)) = (val, st2)
               /\ cache_consistent T self st2
               /\ map_values_of st2 val = Some vals).
    { destruct (decorate_of lbcs).
      - rewrite alloc_eq. eexists _, _. split; [reflexivity |]. split.
        + by apply cache_consistent_alloc.
        + by apply map_values_of_new_decoration.
      - by eexists _, _. }
    destruct Hcached as (val & st2 & -> & Hinv2 & Hat2).
    assert (Hinv3 : cache_consistent T self (cache_store entity_set lbcs val st2))
      by (by apply cache_consistent_store with (vals := vals)).
    destruct implicit_bcs as [implicit_bcs |].
    + rewrite alloc_eq. intros [= <- <-]. split.
      * exact (cache_consistent_alloc T self (cache_store entity_set lbcs val st2)
                 (DecoratedMap val false (Some implicit_bcs)) Hinv3).
      * intros a [= <-]. exists vals. split; [reflexivity |].
        exact (map_values_of_new_decoration (cache_store entity_set lbcs val st2)
                 val false (Some implicit_bcs) vals Hat2).
    + intros [= <- <-]. split; [exact Hinv3 |].
      intros a [= <-]. exists vals. split; [reflexivity | exact Hat2].
Qed.

(** A name without [%] is taken as it is. *)
Lemma format_rest_plain (l : list ascii) :
  forallb (fun c => negb (Ascii.eqb c "%")) l = true -> format_rest Literal l = Ok l.
Proof.
  induction l as [| c l IH]; simpl; [reflexivity |].
  intros H. apply andb_true_iff in H as [Hc Hl].
  destruct (Ascii.eqb c "%"); [discriminate |]. by rewrite (IH Hl).
Qed.

Lemma format_name_plain (value name : string) :
  plain_name name = true -> format_name value name = Ok (value ++ "_" ++ name)%string.
Proof.
  intros H. unfold format_name. rewrite (format_rest_plain _ H).
  by rewrite String.string_of_list_ascii_of_string.
Qed.

(** [get_map] returns a map as soon as [V] is not mixed, the name is
    plain, the constraints are defined on [V] and the array can be
    built. *)
Lemma get_map_returns (T : Np.IntType) (self : FunctionSpaceData) (V : FunctionSpace)
    (entity_set : EntitySet) (map_arity : Z) (bcs : option (list DirichletBC))
    (name : string) (offset : option (list Z)) (parent : option nat)
    (st : MapStore) (vals : list (list Z)) :
  fs_len V = 1%nat ->
  plain_name name = true ->
  Forall (targets V) (fst (split_bcs bcs)) ->
  new_entity_node_list T self entity_set (sorted_by hash_leb (fst (split_bcs bcs)))
  = Ok vals ->
  exists a st',
    get_map T self V entity_set map_arity bcs name offset parent st = (Ok a, st').
Proof.
  intros Hlen Hname Htargets Hvals. unfold get_map. rewrite Hlen.
  destruct (split_bcs bcs) as [bcs' implicit_bcs]. cbn [fst] in *.
  rewrite (check_bcs_Ok V bcs' Htargets).
  destruct (getitem (map_caches st) _) as [hit | e].
  - destruct implicit_bcs; unfold alloc; simpl; by eexists _, _.
  - rewrite Hvals, (format_name_plain _ _ Hname).
    destruct (decorate_of _), implicit_bcs; unfold alloc; simpl; by eexists _, _.
Qed.

(** ** [unique], [union1d] and [searchsorted] *)

Lemma insert_unique_In (x y : Z) (l : list Z) :
  In x (Np.insert_unique y l) <-> x = y \/ In x l.
Proof.
  induction l as [| z l IH]; simpl; [intuition congruence |].
  destruct (Z.ltb_spec y z); simpl; [intuition congruence |].
  destruct (Z.eqb_spec y z); simpl; [intuition congruence |].
  rewrite IH. intuition congruence.
Qed.

Lemma unique_In (x : Z) (a : list Z) : In x (Np.unique a) <-> In x a.
Proof.
  unfold Np.unique. induction a as [| y a IH]; simpl; [tauto |].
  rewrite insert_unique_In, IH. intuition congruence.
Qed.

Lemma union1d_In (x : Z) (a b : list Z) : In x (Np.union1d a b) <-> In x a \/ In x b.
Proof. unfold Np.union1d. by rewrite unique_In, in_app_iff. Qed.

Lemma fold_union1d_In (x : Z) (ls : list (list Z)) (a : list Z) :
  In x (fold_left Np.union1d ls a) <-> In x a \/ In x (concat ls).
Proof.
  revert a. induction ls as [| l ls IH]; intros a; simpl; [tauto |].
  rewrite IH, union1d_In, in_app_iff. tauto.
Qed.

Lemma reduce_union1d_In (nodes : list (list Z)) (bcids : list Z) (x : Z) :
  reduce Np.union1d nodes = Ok bcids -> In x bcids <-> In x (concat nodes).
Proof.
  destruct nodes as [| a ls]; simpl; [discriminate |].
  intros [= <-]. by rewrite fold_union1d_In, in_app_iff.
Qed.

Lemma insert_unique_sorted (x : Z) (l : list Z) :
  StronglySorted Z.lt l -> StronglySorted Z.lt (Np.insert_unique x l).
Proof.
  induction 1 as [| y l Hl IH Hy]; simpl; [repeat constructor |].
  destruct (Z.ltb_spec x y).
  - constructor; [by constructor |]. constructor; [assumption |].
    eapply Forall_impl; [exact Hy |]. simpl. intros; lia.
  - destruct (Z.eqb_spec x y); [by constructor |].
    constructor; [exact IH |].
    apply Forall_forall. intros z Hz. apply list_elem_of_In, insert_unique_In in Hz.
    destruct Hz as [-> | Hz]; [lia |].
    rewrite Forall_forall in Hy. apply Hy. by apply list_elem_of_In.
Qed.

Lemma unique_sorted (a : list Z) : StronglySorted Z.lt (Np.unique a).
Proof.
  unfold Np.unique. induction a as [| x a IH]; simpl; [constructor |].
  by apply insert_unique_sorted.
Qed.

Lemma reduce_union1d_sorted (nodes : list (list Z)) (bcids : list Z) :
  Forall (StronglySorted Z.lt) nodes ->
  reduce Np.union1d nodes = Ok bcids -> StronglySorted Z.lt bcids.
Proof.
  destruct nodes as [| a ls]; simpl; [discriminate |].
  intros Hall [= <-]. inversion Hall as [| ? ? Ha _]; subst. clear Hall.
  revert a Ha. induction ls as [| l ls IH]; intros a Ha; simpl; [exact Ha |].
  apply IH. apply unique_sorted.
Qed.

Lemma sorted_lookup_lt (a : list Z) (i j : nat) (x y : Z) :
  StronglySorted Z.lt a -> a !! i = Some x -> a !! j = Some y -> (i < j)%nat -> x < y.
Proof.
  intros Hs. revert i j. induction Hs as [| z a Hs IH Hz]; intros i j Hi Hj Hlt.
  - by rewrite lookup_nil in Hi.
  - destruct j as [| j]; [lia |]. simpl in Hj. destruct i as [| i]; simpl in Hi.
    + injection Hi as <-. rewrite Forall_forall in Hz. apply Hz.
      by eapply list_elem_of_lookup_2.
    + apply (IH i j); [assumption | assumption | lia].
Qed.

(** On an increasing array the bisection finds the position of a value
    that is in it. *)
Lemma bisect_left_found (a : list Z) (v : Z) (p : nat) :
  StronglySorted Z.lt a -> a !! p = Some v ->
  forall fuel lo hi,
    (lo <= p <= hi)%nat -> (hi <= length a)%nat -> (hi - lo < fuel)%nat ->
    Np.bisect_left fuel a v lo hi = p.
Proof.
  intros Hs Hp. induction fuel as [| fuel IH]; intros lo hi Hlo Hhi Hfuel; [lia |].
  cbn [Np.bisect_left]. destruct (Nat.ltb_spec lo hi) as [Hlt | Hge]; [| lia].
  cbv zeta. set (mid := ((lo + hi) / 2)%nat).
  assert (Hmid : (lo <= mid < hi)%nat).
  { split; [apply Nat.div_le_lower_bound | apply Nat.Div0.div_lt_upper_bound]; lia. }
  destruct (lookup_lt_is_Some_2 a mid) as [x Hx]; [lia |].
  rewrite Hx. destruct (Z.ltb_spec x v) as [Hxv | Hxv].
  - apply IH; [| lia | lia].
    destruct (Nat.lt_ge_cases mid p) as [? | Hle]; [lia |].
    destruct (Nat.eq_dec mid p) as [Heq | Hne].
    + rewrite Heq, Hp in Hx. injection Hx as <-. lia.
    + assert (v < x) by (apply (sorted_lookup_lt a p mid); auto; lia). lia.
  - apply IH; [| lia | lia].
    destruct (Nat.lt_ge_cases p (S mid)) as [? | Hle]; [lia |].
    assert (x < v) by (apply (sorted_lookup_lt a mid p); auto; lia). lia.
Qed.

Lemma searchsorted_found (a : list Z) (vs : list Z) :
  StronglySorted Z.lt a -> (forall v, In v vs -> In v a) ->
  Forall (fun i => 0 <= i < Z.of_nat (length a)) (Np.searchsorted a vs).
Proof.
  intros Hs Hsub. unfold Np.searchsorted. apply Forall_forall. intros i Hi.
  apply list_elem_of_In, in_map_iff in Hi. destruct Hi as (v & <- & Hv).
  apply Hsub, list_elem_of_In, list_elem_of_lookup in Hv. destruct Hv as (p & Hp).
  pose proof (lookup_lt_Some _ _ _ Hp).
  rewrite (bisect_left_found a v p Hs Hp); lia.
Qed.

(** ** The component bits of [negids] *)

Lemma range_In (n c : Z) : In c (range n) -> 0 <= c < n.
Proof.
  unfold range. rewrite in_map_iff. intros (k & <- & Hk).
  apply in_seq in Hk. lia.
Qed.

Section Encode.
Context (T : Np.IntType) (R : Z -> Z -> Prop).
Hypothesis R_bit :
  forall c v e, 0 <= c <= 2 -> R v e -> R v (Z.lor e (2 ^ (Np.itemsize T * 8 - 2 - c))).

Lemma ior_shift_entries (bcids negids idx : list Z) (c : Z) :
  0 <= c <= 2 ->
  entries_ok R bcids negids ->
  Forall (fun i => 0 <= i < Z.of_nat (length negids)) idx ->
  exists negids',
    ior_shift T negids idx (Np.itemsize T * 8 - 2 - c) = Ok negids'
    /\ entries_ok R bcids negids'.
Proof.
  intros Hc [Hlen HR] Hidx. unfold ior_shift.
  rewrite (take_in_range _ _ Hidx). simpl.
  set (n := Np.itemsize T * 8 - 2 - c).
  assert (Hn : 0 <= n <= Np.bits T - 2) by (unfold n, Np.bits; destruct T; simpl; lia).
  unfold shl1. destruct (Z.ltb_spec n 0) as [? | _]; [lia |]. simpl.
  rewrite Z.shiftl_1_l.
  destruct (Z.ltb_spec (2 ^ n) (2 ^ (Np.bits T - 1))) as [_ | Hge].
  2: { assert (2 ^ n < 2 ^ (Np.bits T - 1)) by (apply Z.pow_lt_mono_r; lia). lia. }
  rewrite map_map.
  destruct (setitems_by_index
              (fun i => Z.lor (default 0 (negids !! Z.to_nat i)) (2 ^ n)) idx negids Hidx)
    as (negids' & Hset & Hlen' & Hval).
  exists negids'. split; [exact Hset |]. split; [congruence |].
  intros k v e Hv He.
  pose proof (lookup_lt_Some _ _ _ He) as Hk.
  specialize (Hval (Z.of_nat k)). rewrite Nat2Z.id in Hval.
  rewrite Hval in He by lia.
  destruct (lookup_lt_is_Some_2 negids k) as [e0 He0]; [lia |].
  rewrite He0 in He. simpl in He.
  destruct (decide (Z.of_nat k ∈ idx)); injection He as <-.
  - apply R_bit; [exact Hc | by apply (HR k)].
  - by apply (HR k).
Qed.

Lemma encode_bc_cases (decorate : bool) (bcids negids : list Z) (bc : DirichletBC) :
  StronglySorted Z.lt bcids ->
  (is_explicit bc = true -> forall v, In v (bc_nodes bc) -> In v bcids) ->
  component_ok bc ->
  entries_ok R bcids negids ->
  if oversized decorate bc then encode_bc T decorate bcids bc negids = Raise ValueError
  else exists negids',
         encode_bc T decorate bcids bc negids = Ok negids'
         /\ entries_ok R bcids negids'.
Proof.
  intros Hs Hsub Hcomp Hok. unfold oversized, encode_bc, is_explicit in *.
  destruct (is_top_bottom (bc_sub_domain bc)); simpl in *; [by exists negids |].
  assert (Hidx : forall ids, entries_ok R bcids ids ->
            Forall (fun i => 0 <= i < Z.of_nat (length ids))
              (Np.searchsorted bcids (bc_nodes bc))).
  { intros ids [Hlen _]. rewrite Hlen. apply searchsorted_found; auto. }
  unfold component_ok in Hcomp.
  destruct (fs_component (bc_function_space bc)) as [c |] eqn:Hc.
  - rewrite andb_false_r. simpl.
    by apply ior_shift_entries; [| | apply Hidx].
  - rewrite bool_decide_eq_true_2 by reflexivity. rewrite andb_true_r.
    destruct decorate; simpl; [| by exists negids].
    destruct (Z.ltb_spec 3 (fs_value_size (bc_function_space bc))) as [? | Hvs];
      [reflexivity |].
    destruct (for_each_invariant (entries_ok R bcids)
                (fun cmp negids0 =>
                   ior_shift T negids0 (Np.searchsorted bcids (bc_nodes bc))
                     (Np.itemsize T * 8 - 2 - cmp))
                (range (fs_value_size (bc_function_space bc))) negids)
      as (negids' & Hrun & Hok'); [| exact Hok |].
    + intros cmp ids Hcmp Hids. apply range_In in Hcmp.
      by apply ior_shift_entries; [lia | | apply Hidx].
    + rewrite Hrun. simpl. by exists negids'.
Qed.

Lemma encode_all_cases (decorate : bool) (bcids : list Z) (lbcs : list DirichletBC)
    (negids : list Z) :
  StronglySorted Z.lt bcids ->
  Forall (fun bc =>
            (is_explicit bc = true -> forall v, In v (bc_nodes bc) -> In v bcids)
            /\ component_ok bc) lbcs ->
  entries_ok R bcids negids ->
  if existsb (oversized decorate) lbcs
  then for_each (encode_bc T decorate bcids) lbcs negids = Raise ValueError
  else exists negids',
         for_each (encode_bc T decorate bcids) lbcs negids = Ok negids'
         /\ entries_ok R bcids negids'.
Proof.
  intros Hs Hall. revert negids.
  induction Hall as [| bc lbcs [Hsub Hcomp] _ IH]; intros negids Hok; simpl.
  - by exists negids.
  - pose proof (encode_bc_cases decorate bcids negids bc Hs Hsub Hcomp Hok) as Hbc.
    destruct (oversized decorate bc); simpl.
    + by rewrite Hbc.
    + destruct Hbc as (negids1 & -> & Hok1). simpl. by apply IH.
Qed.

End Encode.

Lemma explicit_nodes_sub (lbcs : list DirichletBC) (bc : DirichletBC) (v : Z) :
  In bc lbcs -> is_explicit bc = true -> In v (bc_nodes bc) ->
  In v (constrained_nodes lbcs).
Proof.
  intros Hbc Hexp Hv. unfold constrained_nodes, explicit_nodes.
  apply in_concat. exists (bc_nodes bc). split; [| exact Hv].
  apply in_map, filter_In. by split.
Qed.

Lemma explicit_nodes_sorted (lbcs : list DirichletBC) :
  Forall wf_bc lbcs -> Forall (StronglySorted Z.lt) (explicit_nodes lbcs).
Proof.
  unfold explicit_nodes. induction 1 as [| bc lbcs [Hs _] _ IH]; simpl; [constructor |].
  destruct (is_explicit bc); simpl; [by constructor | exact IH].
Qed.

Section EncodeNodes.
Context (T : Np.IntType) (R : Z -> Z -> Prop).
Hypothesis R_bit :
  forall c v e, 0 <= c <= 2 -> R v e -> R v (Z.lor e (2 ^ (Np.itemsize T * 8 - 2 - c))).

(** The encoding of a cache miss with explicit constraints: [bcids] is
    the increasing union of their nodes; the loop raises [ValueError]
    when a constraint is oversized, and otherwise returns [negids], in
    which every entry is related to its node by a relation that holds
    of the node itself and is kept by setting a component bit. *)
Lemma encode_nodes_cases (lbcs : list DirichletBC) :
  explicit_nodes lbcs <> [] ->
  Forall wf_bc lbcs ->
  (forall n, In n (constrained_nodes lbcs) -> R n n) ->
  exists bcids,
    reduce Np.union1d (explicit_nodes lbcs) = Ok bcids
    /\ (forall n, In n bcids <-> In n (constrained_nodes lbcs))
    /\ if existsb (oversized (decorate_of lbcs)) lbcs
       then encode_nodes T lbcs (explicit_nodes lbcs) = Raise ValueError
       else exists negids,
              encode_nodes T lbcs (explicit_nodes lbcs) = Ok (bcids, negids)
              /\ entries_ok R bcids negids.
Proof.
  intros Hne Hwf HR. unfold encode_nodes.
  destruct (reduce Np.union1d (explicit_nodes lbcs)) as [bcids | e] eqn:Hred.
  2: { destruct (explicit_nodes lbcs); [contradiction | discriminate]. }
  pose proof (reduce_union1d_sorted _ _ (explicit_nodes_sorted lbcs Hwf) Hred) as Hs.
  assert (Hin : forall n, In n bcids <-> In n (constrained_nodes lbcs))
    by (intros n; by apply reduce_union1d_In).
  exists bcids. split; [reflexivity |]. split; [exact Hin |]. simpl.
  assert (Hinit : entries_ok R bcids bcids).
  { split; [reflexivity |]. intros k n e Hn He. rewrite Hn in He. injection He as <-.
    apply HR, Hin. apply list_elem_of_In. by eapply list_elem_of_lookup_2. }
  assert (Hall : Forall (fun bc =>
                   (is_explicit bc = true -> forall v, In v (bc_nodes bc) -> In v bcids)
                   /\ component_ok bc) lbcs).
  { apply Forall_forall. intros bc Hbc. apply list_elem_of_In in Hbc.
    rewrite Forall_forall in Hwf. split.
    - intros Hexp v Hv. apply Hin. by apply explicit_nodes_sub with bc.
    - apply Hwf. by apply list_elem_of_In. }
  pose proof (encode_all_cases T R R_bit (decorate_of lbcs) bcids lbcs bcids Hs Hall Hinit)
    as Hrun.
  destruct (existsb (oversized (decorate_of lbcs)) lbcs).
  - by rewrite Hrun.
  - destruct Hrun as (negids & -> & Hok). simpl. by exists negids.
Qed.

End EncodeNodes.

(** ** The lookup table *)

(** On an extruded mesh the lookup table of a cache miss with explicit
    constraints holds the one value [-10000000] at every constrained
    node, whatever the components of the constraints, and the node
    itself everywhere else. *)
Lemma node_list_bc_extruded (T : Np.IntType) (self : FunctionSpaceData)
    (lbcs : list DirichletBC) :
  fsd_extruded self = true ->
  explicit_nodes lbcs <> [] ->
  Forall wf_bc lbcs ->
  existsb (oversized (decorate_of lbcs)) lbcs = false ->
  (forall n, In n (constrained_nodes lbcs) ->
             0 <= n < Op2.total_size (node_set self)) ->
  exists table,
    node_list_bc T self lbcs (explicit_nodes lbcs) = Ok table
    /\ length table = Z.to_nat (Op2.total_size (node_set self))
    /\ forall n, 0 <= n < Op2.total_size (node_set self) ->
         table !! Z.to_nat n
         = Some (if decide (n ∈ constrained_nodes lbcs) then sentinel else n).
Proof.
  intros Hext Hne Hwf Hsize Hrange. unfold node_list_bc.
  destruct (encode_nodes_cases T (fun _ _ => True) (fun _ _ _ _ _ => I) lbcs Hne Hwf
              (fun _ _ => I)) as (bcids & _ & Hin & Hrun).
  rewrite Hsize in Hrun. destruct Hrun as (negids & -> & _). simpl. rewrite Hext.
  set (N := Op2.total_size (node_set self)) in *.
  assert (Hidx : Forall (fun i => 0 <= i < Z.of_nat (length (Np.arange N))) bcids).
  { apply Forall_forall. intros i Hi. apply list_elem_of_In, Hin, Hrange in Hi.
    rewrite length_arange. lia. }
  destruct (setitems_by_index (fun _ => sentinel) bcids (Np.arange N) Hidx)
    as (table & Hset & Hlen & Hval).
  exists table. split; [exact Hset |]. split; [by rewrite Hlen, length_arange |].
  intros n Hn. rewrite Hval by (rewrite length_arange; lia).
  rewrite lookup_arange by exact Hn.
  destruct (decide (n ∈ bcids)) as [Hb | Hb], (decide (n ∈ constrained_nodes lbcs))
    as [Hc | Hc]; try reflexivity; exfalso.
  - apply Hc, list_elem_of_In, Hin, list_elem_of_In, Hb.
  - apply Hb, list_elem_of_In, Hin, list_elem_of_In, Hc.
Qed.

Example column_table :
  node_list_bc Np.Int32 column_data [bc_component; bc_whole]
    (explicit_nodes [bc_component; bc_whole])
  = Ok [sentinel; sentinel; sentinel; sentinel; 4; sentinel].
Proof. vm_compute. reflexivity. Qed.

(** ** Components of more than three *)

Lemma explicit_nodes_oversized (decorate : bool) (lbcs : list DirichletBC) :
  existsb (oversized decorate) lbcs = true -> explicit_nodes lbcs <> [].
Proof.
  unfold explicit_nodes. induction lbcs as [| bc lbcs IH]; simpl; [discriminate |].
  unfold oversized at 1. destruct (is_explicit bc); simpl; [discriminate | exact IH].
Qed.

Lemma new_entity_node_list_oversized (T : Np.IntType) (self : FunctionSpaceData)
    (entity_set : EntitySet) (lbcs : list DirichletBC) :
  Forall wf_bc lbcs ->
  existsb (oversized (decorate_of lbcs)) lbcs = true ->
  new_entity_node_list T self entity_set lbcs = Raise ValueError.
Proof.
  intros Hwf Hover. pose proof (explicit_nodes_oversized _ _ Hover) as Hne.
  unfold new_entity_node_list. fold (explicit_nodes lbcs).
  destruct (explicit_nodes lbcs) as [| a ls] eqn:Hnodes; [contradiction |].
  rewrite <- Hnodes. unfold node_list_bc.
  destruct (encode_nodes_cases T (fun _ _ => True) (fun _ _ _ _ _ => I) lbcs
              ltac:(congruence) Hwf (fun _ _ => I)) as (bcids & _ & _ & Hrun).
  rewrite Hover in Hrun. by rewrite Hrun.
Qed.

(** C6, as the code has it: a call of [get_map] that misses the cache
    and whose constraints, well formed and defined on [V], include a
    component-indexed one and an explicit one on a whole space of more
    than three components raises [ValueError], and builds and caches
    no map. *)
Theorem get_map_oversized (T : Np.IntType) (self : FunctionSpaceData) (V : FunctionSpace)
    (entity_set : EntitySet) (map_arity : Z) (bcs : option (list DirichletBC))
    (name : string) (offset : option (list Z)) (parent : option nat) (st : MapStore) :
  fs_len V = 1%nat ->
  Forall (targets V) (fst (split_bcs bcs)) ->
  Forall wf_bc (fst (split_bcs bcs)) ->
  getitem (map_caches st) (entity_set, sorted_by hash_leb (fst (split_bcs bcs)))
  = Raise KeyError ->
  existsb (oversized (decorate_of (sorted_by hash_leb (fst (split_bcs bcs)))))
    (sorted_by hash_leb (fst (split_bcs bcs))) = true ->
  get_map T self V entity_set map_arity bcs name offset parent st
  = (Raise ValueError, st).
Proof.
  intros Hlen Htargets Hwf Hmiss Hover. unfold get_map. rewrite Hlen.
  destruct (split_bcs bcs) as [bcs' implicit_bcs]. cbn [fst] in *.
  rewrite (check_bcs_Ok V bcs' Htargets), Hmiss.
  rewrite new_entity_node_list_oversized; [reflexivity | | exact Hover].
  by rewrite sorted_by_perm.
Qed.

Lemma get_map_oversized_witness :
  get_map Np.Int32 interval_data interval_V5 CellSet 2 (Some [bc_five; bc_five_1])
    "cell_node" None None empty_store
  = (Raise ValueError, empty_store).
Proof.
  apply (get_map_oversized Np.Int32 interval_data interval_V5 CellSet 2
           (Some [bc_five; bc_five_1]) "cell_node" None None empty_store).
  - reflexivity.
  - repeat constructor.
  - repeat constructor; simpl; lia.
  - reflexivity.
  - reflexivity.
Defined.

(** C6 as stated fails: a constraint on the whole space of five
    components, with no component-indexed constraint beside it, is
    accepted; the map is built and cached. *)
Lemma get_map_five_components_accepted :
  3 < fs_value_size (bc_function_space bc_five)
  /\ is_explicit bc_five = true
  /\ exists st',
       get_map Np.Int32 interval_data interval_V5 CellSet 2 (Some [bc_five])
         "cell_node" None None empty_store
       = (Ok 0%nat, st')
       /\ getitem (map_caches st') (CellSet, [bc_five]) = Ok 0%nat
       /\ map_values_of st' 0%nat = Some [[-1; 1]; [1; 2]; [2; 3]].
Proof.
  split; [reflexivity |]. split; [reflexivity |].
  eexists. split; [vm_compute; reflexivity |]. split; vm_compute; reflexivity.
Qed.

(** ** Exact arithmetic of the encoding *)

Lemma pow2_bits (T : Np.IntType) : 2 ^ (Np.bits T - 1) = 8 * 2 ^ (Np.bits T - 4).
Proof. destruct T; reflexivity. Qed.

Lemma neg_add_exact (T : Np.IntType) (e : Z) :
  0 <= e -> e + 1 < 2 ^ (Np.bits T - 1) ->
  Np.add T e 1 = e + 1 /\ Np.neg T (Np.add T e 1) = - (e + 1).
Proof.
  intros He Hlt. unfold Np.add, Np.neg.
  rewrite (wrap_representable T (e + 1)) by (unfold Np.representable; lia).
  split; [reflexivity |]. apply wrap_representable. unfold Np.representable. lia.
Qed.

Lemma lor_pow2_bound (e m N : Z) :
  0 <= e < 2 ^ N -> 0 <= m < N -> 0 <= Z.lor e (2 ^ m) < 2 ^ N.
Proof.
  intros He Hm.
  assert (Hp : 0 < 2 ^ m) by (apply Z.pow_pos_nonneg; lia).
  assert (Hnn : 0 <= Z.lor e (2 ^ m)) by (apply Z.lor_nonneg; lia).
  split; [exact Hnn |].
  assert (Hpos : 0 < Z.lor e (2 ^ m)).
  { destruct (Z.eq_dec (Z.lor e (2 ^ m)) 0) as [H0 | ?]; [| lia].
    apply Z.lor_eq_0_iff in H0. lia. }
  apply Z.log2_lt_pow2; [exact Hpos |].
  rewrite Z.log2_lor by lia. rewrite Z.log2_pow2 by lia.
  apply Z.max_lub_lt; [| lia].
  destruct (Z.eq_dec e 0) as [-> | ?]; [simpl; lia |].
  apply Z.log2_lt_pow2; lia.
Qed.

Lemma lor_pow2_mod (e m k : Z) :
  0 <= k <= m -> Z.lor e (2 ^ m) mod 2 ^ k = e mod 2 ^ k.
Proof.
  intros Hk. rewrite <- !Z.land_ones by lia.
  rewrite Z.land_lor_distr_l.
  assert (H0 : Z.land (2 ^ m) (Z.ones k) = 0).
  { rewrite Z.land_ones by lia.
    replace m with (k + (m - k)) by lia. rewrite Z.pow_add_r by lia.
    rewrite Z.mul_comm. apply Z_mod_mult. }
  rewrite H0. apply Z.lor_0_r.
Qed.

Lemma encoded_bit (T : Np.IntType) (c n e : Z) :
  0 <= c <= 2 -> encoded T n e ->
  encoded T n (Z.lor e (2 ^ (Np.itemsize T * 8 - 2 - c))).
Proof.
  intros Hc [He Hn]. unfold encoded.
  assert (Hb : 32 <= Np.bits T) by (destruct T; unfold Np.bits; simpl; lia).
  change (Np.itemsize T * 8) with (Np.bits T).
  split.
  - apply lor_pow2_bound; [exact He | lia].
  - rewrite lor_pow2_mod by lia. exact Hn.
Qed.

Lemma encoded_node (T : Np.IntType) (n : Z) :
  0 <= n < 2 ^ (Np.bits T - 4) -> encoded T n n.
Proof.
  intros Hn. split.
  - rewrite pow2_bits. lia.
  - apply Z.mod_small. exact Hn.
Qed.

Lemma encoded_below (T : Np.IntType) (n e : Z) :
  encoded T n e -> n + 1 < 2 ^ (Np.bits T - 4) -> 0 <= e /\ e + 1 < 2 ^ (Np.bits T - 1).
Proof.
  intros [He Hn] Hlt. split; [lia |].
  rewrite pow2_bits in *.
  assert (Hp : 0 < 2 ^ (Np.bits T - 4)) by (destruct T; reflexivity).
  set (p := 2 ^ (Np.bits T - 4)) in *.
  pose proof (Z.div_mod e p ltac:(lia)) as Hdm. rewrite Hn in Hdm.
  assert (e / p < 8) by (apply Z.div_lt_upper_bound; lia).
  nia.
Qed.

(** The lookup table of a cache miss on a mesh that is not extruded,
    below the node count that [get_node_set] allows: the table has the
    negated entry of [negids] at every constrained node and the node
    itself everywhere else. *)
Lemma node_list_bc_table (T : Np.IntType) (self : FunctionSpaceData)
    (lbcs : list DirichletBC) :
  fsd_extruded self = false ->
  Op2.total_size (node_set self) < 2 ^ (Np.bits T - 4) ->
  explicit_nodes lbcs <> [] ->
  Forall wf_bc lbcs ->
  existsb (oversized (decorate_of lbcs)) lbcs = false ->
  (forall n, In n (constrained_nodes lbcs) -> 0 <= n < Op2.total_size (node_set self)) ->
  exists bcids negids table,
    reduce Np.union1d (explicit_nodes lbcs) = Ok bcids
    /\ encode_nodes T lbcs (explicit_nodes lbcs) = Ok (bcids, negids)
    /\ length negids = length bcids
    /\ (forall n, In n bcids <-> In n (constrained_nodes lbcs))
    /\ node_list_bc T self lbcs (explicit_nodes lbcs) = Ok table
    /\ length table = Z.to_nat (Op2.total_size (node_set self))
    /\ (forall k n e, bcids !! k = Some n -> negids !! k = Some e ->
          encoded T n e /\ table !! Z.to_nat n = Some (Np.neg T (Np.add T e 1)))
    /\ (forall n, 0 <= n < Op2.total_size (node_set self) ->
          ~ In n (constrained_nodes lbcs) -> table !! Z.to_nat n = Some n).
Proof.
  intros Hext Hlimit Hne Hwf Hsize Hrange.
  destruct (encode_nodes_cases T (encoded T) (encoded_bit T) lbcs Hne Hwf)
    as (bcids & Hred & Hin & Hrun).
  { intros n Hn. apply encoded_node. specialize (Hrange n Hn). lia. }
  rewrite Hsize in Hrun. destruct Hrun as (negids & Hrun & Hlen & HR).
  pose proof (reduce_union1d_sorted _ _ (explicit_nodes_sorted lbcs Hwf) Hred) as Hs.
  unfold node_list_bc. rewrite Hrun. simpl. rewrite Hext.
  set (N := Op2.total_size (node_set self)) in *.
  destruct (setitems_values bcids (map (fun e => Np.neg T (Np.add T e 1)) negids)
              (Np.arange N)) as (table & Hset & Hlen' & Hat & Hother).
  { apply List.Forall_forall. intros i Hi. apply Hin, Hrange in Hi.
    rewrite length_arange. lia. }
  { exact Hs. }
  { by rewrite length_map. }
  exists bcids, negids, table.
  split; [exact Hred |]. split; [reflexivity |]. split; [exact Hlen |].
  split; [exact Hin |]. split; [exact Hset |].
  split; [by rewrite Hlen', length_arange |]. split.
  - intros k n e Hn He. split; [by apply (HR k) |].
    apply (Hat k); [exact Hn |]. by rewrite list_lookup_fmap, He.
  - intros n Hn Hc. rewrite Hother; [by apply lookup_arange | lia |].
    intros Hb. by apply Hc, Hin.
Qed.

(** C9: on a mesh that is not extruded, whose node count is below
    [2^(indexBits-4)] as [get_node_set] ensures, the construction of
    the lookup table never overflows.  For constraints whose components
    are among the three that have a bit, the encoding returns and the
    table is built; every entry [e] of [negids] has its node in the low
    [indexBits-4] bits, is not negative, and [e + 1] and its negation
    are computed without wrap-around: [e + 1 < 2^(indexBits-1)], the
    addition and the negation in the array's type give the integers
    [e + 1] and [-(e + 1)], and the table holds the negative integer
    [-(e + 1)] at the node. *)
Theorem encode_nodes_exact (T : Np.IntType) (self : FunctionSpaceData)
    (lbcs : list DirichletBC) :
  fsd_extruded self = false ->
  Op2.total_size (node_set self) < 2 ^ (Np.bits T - 4) ->
  explicit_nodes lbcs <> [] ->
  Forall wf_bc lbcs ->
  existsb (oversized (decorate_of lbcs)) lbcs = false ->
  (forall n, In n (constrained_nodes lbcs) -> 0 <= n < Op2.total_size (node_set self)) ->
  exists bcids negids table,
    encode_nodes T lbcs (explicit_nodes lbcs) = Ok (bcids, negids)
    /\ length negids = length bcids
    /\ (forall n, In n bcids <-> In n (constrained_nodes lbcs))
    /\ node_list_bc T self lbcs (explicit_nodes lbcs) = Ok table
    /\ forall k n e, bcids !! k = Some n -> negids !! k = Some e ->
         e mod 2 ^ (Np.bits T - 4) = n
         /\ 0 <= e /\ e + 1 < 2 ^ (Np.bits T - 1)
         /\ Np.add T e 1 = e + 1
         /\ Np.neg T (Np.add T e 1) = - (e + 1)
         /\ Np.representable T (- (e + 1))
         /\ - (e + 1) < 0
         /\ table !! Z.to_nat n = Some (- (e + 1)).
Proof.
  intros Hext Hlimit Hne Hwf Hsize Hrange.
  destruct (node_list_bc_table T self lbcs Hext Hlimit Hne Hwf Hsize Hrange)
    as (bcids & negids & table & _ & Hrun & Hlen & Hin & Htable & _ & Hat & _).
  exists bcids, negids, table. split; [exact Hrun |]. split; [exact Hlen |].
  split; [exact Hin |]. split; [exact Htable |].
  intros k n e Hn He. destruct (Hat k n e Hn He) as [Henc Hlook].
  assert (Hnr : 0 <= n < Op2.total_size (node_set self)).
  { apply Hrange, Hin, list_elem_of_In. by eapply list_elem_of_lookup_2. }
  destruct (encoded_below T n e Henc ltac:(lia)) as [He0 He1].
  destruct (neg_add_exact T e He0 He1) as [Hadd Hneg].
  rewrite Hneg in Hlook. destruct Henc as [_ Hmod].
  unfold Np.representable.
  repeat split; try assumption; lia.
Qed.

Lemma encode_nodes_exact_witness :
  exists bcids negids table,
    encode_nodes Np.Int32 [bc_ends; bc_inner_0] (explicit_nodes [bc_ends; bc_inner_0])
    = Ok (bcids, negids)
    /\ length negids = length bcids
    /\ (forall n, In n bcids <-> In n (constrained_nodes [bc_ends; bc_inner_0]))
    /\ node_list_bc Np.Int32 interval_data [bc_ends; bc_inner_0]
         (explicit_nodes [bc_ends; bc_inner_0]) = Ok table
    /\ forall k n e, bcids !! k = Some n -> negids !! k = Some e ->
         e mod 2 ^ (Np.bits Np.Int32 - 4) = n
         /\ 0 <= e /\ e + 1 < 2 ^ (Np.bits Np.Int32 - 1)
         /\ Np.add Np.Int32 e 1 = e + 1
         /\ Np.neg Np.Int32 (Np.add Np.Int32 e 1) = - (e + 1)
         /\ Np.representable Np.Int32 (- (e + 1))
         /\ - (e + 1) < 0
         /\ table !! Z.to_nat n = Some (- (e + 1)).
Proof.
  apply (encode_nodes_exact Np.Int32 interval_data [bc_ends; bc_inner_0]).
  - reflexivity.
  - reflexivity.
  - simpl. discriminate.
  - repeat constructor; simpl; lia.
  - reflexivity.
  - intros n Hn. change (Op2.total_size (node_set interval_data)) with 4.
    vm_compute in Hn. intuition lia.
Defined.

Example interval_table :
  node_list_bc Np.Int32 interval_data [bc_ends; bc_inner_0]
    (explicit_nodes [bc_ends; bc_inner_0])
  = Ok [- (2 ^ 30 + 2 ^ 29 + 2 ^ 28 + 1); - (2 ^ 30 + 1 + 1); 2;
        - (2 ^ 30 + 2 ^ 29 + 2 ^ 28 + 3 + 1)].
Proof. vm_compute. reflexivity. Qed.

Example interval_encoding :
  encode_nodes Np.Int32 [bc_ends; bc_inner_0] (explicit_nodes [bc_ends; bc_inner_0])
  = Ok ([0; 1; 3], [2 ^ 30 + 2 ^ 29 + 2 ^ 28; 2 ^ 30 + 1; 2 ^ 30 + 2 ^ 29 + 2 ^ 28 + 3]).
Proof. vm_compute. reflexivity. Qed.

(** ** Constraints on a scalar space *)

Lemma constrained_nodes_In (bcs : list DirichletBC) (n : Z) :
  In n (constrained_nodes bcs)
  <-> exists bc, In bc bcs /\ is_explicit bc = true /\ In n (bc_nodes bc).
Proof.
  unfold constrained_nodes, explicit_nodes. rewrite in_concat. split.
  - intros (l & Hl & Hn). apply in_map_iff in Hl. destruct Hl as (bc & <- & Hbc).
    apply filter_In in Hbc. destruct Hbc. by exists bc.
  - intros (bc & Hbc & Hexp & Hn). exists (bc_nodes bc). split; [| exact Hn].
    apply in_map, filter_In. by split.
Qed.

Lemma constrain_entry_perm (bcs1 bcs2 : list DirichletBC) (n : Z) :
  Permutation bcs1 bcs2 -> constrain_entry bcs1 n = constrain_entry bcs2 n.
Proof.
  intros Hperm. unfold constrain_entry.
  assert (Hiff : n ∈ constrained_nodes bcs1 <-> n ∈ constrained_nodes bcs2).
  { rewrite !list_elem_of_In, !constrained_nodes_In.
    split; intros (bc & Hbc & H); exists bc; (split; [| exact H]).
    - by apply (Permutation_in _ Hperm).
    - by apply (Permutation_in _ (Permutation_sym Hperm)). }
  destruct (decide (n ∈ constrained_nodes bcs1)), (decide (n ∈ constrained_nodes bcs2));
    tauto.
Qed.

Lemma decorate_of_plain (lbcs : list DirichletBC) :
  Forall plain lbcs -> decorate_of lbcs = false.
Proof.
  unfold decorate_of. induction 1 as [| bc lbcs Hbc _ IH]; simpl; [reflexivity |].
  rewrite IH. unfold plain in Hbc. rewrite Hbc.
  rewrite bool_decide_eq_false_2; [reflexivity |]. by intros [? ?].
Qed.

Lemma encode_plain (T : Np.IntType) (bcids : list Z) (lbcs : list DirichletBC)
    (negids : list Z) :
  Forall plain lbcs -> for_each (encode_bc T false bcids) lbcs negids = Ok negids.
Proof.
  induction 1 as [| bc lbcs Hbc _ IH]; simpl; [reflexivity |].
  unfold encode_bc at 1. unfold plain in Hbc. rewrite Hbc. simpl.
  destruct (is_top_bottom (bc_sub_domain bc)); simpl; exact IH.
Qed.

Lemma new_entity_node_list_plain (T : Np.IntType) (self : FunctionSpaceData)
    (entity_set : EntitySet) (lbcs : list DirichletBC) :
  fsd_extruded self = false ->
  Op2.total_size (node_set self) < 2 ^ (Np.bits T - 4) ->
  Forall plain lbcs ->
  (forall n, In n (constrained_nodes lbcs) -> 0 <= n < Op2.total_size (node_set self)) ->
  Forall (Forall (fun n => 0 <= n < Op2.total_size (node_set self)))
    (entity_node_lists self entity_set) ->
  new_entity_node_list T self entity_set lbcs
  = Ok (map (map (constrain_entry lbcs)) (entity_node_lists self entity_set)).
Proof.
  intros Hext Hlimit Hplain Hrange Hentries.
  set (N := Op2.total_size (node_set self)) in *.
  unfold new_entity_node_list. fold (explicit_nodes lbcs).
  destruct (explicit_nodes lbcs) as [| a ls] eqn:Hnodes.
  - f_equal. symmetry. erewrite map_ext; [apply map_id |].
    intros row. erewrite map_ext; [apply map_id |].
    intros n. unfold constrain_entry, constrained_nodes. rewrite Hnodes. reflexivity.
  - rewrite <- Hnodes. unfold node_list_bc, encode_nodes.
    destruct (reduce Np.union1d (explicit_nodes lbcs)) as [bcids | e] eqn:Hred.
    2: { rewrite Hnodes in Hred. discriminate. }
    simpl. rewrite (decorate_of_plain lbcs Hplain), (encode_plain T bcids lbcs bcids Hplain).
    simpl. rewrite Hext. fold N.
    assert (Hin : forall n, In n bcids <-> In n (constrained_nodes lbcs))
      by (intros n; by apply reduce_union1d_In).
    assert (Hidx : Forall (fun i => 0 <= i < Z.of_nat (length (Np.arange N))) bcids).
    { apply Forall_forall. intros i Hi. apply list_elem_of_In, Hin, Hrange in Hi.
      rewrite length_arange. lia. }
    destruct (setitems_by_index (fun e => Np.neg T (Np.add T e 1)) bcids (Np.arange N) Hidx)
      as (table & Hset & Hlen & Hval).
    rewrite Hset. simpl. rewrite length_arange in Hlen, Hval.
    rewrite take2_in_range.
    2: { eapply Forall_impl; [exact Hentries |]. intros row Hrow.
         eapply Forall_impl; [exact Hrow |]. simpl. intros n Hn. lia. }
    f_equal. apply Forall_fmap_ext_1.
    eapply Forall_impl; [exact Hentries |]. intros row Hrow.
    apply Forall_fmap_ext_1. eapply Forall_impl; [exact Hrow |]. simpl. intros n Hn.
    rewrite Hval by lia. rewrite lookup_arange by exact Hn.
    unfold constrain_entry.
    destruct (decide (n ∈ bcids)) as [Hb | Hb], (decide (n ∈ constrained_nodes lbcs))
      as [Hc | Hc]; simpl.
    + destruct (neg_add_exact T n) as [_ ->]; [lia | rewrite pow2_bits; lia | reflexivity].
    + exfalso. apply Hc, list_elem_of_In, Hin, list_elem_of_In, Hb.
    + exfalso. apply Hb, list_elem_of_In, Hin, list_elem_of_In, Hc.
    + reflexivity.
Qed.

(** The node set that [get_node_set] returns for a mesh that is not
    extruded is below the limit that the encoding needs. *)
Lemma get_node_set_below_limit (T : Np.IntType) (mesh : MeshTopology)
    (numbering_cache : dict (list Z) PetscSection) (nodes_per_entity : list Z)
    (s : Op2.Set_) :
  get_node_set T mesh numbering_cache nodes_per_entity = Ok s ->
  cell_set_extruded mesh = false ->
  Op2.total_size s < 2 ^ (Np.bits T - 4).
Proof.
  unfold get_node_set. rewrite cached_numbering. simpl.
  rewrite shiftl_1_limit. intros Hs Hext. rewrite Hext in Hs. simpl in Hs.
  case_bool_decide; simpl in Hs; [| discriminate].
  destruct (Z.leb_spec (2 ^ (Np.bits T - 4)) (Op2.total_size (Op2.mkSet
              (node_classes mesh nodes_per_entity) None))); [discriminate |].
  injection Hs as <-. assumption.
Qed.

(** C1: for a scalar function space on a mesh that is not extruded,
    [get_map] with explicit constraints (one or more; none leaves the
    array as it is) returns a map whose array is
    the entity->node array in which every entry [n] that is a node of
    one of the constraints is replaced by [-(n+1)] and every other entry
    is unchanged; negating a replaced entry and subtracting 1 gives [n]
    back.  The store is one that [get_map] has made, and the name given
    for the map holds no [%]: the code puts it into the format of the
    map's name, where a [%] raises or is rewritten. *)
Theorem get_map_scalar_constraints (T : Np.IntType) (self : FunctionSpaceData)
    (V : FunctionSpace) (entity_set : EntitySet) (map_arity : Z)
    (bcs : list DirichletBC) (name : string) (offset : option (list Z))
    (parent : option nat) (st : MapStore) :
  fsd_extruded self = false ->
  fs_len V = 1%nat ->
  plain_name name = true ->
  Op2.total_size (node_set self) < 2 ^ (Np.bits T - 4) ->
  cache_consistent T self st ->
  Forall (scalar_bc self V) bcs ->
  Forall (Forall (fun n => 0 <= n < Op2.total_size (node_set self)))
    (entity_node_lists self entity_set) ->
  exists a st',
    get_map T self V entity_set map_arity (Some bcs) name offset parent st = (Ok a, st')
    /\ map_values_of st' a
       = Some (map (map (constrain_entry bcs)) (entity_node_lists self entity_set))
    /\ forall n,
         (In n (constrained_nodes bcs) ->
          constrain_entry bcs n = - (n + 1) /\ - constrain_entry bcs n - 1 = n)
         /\ (~ In n (constrained_nodes bcs) -> constrain_entry bcs n = n).
Proof.
  intros Hext Hlen Hname Hlimit Hinv Hbcs Hentries.
  assert (Hexp : Forall (fun bc => is_explicit bc = true) bcs)
    by (eapply Forall_impl; [exact Hbcs |]; by intros bc (? & _)).
  assert (Hsplit : split_bcs (Some bcs) = (bcs, None)) by (by apply split_bcs_explicit).
  set (lbcs := sorted_by hash_leb bcs).
  assert (Hperm : Permutation lbcs bcs) by apply sorted_by_perm.
  assert (Hvals : new_entity_node_list T self entity_set lbcs
                  = Ok (map (map (constrain_entry bcs))
                          (entity_node_lists self entity_set))).
  { rewrite (new_entity_node_list_plain T self entity_set lbcs Hext Hlimit).
    - f_equal. apply map_ext. intros row. apply map_ext. intros n.
      by apply constrain_entry_perm.
    - rewrite Hperm. eapply Forall_impl; [exact Hbcs |]. by intros bc (_ & _ & ? & _).
    - intros n Hn. apply constrained_nodes_In in Hn. destruct Hn as (bc & Hbc & _ & Hn).
      apply (Permutation_in _ Hperm) in Hbc.
      rewrite Forall_forall in Hbcs. apply list_elem_of_In in Hbc.
      destruct (Hbcs bc Hbc) as (_ & _ & _ & Hnodes).
      rewrite Forall_forall in Hnodes. by apply Hnodes, list_elem_of_In.
    - exact Hentries. }
  destruct (get_map_returns T self V entity_set map_arity (Some bcs) name offset parent st
              (map (map (constrain_entry bcs)) (entity_node_lists self entity_set)))
    as (a & st' & Hcall).
  { exact Hlen. }
  { exact Hname. }
  { rewrite Hsplit. simpl. eapply Forall_impl; [exact Hbcs |]. by intros bc (_ & ? & _). }
  { rewrite Hsplit. exact Hvals. }
  exists a, st'. split; [exact Hcall |]. split.
  - destruct (get_map_consistent _ _ _ _ _ _ _ _ _ _ _ _ Hinv Hcall) as [_ Hat].
    destruct (Hat a eq_refl) as (vals & Hvals' & Hat').
    rewrite Hsplit in Hvals'. simpl in Hvals'. fold lbcs in Hvals'.
    rewrite Hvals in Hvals'. injection Hvals' as <-. exact Hat'.
  - intros n. unfold constrain_entry.
    destruct (decide (n ∈ constrained_nodes bcs)) as [Hc | Hc];
      rewrite list_elem_of_In in Hc; split; intros Hn; try contradiction;
      try reflexivity.
    split; [reflexivity | lia].
Qed.

(** The store after any call of [get_map] on a store that [get_map]
    has made is again such a store. *)
Lemma get_map_keeps_cache_consistent (T : Np.IntType) (self : FunctionSpaceData)
    (V : FunctionSpace) (entity_set : EntitySet) (map_arity : Z)
    (bcs : option (list DirichletBC)) (name : string) (offset : option (list Z))
    (parent : option nat) (st : MapStore) :
  cache_consistent T self st ->
  cache_consistent T self
    (snd (get_map T self V entity_set map_arity bcs name offset parent st)).
Proof.
  intros Hinv.
  destruct (get_map T self V entity_set map_arity bcs name offset parent st)
    as [r st'] eqn:Hcall.
  by destruct (get_map_consistent _ _ _ _ _ _ _ _ _ _ _ _ Hinv Hcall).
Qed.

Lemma interval_limit : Op2.total_size (node_set interval_data) < 2 ^ (Np.bits Np.Int32 - 4).
Proof. reflexivity. Qed.

Lemma get_map_scalar_constraints_witness :
  exists a st',
    get_map Np.Int32 interval_data interval_V CellSet 2 (Some [bc_right; bc_left])
      "cell_node" None None empty_store = (Ok a, st')
    /\ map_values_of st' a
       = Some (map (map (constrain_entry [bc_right; bc_left]))
                 (entity_node_lists interval_data CellSet))
    /\ forall n,
         (In n (constrained_nodes [bc_right; bc_left]) ->
          constrain_entry [bc_right; bc_left] n = - (n + 1)
          /\ - constrain_entry [bc_right; bc_left] n - 1 = n)
         /\ (~ In n (constrained_nodes [bc_right; bc_left]) ->
             constrain_entry [bc_right; bc_left] n = n).
Proof.
  apply (get_map_scalar_constraints Np.Int32 interval_data interval_V CellSet 2
           [bc_right; bc_left] "cell_node" None None empty_store).
  - reflexivity.
  - reflexivity.
  - reflexivity.
  - exact interval_limit.
  - apply cache_consistent_empty.
  - repeat constructor; simpl; lia.
  - repeat constructor; simpl; lia.
Defined.

Example interval_constrained_cells :
  map (map (constrain_entry [bc_right; bc_left])) (entity_node_lists interval_data CellSet)
  = [[-1; 1]; [1; 2]; [2; -4]].
Proof. vm_compute. reflexivity. Qed.

(** The same two constraints on the column and on a mesh that is not
    extruded: the column gets the sentinel, the flat mesh the encoding
    with the component bits, negated. *)
Example column_map_values :
  let '(r, st) :=
    get_map Np.Int32 column_data column_W CellSet 4 (Some [bc_whole; bc_component])
      "cell_node" (Some [1; 1; 1; 1]) None empty_store in
  r = Ok 1%nat
  /\ heap st !! 1%nat = Some (DecoratedMap 0 true None)
  /\ map_values_of st 1%nat = Some [[sentinel; sentinel; sentinel; 4]].
Proof. vm_compute. repeat split. Qed.

Example interval_map_values :
  let '(r, st) :=
    get_map Np.Int32 interval_data interval_V3 CellSet 2 (Some [bc_inner_0; bc_ends])
      "cell_node" None None empty_store in
  r = Ok 1%nat
  /\ map_values_of st 1%nat
     = Some [[- (2 ^ 30 + 2 ^ 29 + 2 ^ 28 + 1); - (2 ^ 30 + 1 + 1)];
             [- (2 ^ 30 + 1 + 1); 2];
             [2; - (2 ^ 30 + 2 ^ 29 + 2 ^ 28 + 3 + 1)]].
Proof. vm_compute. repeat split. Qed.

(** ** The whole boundary, on any mesh without variable layers *)

(** Whatever the space and the collaborators, as long as the cache
    holds no entry for ["on_boundary"] (and none is ever added, since
    the call never returns), [boundary_nodes] raises and leaves the
    caches as they are. *)
Lemma boundary_nodes_on_boundary_raises (T : Np.IntType) (env : Collaborators)
    (mesh : MeshTopology) (V : Space) (method : string) (c : BoundaryCaches) :
  variable_layers mesh = false ->
  (forall edk, getitem (boundary_cache c) (edk, on_boundary, method) = Raise KeyError) ->
  exists e, boundary_nodes T env mesh V on_boundary method c = (Raise e, c).
Proof.
  intros Hvl Hmiss. unfold boundary_nodes.
  destruct (negb _); [by exists ValueError |].
  change (is_top_bottom on_boundary) with false. cbv iota.
  rewrite bool_decide_eq_true_2 by reflexivity.
  rewrite (entity_dofs_key_value tuple_leb). unfold cached. rewrite Hmiss.
  rewrite get_boundary_nodes_on_boundary by exact Hvl.
  destruct c as [tb b]. simpl.
  destruct (exterior_facet_boundary_node_map env V method) as [m | e];
    [by exists UnboundLocalError | by exists e].
Qed.

(** ** The sentinel of extruded meshes *)

Lemma existsb_perm {A : Type} (f : A -> bool) (l1 l2 : list A) :
  Permutation l1 l2 -> existsb f l1 = existsb f l2.
Proof.
  induction 1 as [| x l1 l2 _ IH | x y l | l1 l2 l3 _ IH1 _ IH2]; simpl.
  - reflexivity.
  - by rewrite IH.
  - by destruct (f x), (f y).
  - by rewrite IH1.
Qed.

Lemma split_bcs_mixed (bcs : list DirichletBC) :
  Exists (fun bc => is_explicit bc = true) bcs ->
  Exists (fun bc => is_explicit bc = false) bcs ->
  split_bcs (Some bcs)
  = (bcs, Some (map (fun bc => (bc_sub_domain bc, bc_method bc))
                  (List.filter (fun bc => is_top_bottom (bc_sub_domain bc)) bcs))).
Proof.
  intros Hex Him. unfold split_bcs.
  apply List.Exists_exists in Hex as (e & He & Hexp).
  apply List.Exists_exists in Him as (i & Hi & Himp).
  assert (H1 : In e (List.filter is_explicit bcs)) by (by apply filter_In).
  assert (H2 : In i (List.filter (fun bc => is_top_bottom (bc_sub_domain bc)) bcs)).
  { apply filter_In. split; [exact Hi |]. unfold is_explicit in Himp.
    by destruct (is_top_bottom (bc_sub_domain i)). }
  destruct (List.filter is_explicit bcs); [destruct H1 |].
  destruct (List.filter (fun bc => is_top_bottom (bc_sub_domain bc)) bcs); [destruct H2 |].
  reflexivity.
Qed.

Lemma new_entity_node_list_sentinel (T : Np.IntType) (self : FunctionSpaceData)
    (entity_set : EntitySet) (lbcs : list DirichletBC) :
  fsd_extruded self = true ->
  explicit_nodes lbcs <> [] ->
  Forall wf_bc lbcs ->
  existsb (oversized (decorate_of lbcs)) lbcs = false ->
  (forall n, In n (constrained_nodes lbcs) -> 0 <= n < Op2.total_size (node_set self)) ->
  Forall (Forall (fun n => 0 <= n < Op2.total_size (node_set self)))
    (entity_node_lists self entity_set) ->
  new_entity_node_list T self entity_set lbcs
  = Ok (map (map (fun n => if decide (n ∈ constrained_nodes lbcs) then sentinel else n))
          (entity_node_lists self entity_set)).
Proof.
  intros Hext Hne Hwf Hsize Hrange Hentries.
  set (N := Op2.total_size (node_set self)) in *.
  unfold new_entity_node_list. fold (explicit_nodes lbcs).
  destruct (explicit_nodes lbcs) as [| a ls] eqn:Hnodes; [contradiction |].
  rewrite <- Hnodes. unfold node_list_bc.
  destruct (encode_nodes_cases T (fun _ _ => True) (fun _ _ _ _ _ => I) lbcs)
    as (bcids & _ & Hin & Hrun); [congruence | exact Hwf | done |].
  rewrite Hsize in Hrun. destruct Hrun as (negids & -> & _). simpl. rewrite Hext. fold N.
  assert (Hidx : Forall (fun i => 0 <= i < Z.of_nat (length (Np.arange N))) bcids).
  { apply Forall_forall. intros i Hi. apply list_elem_of_In, Hin, Hrange in Hi.
    rewrite length_arange. lia. }
  destruct (setitems_by_index (fun _ => sentinel) bcids (Np.arange N) Hidx)
    as (table & Hset & Hlen & Hval).
  unfold Np.setitems_scalar. change (-10000000) with sentinel.
  rewrite Hset. simpl. rewrite length_arange in Hlen, Hval.
  rewrite take2_in_range.
  2: { eapply Forall_impl; [exact Hentries |]. intros row Hrow.
       eapply Forall_impl; [exact Hrow |]. simpl. intros n Hn. lia. }
  f_equal. apply Forall_fmap_ext_1.
  eapply Forall_impl; [exact Hentries |]. intros row Hrow.
  apply Forall_fmap_ext_1. eapply Forall_impl; [exact Hrow |]. simpl. intros n Hn.
  rewrite Hval by lia. rewrite lookup_arange by exact Hn.
  destruct (decide (n ∈ bcids)) as [Hb | Hb], (decide (n ∈ constrained_nodes lbcs))
    as [Hc | Hc]; simpl; try reflexivity; exfalso.
  - apply Hc, list_elem_of_In, Hin, list_elem_of_In, Hb.
  - apply Hb, list_elem_of_In, Hin, list_elem_of_In, Hc.
Qed.

Lemma constrained_nodes_perm (bcs1 bcs2 : list DirichletBC) (n : Z) :
  Permutation bcs1 bcs2 ->
  In n (constrained_nodes bcs1) <-> In n (constrained_nodes bcs2).
Proof.
  intros Hp. rewrite !constrained_nodes_In.
  split; intros (bc & Hbc & H); exists bc; (split; [| exact H]).
  - by apply (Permutation_in _ Hp).
  - by apply (Permutation_in _ (Permutation_sym Hp)).
Qed.

Lemma split_bcs_with_explicit (bcs : list DirichletBC) :
  Exists (fun bc => is_explicit bc = true) bcs -> fst (split_bcs (Some bcs)) = bcs.
Proof.
  intros Hex. unfold split_bcs.
  apply List.Exists_exists in Hex as (e & He & Hexp).
  assert (H1 : In e (List.filter is_explicit bcs)) by (by apply filter_In).
  by destruct (List.filter is_explicit bcs); [destruct H1 |].
Qed.

(** The array of a cache miss on an extruded mesh, for the constraints
    as the caller gives them: [get_map] sorts them first. *)
Lemma new_entity_node_list_sorted_sentinel (T : Np.IntType) (self : FunctionSpaceData)
    (entity_set : EntitySet) (bcs : list DirichletBC) :
  fsd_extruded self = true ->
  Exists (fun bc => is_explicit bc = true) bcs ->
  Forall wf_bc bcs ->
  existsb (oversized (decorate_of bcs)) bcs = false ->
  (forall n, In n (constrained_nodes bcs) -> 0 <= n < Op2.total_size (node_set self)) ->
  Forall (Forall (fun n => 0 <= n < Op2.total_size (node_set self)))
    (entity_node_lists self entity_set) ->
  let lbcs := sorted_by hash_leb bcs in
  explicit_nodes lbcs <> []
  /\ Forall wf_bc lbcs
  /\ existsb (oversized (decorate_of lbcs)) lbcs = false
  /\ (forall n, In n (constrained_nodes lbcs) <-> In n (constrained_nodes bcs))
  /\ new_entity_node_list T self entity_set lbcs
     = Ok (map (map (fun n => if decide (n ∈ constrained_nodes bcs) then sentinel else n))
             (entity_node_lists self entity_set)).
Proof.
  intros Hext Hex Hwf Hsize Hrange Hentries lbcs.
  pose proof (sorted_by_perm hash_leb bcs) as Hperm. fold lbcs in Hperm.
  assert (Hne : explicit_nodes lbcs <> []).
  { apply List.Exists_exists in Hex as (e & He & Hexp).
    intros Hnil. unfold explicit_nodes in Hnil. apply map_eq_nil in Hnil.
    assert (Hin : In e (List.filter is_explicit lbcs)).
    { apply filter_In. split; [| exact Hexp]. by apply (sorted_by_In hash_leb). }
    rewrite Hnil in Hin. destruct Hin. }
  assert (Hwf' : Forall wf_bc lbcs) by (by rewrite Hperm).
  assert (Hsize' : existsb (oversized (decorate_of lbcs)) lbcs = false).
  { unfold decorate_of in *.
    rewrite (existsb_perm _ _ _ Hperm). rewrite (existsb_perm _ _ _ Hperm). exact Hsize. }
  assert (Hnodes : forall n, In n (constrained_nodes lbcs) <-> In n (constrained_nodes bcs))
    by (intros n; by apply constrained_nodes_perm).
  split; [exact Hne |]. split; [exact Hwf' |]. split; [exact Hsize' |].
  split; [exact Hnodes |].
  rewrite (new_entity_node_list_sentinel T self entity_set lbcs Hext Hne Hwf' Hsize').
  - f_equal. apply map_ext. intros row. apply map_ext. intros n.
    destruct (decide (n ∈ constrained_nodes lbcs)) as [H1 | H1],
      (decide (n ∈ constrained_nodes bcs)) as [H2 | H2]; try reflexivity; exfalso.
    + apply H2, list_elem_of_In, Hnodes, list_elem_of_In, H1.
    + apply H1, list_elem_of_In, Hnodes, list_elem_of_In, H2.
  - intros n Hn. by apply Hrange, Hnodes.
  - exact Hentries.
Qed.

(** C4: on an extruded mesh [get_map] with explicit constraints (one or
    more, with or without top and bottom constraints beside them)
    builds the lookup table with the one value [-10000000] at every
    constrained node, whatever the components of the constraints, and
    the node itself everywhere else; the map that is returned has the
    entity->node array read through that table, so every entry that is
    a constrained node holds the same negative value and the component
    of the constraint is nowhere in it.  The name given for the map
    holds no [%] and the store is one that [get_map] has made. *)
Theorem get_map_extruded_sentinel (T : Np.IntType) (self : FunctionSpaceData)
    (V : FunctionSpace) (entity_set : EntitySet) (map_arity : Z)
    (bcs : list DirichletBC) (name : string) (offset : option (list Z))
    (parent : option nat) (st : MapStore) :
  fsd_extruded self = true ->
  fs_len V = 1%nat ->
  plain_name name = true ->
  cache_consistent T self st ->
  Exists (fun bc => is_explicit bc = true) bcs ->
  Forall (targets V) bcs ->
  Forall wf_bc bcs ->
  existsb (oversized (decorate_of bcs)) bcs = false ->
  (forall n, In n (constrained_nodes bcs) -> 0 <= n < Op2.total_size (node_set self)) ->
  Forall (Forall (fun n => 0 <= n < Op2.total_size (node_set self)))
    (entity_node_lists self entity_set) ->
  exists a st' table,
    get_map T self V entity_set map_arity (Some bcs) name offset parent st = (Ok a, st')
    /\ node_list_bc T self (sorted_by hash_leb bcs)
         (explicit_nodes (sorted_by hash_leb bcs)) = Ok table
    /\ (forall n, 0 <= n < Op2.total_size (node_set self) ->
          table !! Z.to_nat n
          = Some (if decide (n ∈ constrained_nodes bcs) then sentinel else n))
    /\ map_values_of st' a
       = Some (map (map (fun n => if decide (n ∈ constrained_nodes bcs)
                                  then sentinel else n))
                 (entity_node_lists self entity_set))
    /\ sentinel < 0.
Proof.
  intros Hext Hlen Hname Hinv Hex Htargets Hwf Hsize Hrange Hentries.
  pose proof (split_bcs_with_explicit bcs Hex) as Hsplit.
  destruct (new_entity_node_list_sorted_sentinel T self entity_set bcs Hext Hex Hwf Hsize
              Hrange Hentries) as (Hne & Hwf' & Hsize' & Hnodes & Hvals).
  destruct (get_map_returns T self V entity_set map_arity (Some bcs) name offset parent st
              (map (map (fun n => if decide (n ∈ constrained_nodes bcs)
                                  then sentinel else n))
                 (entity_node_lists self entity_set)) Hlen Hname) as (a & st' & Hcall).
  { by rewrite Hsplit. }
  { rewrite Hsplit. exact Hvals. }
  destruct (node_list_bc_extruded T self (sorted_by hash_leb bcs) Hext Hne Hwf' Hsize')
    as (table & Htable & _ & Hat).
  { intros n Hn. by apply Hrange, Hnodes. }
  exists a, st', table. split; [exact Hcall |]. split; [exact Htable |]. split.
  { intros n Hn. rewrite (Hat n Hn).
    destruct (decide (n ∈ constrained_nodes (sorted_by hash_leb bcs))) as [H1 | H1],
      (decide (n ∈ constrained_nodes bcs)) as [H2 | H2]; try reflexivity; exfalso.
    - apply H2, list_elem_of_In, Hnodes, list_elem_of_In, H1.
    - apply H1, list_elem_of_In, Hnodes, list_elem_of_In, H2. }
  split; [| reflexivity].
  destruct (get_map_consistent _ _ _ _ _ _ _ _ _ _ _ _ Hinv Hcall) as [_ Hvalues].
  destruct (Hvalues a eq_refl) as (vals & Hvals' & Hmap).
  rewrite Hsplit, Hvals in Hvals'. by injection Hvals' as <-.
Qed.

Lemma get_map_extruded_sentinel_witness :
  exists a st' table,
    get_map Np.Int32 column_data column_W ExteriorFacetSet 4
      (Some [bc_component; bc_whole]) "exterior_facet_node" (Some [1; 1; 1; 1]) None
      empty_store = (Ok a, st')
    /\ node_list_bc Np.Int32 column_data (sorted_by hash_leb [bc_component; bc_whole])
         (explicit_nodes (sorted_by hash_leb [bc_component; bc_whole])) = Ok table
    /\ (forall n, 0 <= n < Op2.total_size (node_set column_data) ->
          table !! Z.to_nat n
          = Some (if decide (n ∈ constrained_nodes [bc_component; bc_whole])
                  then sentinel else n))
    /\ map_values_of st' a
       = Some (map (map (fun n => if decide (n ∈ constrained_nodes [bc_component; bc_whole])
                                  then sentinel else n))
                 (entity_node_lists column_data ExteriorFacetSet))
    /\ sentinel < 0.
Proof.
  apply (get_map_extruded_sentinel Np.Int32 column_data column_W ExteriorFacetSet 4
           [bc_component; bc_whole] "exterior_facet_node" (Some [1; 1; 1; 1]) None
           empty_store).
  - reflexivity.
  - reflexivity.
  - reflexivity.
  - apply cache_consistent_empty.
  - apply Exists_cons_hd. reflexivity.
  - repeat constructor.
  - repeat constructor; simpl; lia.
  - reflexivity.
  - intros n Hn. change (Op2.total_size (node_set column_data)) with 6.
    vm_compute in Hn. intuition lia.
  - change (Op2.total_size (node_set column_data)) with 6.
    change (entity_node_lists column_data ExteriorFacetSet)
      with [[0; 1; 3; 4]; [0; 1; 3; 4]].
    repeat constructor; lia.
Defined.

(** * Further properties of the module *)

(** ** The [cached] decorator *)

Lemma getitem_app_l {K V : Type} `{EqDecision K} (d d' : dict K V) (k : K) (v : V) :
  getitem d k = Ok v -> getitem (d ++ d') k = Ok v.
Proof.
  induction d as [| [k0 v0] d IH]; simpl; [discriminate |].
  destruct (decide (k0 = k)); [trivial | exact IH].
Qed.

Lemma getitem_app_new {K V : Type} `{EqDecision K} (d : dict K V) (k k' : K) (v : V)
    (e : exn) :
  getitem d k = Raise e ->
  getitem (d ++ [(k, v)]) k' = if decide (k = k') then Ok v else getitem d k'.
Proof.
  induction d as [| [k0 v0] d IH]; simpl; intros Hk.
  - destruct (decide (k = k')); reflexivity.
  - destruct (decide (k0 = k)) as [-> | Hne]; [discriminate |].
    destruct (decide (k0 = k')) as [-> | Hne'].
    + by rewrite decide_False by congruence.
    + by apply IH.
Qed.


(** X2: [cached] only ever adds the entry of its own key: every entry
    of the cache is still there after the call, with its value, and the
    lookup of any other key is as before. *)
Theorem cached_append_only {K V : Type} `{EqDecision K} (f : K -> result V)
    (key : K) (cache : dict K V) :
  (forall k v, getitem cache k = Ok v -> getitem (snd (cached f key cache)) k = Ok v)
  /\ (forall k, k <> key -> getitem (snd (cached f key cache)) k = getitem cache k).
Proof.
  unfold cached.
  destruct (getitem cache key) as [v0 | e] eqn:Hget; simpl; [by split |].
  rewrite (getitem_raise_KeyError _ _ _ Hget).
  destruct (f key) as [r |]; simpl; [| by split].
  split.
  - intros k v Hk. by apply getitem_app_l.
  - intros k Hne. rewrite (getitem_app_new _ _ k r _ Hget).
    by rewrite decide_False by congruence.
Qed.

(** ** [get_map]: the cache key, implicit constraints, refusals *)

Lemma check_bcs_fail (V : FunctionSpace) (bcs : list DirichletBC) :
  Exists (fun bc => ~ targets V bc) bcs ->
  for_each (check_bc V) bcs tt = Raise RuntimeError.
Proof.
  induction bcs as [| bc bcs IH]; intros Hex; [by inversion Hex |].
  simpl. unfold check_bc at 1. case_bool_decide as Hbc; simpl; [| reflexivity].
  apply IH. inversion Hex as [? ? Hn | ? ? Hrest]; subst; [contradiction | exact Hrest].
Qed.

Lemma split_bcs_implicit (bcs : list DirichletBC) :
  bcs <> [] ->
  Forall (fun bc => is_explicit bc = false) bcs ->
  split_bcs (Some bcs)
  = ([], Some (map (fun bc => (bc_sub_domain bc, bc_method bc)) bcs)).
Proof.
  intros Hne Hall. unfold split_bcs.
  assert (Hexp : List.filter is_explicit bcs = []).
  { clear Hne. induction Hall as [| bc bcs Hbc _ IH]; simpl; [reflexivity |].
    by rewrite Hbc. }
  assert (Himp : List.filter (fun bc => is_top_bottom (bc_sub_domain bc)) bcs = bcs).
  { clear Hexp Hne. induction Hall as [| bc bcs Hbc _ IH]; simpl; [reflexivity |].
    unfold is_explicit in Hbc.
    destruct (is_top_bottom (bc_sub_domain bc)); [by rewrite IH | discriminate]. }
  rewrite Hexp, Himp. simpl. destruct bcs; [contradiction | reflexivity].
Qed.

Lemma cached_address_valid (T : Np.IntType) (self : FunctionSpaceData) (st : MapStore)
    (key : EntitySet * list DirichletBC) (a : nat) :
  cache_consistent T self st -> getitem (map_caches st) key = Ok a ->
  (a < length (heap st))%nat.
Proof.
  intros Hinv Hget. destruct key as [es lbcs].
  destruct (Hinv es lbcs a Hget) as (vals & _ & Hat).
  unfold map_values_of in Hat. cbn [values_at] in Hat.
  destruct (heap st !! a) as [obj |] eqn:Hobj; [| discriminate].
  by eapply lookup_lt_Some.
Qed.

(** What a returning call of [get_map] leaves in the cache: the map of
    the call's key; the call returns it, or a new decoration of it when
    implicit constraints were given. *)
Lemma get_map_cached_after (T : Np.IntType) (self : FunctionSpaceData) (V : FunctionSpace)
    (entity_set : EntitySet) (map_arity : Z) (bcs : option (list DirichletBC))
    (name : string) (offset : option (list Z)) (parent : option nat)
    (st st' : MapStore) (a : nat) :
  cache_consistent T self st ->
  get_map T self V entity_set map_arity bcs name offset parent st = (Ok a, st') ->
  exists base,
    getitem (map_caches st') (entity_set, sorted_by hash_leb (fst (split_bcs bcs)))
    = Ok base
    /\ match snd (split_bcs bcs) with
       | None => a = base
       | Some implicit_bcs =>
           heap st' !! a = Some (DecoratedMap base false (Some implicit_bcs))
           /\ (base < a)%nat /\ (length (heap st) <= a)%nat
       end
    /\ forall k c, getitem (map_caches st') k = Ok c ->
         getitem (map_caches st) k = Ok c \/ c = base.
Proof.
  intros Hinv. unfold get_map.
  destruct (negb (fs_len V =? 1)%nat); [discriminate |].
  destruct (split_bcs bcs) as [bcs' implicit_bcs]. cbn [fst snd].
  destruct (for_each (check_bc V) bcs' tt) as [u | e]; [| discriminate].
  set (lbcs := sorted_by hash_leb bcs').
  destruct (getitem (map_caches st) (entity_set, lbcs)) as [hit | e] eqn:Hget.
  - pose proof (cached_address_valid T self st _ hit Hinv Hget) as Hhit.
    destruct implicit_bcs as [implicit_bcs |]; unfold alloc; simpl;
      intros [= <- <-]; simpl; exists hit; rewrite Hget;
      (split; [reflexivity |]); (split; [| by left]); [| reflexivity].
    rewrite lookup_app_r, Nat.sub_diag by lia. simpl.
    split; [reflexivity | lia].
  - destruct (new_entity_node_list T self entity_set lbcs) as [vals |]; [| discriminate].
    destruct (format_name (fs_name V) name) as [map_name |]; [| discriminate].
    unfold alloc, cache_store. simpl.
    destruct (decorate_of lbcs), implicit_bcs as [implicit_bcs |]; simpl;
      intros [= <- <-]; simpl; eexists; rewrite getitem_setitem_eq;
      (split; [reflexivity |]); split.
    all: try reflexivity.
    all: try (intros k c Hk;
      destruct (decide ((entity_set, lbcs) = k)) as [<- | Hne];
      [rewrite getitem_setitem_eq in Hk; injection Hk as <-; by right
      | rewrite getitem_setitem_ne in Hk by exact Hne; by left]).
    all: repeat rewrite length_app; simpl.
    all: rewrite lookup_app_r by (repeat rewrite length_app; simpl; lia).
    all: repeat rewrite length_app; simpl.
    all: match goal with
         | |- context [(?x - ?y)%nat] => replace (x - y)%nat with 0%nat by lia
         end.
    all: simpl; split; [reflexivity | lia].
Qed.

Lemma get_map_hit (T : Np.IntType) (self : FunctionSpaceData) (V : FunctionSpace)
    (entity_set : EntitySet) (map_arity : Z) (bcs : option (list DirichletBC))
    (name : string) (offset : option (list Z)) (parent : option nat)
    (st : MapStore) (base : nat) :
  fs_len V = 1%nat ->
  Forall (targets V) (fst (split_bcs bcs)) ->
  snd (split_bcs bcs) = None ->
  getitem (map_caches st) (entity_set, sorted_by hash_leb (fst (split_bcs bcs))) = Ok base ->
  get_map T self V entity_set map_arity bcs name offset parent st = (Ok base, st).
Proof.
  intros Hlen Htargets Himp Hget. unfold get_map. rewrite Hlen.
  destruct (split_bcs bcs) as [bcs' implicit_bcs]. cbn [fst snd] in *. subst.
  by rewrite (check_bcs_Ok V bcs' Htargets), Hget.
Qed.

(** X3: without constraints [get_map] hands out one map per entity
    set.  A call with [bcs=None] and a name without [%] returns a map
    whose array is the entity->node array itself, and every later call
    with [None] or with an empty list, whatever the arity, name, offset
    and parent it is given, returns that very map and changes nothing:
    on a hit the name is not looked at. *)
Theorem get_map_unconstrained (T : Np.IntType) (self : FunctionSpaceData)
    (V : FunctionSpace) (entity_set : EntitySet) (map_arity : Z) (name : string)
    (offset : option (list Z)) (parent : option nat) (st : MapStore) :
  fs_len V = 1%nat ->
  plain_name name = true ->
  cache_consistent T self st ->
  exists a st1,
    get_map T self V entity_set map_arity None name offset parent st = (Ok a, st1)
    /\ map_values_of st1 a = Some (entity_node_lists self entity_set)
    /\ forall bcs' arity' name' offset' parent',
         bcs' = None \/ bcs' = Some [] ->
         get_map T self V entity_set arity' bcs' name' offset' parent' st1 = (Ok a, st1).
Proof.
  intros Hlen Hname Hinv.
  destruct (get_map_returns T self V entity_set map_arity None name offset parent st
              (entity_node_lists self entity_set) Hlen Hname) as (a & st1 & Hcall);
    [constructor | reflexivity |].
  exists a, st1. split; [exact Hcall |].
  destruct (get_map_consistent _ _ _ _ _ _ _ _ _ _ _ _ Hinv Hcall) as [_ Hat].
  destruct (Hat a eq_refl) as (vals & Hvals & Hat'). injection Hvals as <-.
  split; [exact Hat' |].
  destruct (get_map_cached_after _ _ _ _ _ _ _ _ _ _ _ _ Hinv Hcall)
    as (base & Hbase & Ha & _). simpl in Hbase, Ha. subst base.
  intros bcs' arity' name' offset' parent' [-> | ->];
    apply get_map_hit; try assumption; try reflexivity; constructor.
Qed.

(** X4: with implicit (top and bottom) constraints only, and a name
    without [%], [get_map] looks up or builds the unconstrained map,
    without checking the function space of the constraints, and returns
    the decoration of it that carries the constraints' sub-domains and
    methods, in the order given.  The map that is cached under the
    empty tuple is the unconstrained one; the decoration has its
    array. *)
Theorem get_map_implicit_only (T : Np.IntType) (self : FunctionSpaceData)
    (V : FunctionSpace) (entity_set : EntitySet) (map_arity : Z)
    (bcs : list DirichletBC) (name : string) (offset : option (list Z))
    (parent : option nat) (st : MapStore) :
  fs_len V = 1%nat ->
  plain_name name = true ->
  cache_consistent T self st ->
  bcs <> [] ->
  Forall (fun bc => is_explicit bc = false) bcs ->
  exists base b st',
    get_map T self V entity_set map_arity (Some bcs) name offset parent st = (Ok b, st')
    /\ getitem (map_caches st') (entity_set, []) = Ok base
    /\ map_values_of st' base = Some (entity_node_lists self entity_set)
    /\ heap st' !! b
       = Some (DecoratedMap base false
                 (Some (map (fun bc => (bc_sub_domain bc, bc_method bc)) bcs)))
    /\ map_values_of st' b = Some (entity_node_lists self entity_set).
Proof.
  intros Hlen Hname Hinv Hne Himp.
  pose proof (split_bcs_implicit bcs Hne Himp) as Hsplit.
  destruct (get_map_returns T self V entity_set map_arity (Some bcs) name offset parent st
              (entity_node_lists self entity_set) Hlen Hname) as (b & st' & Hcall).
  { rewrite Hsplit. constructor. }
  { rewrite Hsplit. reflexivity. }
  destruct (get_map_cached_after _ _ _ _ _ _ _ _ _ _ _ _ Hinv Hcall)
    as (base & Hbase & Hb & Hold).
  rewrite Hsplit in Hbase, Hb. simpl in Hbase, Hb. destruct Hb as (Hobj & Hlt & Hfresh).
  destruct (get_map_consistent _ _ _ _ _ _ _ _ _ _ _ _ Hinv Hcall) as [Hinv' Hat].
  destruct (Hat b eq_refl) as (vals & Hvals & Hat').
  rewrite Hsplit in Hvals. injection Hvals as <-.
  destruct (Hinv' _ _ _ Hbase) as (vals & Hvals & Hbase').
  injection Hvals as <-.
  exists base, b, st'. by repeat split.
Qed.

(** X5: a constraint that enters the cache key and is defined on
    another function space makes [get_map] raise [RuntimeError], before
    the cache is looked at: the store is unchanged, even when a map for
    these constraints is cached. *)
Theorem get_map_foreign_constraint (T : Np.IntType) (self : FunctionSpaceData)
    (V : FunctionSpace) (entity_set : EntitySet) (map_arity : Z)
    (bcs : option (list DirichletBC)) (name : string) (offset : option (list Z))
    (parent : option nat) (st : MapStore) :
  fs_len V = 1%nat ->
  Exists (fun bc => ~ targets V bc) (fst (split_bcs bcs)) ->
  get_map T self V entity_set map_arity bcs name offset parent st
  = (Raise RuntimeError, st).
Proof.
  intros Hlen Hex. unfold get_map. rewrite Hlen.
  destruct (split_bcs bcs) as [bcs' implicit_bcs]. cbn [fst] in Hex.
  by rewrite (check_bcs_fail V bcs' Hex).
Qed.

(** X6: [get_map] only adds.  The heap after a call starts with the
    heap before it, every cached map stays cached under its key at its
    address, and the cache of boundary-node maps is not touched. *)
Theorem get_map_append_only (T : Np.IntType) (self : FunctionSpaceData)
    (V : FunctionSpace) (entity_set : EntitySet) (map_arity : Z)
    (bcs : option (list DirichletBC)) (name : string) (offset : option (list Z))
    (parent : option nat) (st : MapStore) :
  (exists added,
      heap (snd (get_map T self V entity_set map_arity bcs name offset parent st))
      = heap st ++ added)
  /\ (forall k a,
        getitem (map_caches st) k = Ok a ->
        getitem
          (map_caches (snd (get_map T self V entity_set map_arity bcs name offset parent st)))
          k = Ok a)
  /\ boundary_node_cache
       (snd (get_map T self V entity_set map_arity bcs name offset parent st))
     = boundary_node_cache st.
Proof.
  unfold get_map.
  assert (Hsame : (exists added, heap st = heap st ++ added)
                  /\ (forall k a, getitem (map_caches st) k = Ok a ->
                                  getitem (map_caches st) k = Ok a)
                  /\ boundary_node_cache st = boundary_node_cache st).
  { split; [exists []; by rewrite app_nil_r | by split]. }
  destruct (negb (fs_len V =? 1)%nat); [exact Hsame |].
  destruct (split_bcs bcs) as [bcs' implicit_bcs].
  destruct (for_each (check_bc V) bcs' tt) as [u | e]; [| exact Hsame].
  set (lbcs := sorted_by hash_leb bcs').
  destruct (getitem (map_caches st) (entity_set, lbcs)) as [hit | e] eqn:Hget.
  - destruct implicit_bcs; [| exact Hsame]. unfold alloc. simpl.
    split; [by eexists | by split].
  - destruct (new_entity_node_list T self entity_set lbcs) as [vals |]; [| exact Hsame].
    destruct (format_name (fs_name V) name) as [map_name |]; [| exact Hsame].
    unfold alloc, cache_store. simpl.
    destruct (decorate_of lbcs), implicit_bcs; simpl;
      (split; [rewrite <- ?app_assoc; by eexists |]); (split; [| reflexivity]);
      intros k a Hk; rewrite getitem_setitem_ne; try exact Hk; congruence.
Qed.

Lemma get_map_unconstrained_witness :
  exists a st1,
    get_map Np.Int32 interval_data interval_V CellSet 2 None "cell_node" None None
      store_after_first = (Ok a, st1)
    /\ map_values_of st1 a = Some (entity_node_lists interval_data CellSet)
    /\ forall bcs' arity' name' offset' parent',
         bcs' = None \/ bcs' = Some [] ->
         get_map Np.Int32 interval_data interval_V CellSet arity' bcs' name' offset' parent'
           st1 = (Ok a, st1).
Proof.
  apply (get_map_unconstrained Np.Int32 interval_data interval_V CellSet 2 "cell_node"
           None None store_after_first).
  - reflexivity.
  - reflexivity.
  - apply get_map_keeps_cache_consistent, cache_consistent_empty.
Defined.

Lemma get_map_implicit_only_witness :
  exists base b st',
    get_map Np.Int32 column_data column_W CellSet 4 (Some [bc_top; bc_bottom])
      "cell_node" (Some [1; 1; 1; 1]) None empty_store = (Ok b, st')
    /\ getitem (map_caches st') (CellSet, []) = Ok base
    /\ map_values_of st' base = Some (entity_node_lists column_data CellSet)
    /\ heap st' !! b
       = Some (DecoratedMap base false
                 (Some (map (fun bc => (bc_sub_domain bc, bc_method bc))
                          [bc_top; bc_bottom])))
    /\ map_values_of st' b = Some (entity_node_lists column_data CellSet).
Proof.
  apply (get_map_implicit_only Np.Int32 column_data column_W CellSet 4
           [bc_top; bc_bottom] "cell_node" (Some [1; 1; 1; 1]) None empty_store).
  - reflexivity.
  - reflexivity.
  - apply cache_consistent_empty.
  - discriminate.
  - repeat constructor.
Defined.

Lemma get_map_foreign_constraint_witness :
  get_map Np.Int32 interval_data interval_V CellSet 2 (Some [bc_left; bc_five])
    "cell_node" None None store_after_first
  = (Raise RuntimeError, store_after_first).
Proof.
  apply (get_map_foreign_constraint Np.Int32 interval_data interval_V CellSet 2
           (Some [bc_left; bc_five]) "cell_node" None None store_after_first).
  - reflexivity.
  - apply Exists_cons_tl, Exists_cons_hd. vm_compute. discriminate.
Defined.

(** ** Boundary nodes of a tagged sub-domain *)

Lemma where_eq_from_In (a : list Z) (v start i : Z) :
  In i (Np.where_eq_from start a v)
  <-> start <= i /\ a !! Z.to_nat (i - start) = Some v.
Proof.
  revert start. induction a as [| x a IH]; intros start; simpl.
  - split; [tauto | intros [_ H]; by rewrite lookup_nil in H].
  - assert (Hstep : forall P : Prop,
              (P \/ In i (Np.where_eq_from (start + 1) a v))
              <-> (P \/ (start + 1 <= i /\ a !! Z.to_nat (i - (start + 1)) = Some v)))
      by (intros P; by rewrite IH).
    assert (Htail : start + 1 <= i ->
              (x :: a) !! Z.to_nat (i - start) = a !! Z.to_nat (i - (start + 1))).
    { intros Hi. replace (Z.to_nat (i - start)) with (S (Z.to_nat (i - (start + 1))))
        by lia. reflexivity. }
    destruct (Z.eqb_spec x v) as [-> | Hne]; simpl.
    + rewrite Hstep. split.
      * intros [<- | [Hi Hv]]; [by rewrite Z.sub_diag | rewrite Htail by lia; split; [lia | done]].
      * intros [Hi Hv]. destruct (Z.eq_dec start i) as [? | Hne]; [by left | right].
        rewrite Htail in Hv by lia. split; [lia | done].
    + rewrite IH. split.
      * intros [Hi Hv]. rewrite Htail by lia. split; [lia | done].
      * intros [Hi Hv]. destruct (Z.eq_dec start i) as [<- | Hne'].
        { rewrite Z.sub_diag in Hv. simpl in Hv. congruence. }
        rewrite Htail in Hv by lia. split; [lia | done].
Qed.

Lemma where_eq_from_sorted (a : list Z) (v start : Z) :
  StronglySorted Z.lt (Np.where_eq_from start a v).
Proof.
  revert start. induction a as [| x a IH]; intros start; simpl; [constructor |].
  destruct (x =? v); [| apply IH].
  constructor; [apply IH |].
  apply Forall_forall. intros i Hi. apply list_elem_of_In, where_eq_from_In in Hi. lia.
Qed.

Lemma where_eq_In (a : list Z) (v i : Z) :
  In i (Np.where_eq a v) <-> 0 <= i /\ a !! Z.to_nat i = Some v.
Proof. unfold Np.where_eq. rewrite where_eq_from_In. by rewrite Z.sub_0_r. Qed.

(** Two increasing arrays with the same entries are the same array. *)
Lemma increasing_ext (l1 l2 : list Z) :
  StronglySorted Z.lt l1 -> StronglySorted Z.lt l2 ->
  (forall x, In x l1 <-> In x l2) -> l1 = l2.
Proof.
  intros Hs1 Hs2 Hiff.
  assert (Hnodup : forall l, StronglySorted Z.lt l -> NoDup l).
  { induction 1 as [| x l Hl IH Hx]; constructor; [| exact IH].
    intros Hin. rewrite Forall_forall in Hx. specialize (Hx x Hin). lia. }
  apply (StronglySorted_unique_strong Z.lt); try assumption.
  - intros x y _ _ Hxy Hyx. lia.
  - apply NoDup_Permutation; auto. intros x. rewrite !list_elem_of_In. apply Hiff.
Qed.

Lemma lookup_zeros (total : Z) (k : nat) :
  (k < Z.to_nat total)%nat -> Np.zeros total !! k = Some 0.
Proof.
  unfold Np.zeros. generalize (Z.to_nat total). intros n. revert k.
  induction n as [| n IH]; intros k Hk; [lia |].
  destruct k as [| k]; simpl; [reflexivity | apply IH; lia].
Qed.

Lemma setitems_scalar_marked (total : Z) (indices : list Z) :
  Forall (fun i => 0 <= i < total) indices ->
  Np.setitems_scalar (Np.zeros total) indices 1 = Ok (marked total indices).
Proof.
  intros Hrange. unfold Np.setitems_scalar.
  assert (Hlen0 : length (Np.zeros total) = Z.to_nat total)
    by (unfold Np.zeros; apply repeat_length).
  destruct (setitems_by_index (fun _ => 1) indices (Np.zeros total)) as (a & -> & Hlen & Hval).
  { eapply Forall_impl; [exact Hrange |]. simpl. intros i Hi. lia. }
  f_equal. apply list_eq. intros k.
  destruct (Nat.lt_ge_cases k (Z.to_nat total)) as [Hk | Hk].
  - specialize (Hval (Z.of_nat k)). rewrite Nat2Z.id in Hval. rewrite Hval by lia.
    unfold marked. rewrite list_lookup_fmap.
    replace k with (Z.to_nat (Z.of_nat k)) at 3 by lia.
    rewrite lookup_arange by lia. simpl.
    destruct (decide (Z.of_nat k ∈ indices)); [reflexivity |].
    by apply lookup_zeros.
  - rewrite !lookup_ge_None_2; [reflexivity | |].
    + unfold marked. rewrite length_map, length_arange. lia.
    + lia.
Qed.

Lemma map_wrap_small (T : Np.IntType) (l : list Z) :
  Forall (fun i => 0 <= i < 2 ^ (Np.bits T - 1)) l -> map (Np.wrap T) l = l.
Proof.
  induction 1 as [| i l Hi _ IH]; simpl; [reflexivity |].
  rewrite IH, wrap_representable; [reflexivity |]. unfold Np.representable. lia.
Qed.

(** The second half of [get_boundary_nodes]: once [indices] is
    assigned, with nodes of the node set, the result is the positions
    of the exchanged array that hold 1. *)
Lemma get_boundary_nodes_exchange (T : Np.IntType) (env : Collaborators)
    (mesh : MeshTopology) (edk : list (list Z * list (list Z))) (sub_domain : SubDomain)
    (method : string) (V : Space) (indices : list Z) :
  local_boundary_indices T env mesh sub_domain method V = Ok (Some indices) ->
  Forall (fun i => 0 <= i < Op2.total_size (node_set (V_data V))) indices ->
  Op2.total_size (node_set (V_data V)) < 2 ^ (Np.bits T - 1) ->
  (forall d, length (global_to_local env d) = length d) ->
  get_boundary_nodes T env mesh (edk, sub_domain, method) V
  = Ok (Np.where_eq
          (global_to_local env (marked (Op2.total_size (node_set (V_data V))) indices)) 1).
Proof.
  intros Hlocal Hrange Hsmall Hlen. unfold get_boundary_nodes. rewrite Hlocal. simpl.
  rewrite (setitems_scalar_marked _ _ Hrange). simpl. f_equal.
  apply map_wrap_small. apply Forall_forall. intros i Hi.
  apply list_elem_of_In, where_eq_In in Hi. destruct Hi as [Hi0 Hi1].
  apply lookup_lt_Some in Hi1. rewrite Hlen in Hi1.
  unfold marked in Hi1. rewrite length_map, length_arange in Hi1. lia.
Qed.

Lemma where_marked (total : Z) (indices : list Z) :
  StronglySorted Z.lt indices ->
  Forall (fun i => 0 <= i < total) indices ->
  Np.where_eq (marked total indices) 1 = indices.
Proof.
  intros Hs Hrange. apply increasing_ext; [apply where_eq_from_sorted | exact Hs |].
  intros i. rewrite where_eq_In. unfold marked. rewrite list_lookup_fmap. split.
  - intros [Hi Hv].
    destruct (Np.arange total !! Z.to_nat i) as [j |] eqn:Hj; [| discriminate].
    assert (Hlt : i < total).
    { apply lookup_lt_Some in Hj. rewrite length_arange in Hj. lia. }
    rewrite lookup_arange in Hj by lia. injection Hj as <-. simpl in Hv.
    destruct (decide (i ∈ indices)) as [Hin | _]; [by apply list_elem_of_In | discriminate].
  - intros Hin. rewrite Forall_forall in Hrange.
    pose proof (Hrange i ltac:(by apply list_elem_of_In)) as Hi.
    split; [lia |]. rewrite lookup_arange by lia. simpl.
    by rewrite decide_True by (by apply list_elem_of_In).
Qed.

(** X7: on a mesh that is neither extruded nor of variable layers, the
    boundary nodes of a tagged sub-domain are found by marking the
    distinct nodes of the tagged exterior facets, exchanging the marks
    and reading back the positions that hold 1: the result is a strictly
    increasing array, and on one process, where the exchange changes
    nothing, it is exactly the sorted distinct nodes of the tagged
    facets. *)
Theorem get_boundary_nodes_tagged (T : Np.IntType) (env : Collaborators)
    (mesh : MeshTopology) (edk : list (list Z * list (list Z))) (sub_domain : SubDomain)
    (method : string) (V : Space) (nodes : list (list Z)) (offset : option (list Z))
    (rows : list (list Z)) :
  variable_layers mesh = false ->
  fsd_extruded (V_data V) = false ->
  sub_domain <> on_boundary ->
  exterior_facet_boundary_node_map env V method = Ok (nodes, offset) ->
  Np.take_rows nodes (exterior_facets_subset mesh sub_domain) = Ok rows ->
  Forall (Forall (fun n => 0 <= n < Op2.total_size (node_set (V_data V)))) rows ->
  Op2.total_size (node_set (V_data V)) < 2 ^ (Np.bits T - 1) ->
  (forall d, length (global_to_local env d) = length d) ->
  exists l,
    get_boundary_nodes T env mesh (edk, sub_domain, method) V = Ok l
    /\ StronglySorted Z.lt l
    /\ (forall i, In i l <->
          0 <= i
          /\ global_to_local env
               (marked (Op2.total_size (node_set (V_data V))) (Np.unique (concat rows)))
             !! Z.to_nat i = Some 1)
    /\ ((forall d, global_to_local env d = d) -> l = Np.unique (concat rows)).
Proof.
  intros Hvl Hext Hsd Hmap Hrows Hrange Hsmall Hlen.
  set (N := Op2.total_size (node_set (V_data V))) in *.
  assert (Hlocal : local_boundary_indices T env mesh sub_domain method V
                   = Ok (Some (Np.unique (concat rows)))).
  { unfold local_boundary_indices. rewrite Hvl, Hmap. simpl.
    rewrite bool_decide_eq_false_2 by exact Hsd. simpl.
    rewrite Hrows. simpl. by rewrite Hext. }
  assert (Hidx : Forall (fun i => 0 <= i < N) (Np.unique (concat rows))).
  { apply Forall_forall. intros i Hi. apply list_elem_of_In, unique_In, in_concat in Hi.
    destruct Hi as (row & Hrow & Hi). rewrite Forall_forall in Hrange.
    pose proof (Hrange row ltac:(by apply list_elem_of_In)) as Hr.
    rewrite Forall_forall in Hr. by apply Hr, list_elem_of_In. }
  eexists. split; [by apply get_boundary_nodes_exchange |].
  split; [apply where_eq_from_sorted |]. split; [intros i; apply where_eq_In |].
  intros Hid. rewrite Hid. apply where_marked; [apply unique_sorted | exact Hidx].
Qed.

Lemma get_boundary_nodes_tagged_witness :
  exists l,
    get_boundary_nodes Np.Int32 interval_collaborators interval_mesh
      ([], SubTuple [1], "topological"%string) interval_space = Ok l
    /\ StronglySorted Z.lt l
    /\ (forall i, In i l <->
          0 <= i
          /\ global_to_local interval_collaborators
               (marked (Op2.total_size (node_set (V_data interval_space)))
                  (Np.unique (concat [[0]; [3]])))
             !! Z.to_nat i = Some 1)
    /\ ((forall d, global_to_local interval_collaborators d = d) ->
        l = Np.unique (concat [[0]; [3]])).
Proof.
  apply (get_boundary_nodes_tagged Np.Int32 interval_collaborators interval_mesh []
           (SubTuple [1]) "topological" interval_space [[0]; [3]] None [[0]; [3]]).
  - reflexivity.
  - reflexivity.
  - discriminate.
  - reflexivity.
  - reflexivity.
  - repeat constructor; simpl; lia.
  - reflexivity.
  - reflexivity.
Defined.

(** ** Top and bottom nodes by the geometric method *)

Lemma take_nil (a : list Z) : Np.take a [] = Ok [].
Proof. reflexivity. Qed.

Lemma mapM_take_nil (rows : list (list Z)) :
  mapM (fun row => Np.take row []) rows = Ok (map (fun _ => []) rows).
Proof. by apply mapM_Ok. Qed.

Lemma concat_nils {A B : Type} (rows : list A) :
  concat (map (fun _ => @nil B) rows) = [].
Proof. induction rows; simpl; auto. Qed.

Lemma getitem_from_end (a : list Z) (k : nat) :
  (1 <= k <= length a)%nat -> exists v, Np.getitem a (- Z.of_nat k) = Ok v.
Proof.
  intros Hk. unfold Np.getitem, Np.norm_index.
  destruct (Z.leb_spec 0 (- Z.of_nat k)); [lia |]. simpl.
  destruct (Z.leb_spec (- Z.of_nat (length a)) (- Z.of_nat k)),
    (Z.ltb_spec (- Z.of_nat k) 0); try lia. simpl.
  destruct (lookup_lt_is_Some_2 a (Z.to_nat (- Z.of_nat k + Z.of_nat (length a))))
    as [v Hv]; [lia |].
  rewrite Hv. by exists v.
Qed.

(** X8: when the geometric mask is the one that [get_boundary_masks]
    builds for an element without support dofs (no dofs at any point,
    no indices), the top and bottom boundary nodes by the geometric
    method are the empty array, on a mesh of uniform layers: nothing is
    raised and no node is constrained. *)
Theorem top_bottom_geometric_empty (T : Np.IntType) (env : Collaborators)
    (mesh : MeshTopology) (edk : list (list Z * list (list Z))) (sub_domain : SubDomain)
    (V : Space) (masks : dict string (option Op2.MapMask)) (chart : Z)
    (facet_points : list Z) :
  variable_layers mesh = false ->
  sub_domain = SubStr "top" \/ sub_domain = SubStr "bottom" ->
  fsd_boundary_masks (V_data V) = Some masks ->
  getitem masks "geometric"%string
  = Ok (Some (Op2.mkMapMask (mkSection chart []) [] facet_points)) ->
  (2 <= length facet_points)%nat ->
  is_Some (fsd_offset (V_data V)) ->
  get_top_bottom_boundary_nodes T env mesh (edk, sub_domain, "geometric"%string) V
  = Ok [].
Proof.
  intros Hvl Hsd Hmasks Hgeo Hfp [offset Hoff].
  unfold get_top_bottom_boundary_nodes. rewrite Hvl, Hmasks, Hoff.
  assert (Hempty : forall facet,
            Np.slice [] (getOffset (mkSection chart []) facet)
              (getOffset (mkSection chart []) facet + getDof (mkSection chart []) facet)
            = []).
  { intros facet. unfold Np.slice. by rewrite skipn_nil, firstn_nil. }
  destruct Hsd as [-> | ->]; simpl; rewrite Hgeo; simpl.
  - destruct (getitem_from_end facet_points 1 ltac:(lia)) as [facet Hf].
    change (- Z.of_nat 1) with (-1) in Hf. rewrite Hf. simpl.
    rewrite Hempty, mapM_take_nil. simpl.
    rewrite (mapM_Ok _ (fun _ => [])).
    + simpl. by rewrite concat_nils.
    + intros row Hrow. apply in_map_iff in Hrow. by destruct Hrow as (? & <- & _).
  - destruct (getitem_from_end facet_points 2 ltac:(lia)) as [facet Hf].
    change (- Z.of_nat 2) with (-2) in Hf. rewrite Hf. simpl.
    rewrite Hempty, mapM_take_nil. simpl. by rewrite concat_nils.
Qed.

Lemma top_bottom_geometric_empty_witness :
  get_top_bottom_boundary_nodes Np.Int32 interval_collaborators column_mesh
    ([], SubStr "bottom", "geometric"%string) column_space
  = Ok [].
Proof.
  apply (top_bottom_geometric_empty Np.Int32 interval_collaborators column_mesh []
           (SubStr "bottom") column_space
           [("topological"%string,
              Some (Op2.mkMapMask (mkSection 8 [1; 1; 1; 1; 2; 2; 2; 2])
                      [0; 1; 2; 3; 0; 1; 2; 3; 0; 2; 1; 3] [4; 5; 6; 7]));
            ("geometric"%string, Some (Op2.mkMapMask (mkSection 8 []) [] [4; 5; 6; 7]))]
           8 [4; 5; 6; 7]).
  - reflexivity.
  - by right.
  - vm_compute. reflexivity.
  - reflexivity.
  - simpl. lia.
  - by eexists.
Defined.

(** ** Work-function limits of other spaces *)

(** X9: setting the limit through one function space leaves the limit
    of every function space with another mesh or another UFL element as
    it was, and a second setting through the same key forgets the
    first. *)
Theorem set_max_work_functions_frame (V V' : FunctionSpace) (val : Z)
    (w : gmap nat (gmap string Z)) :
  (~ same_limit_key V V' ->
   get_max_work_functions V' (set_max_work_functions V val w)
   = get_max_work_functions V' w)
  /\ (forall val0 U,
        get_max_work_functions U
          (set_max_work_functions V val (set_max_work_functions V val0 w))
        = get_max_work_functions U (set_max_work_functions V val w)).
Proof.
  split; [apply get_set_other |].
  intros val0 U.
  destruct (decide (fs_mesh U = fs_mesh V)) as [Hm | Hm];
    [destruct (decide (fs_ufl_element U = fs_ufl_element V)) as [Hu | Hu] |].
  - rewrite !get_set_same; by try split.
  - rewrite !get_set_other; [reflexivity | by intros [_ ?] ..].
  - rewrite !get_set_other; [reflexivity | by intros [? _] ..].
Qed.

Lemma set_max_work_functions_frame_witness :
  get_max_work_functions interval_V3
    (set_max_work_functions interval_V 40 ∅)
  = get_max_work_functions interval_V3 ∅.
Proof.
  apply (set_max_work_functions_frame interval_V interval_V3 40 ∅).
  intros [_ Hu]. vm_compute in Hu. discriminate.
Defined.

(** ** The node set when it is returned *)

(** X10: [get_node_set] raises [AssertionError] exactly when the
    storage size of the numbering differs from the total size of the
    node classes; when it returns, the set has the mesh's node classes,
    its total size is the storage size of the numbering, and it is the
    two-layer extruded set exactly on an extruded mesh. *)
Theorem get_node_set_outcome (T : Np.IntType) (mesh : MeshTopology)
    (numbering_cache : dict (list Z) PetscSection) (nodes_per_entity : list Z) :
  (get_node_set T mesh numbering_cache nodes_per_entity = Raise AssertionError
   <-> getStorageSize (numbering_of mesh numbering_cache nodes_per_entity)
       <> local_node_count mesh nodes_per_entity)
  /\ forall s,
       get_node_set T mesh numbering_cache nodes_per_entity = Ok s ->
       Op2.set_sizes s = node_classes mesh nodes_per_entity
       /\ Op2.total_size s
          = getStorageSize (numbering_of mesh numbering_cache nodes_per_entity)
       /\ Op2.set_layers s = if cell_set_extruded mesh then Some 2 else None.
Proof.
  unfold get_node_set. rewrite cached_numbering. simpl.
  rewrite total_size_node_set, shiftl_1_limit.
  set (gn := numbering_of mesh numbering_cache nodes_per_entity).
  set (n := local_node_count mesh nodes_per_entity).
  case_bool_decide as Hsz; simpl.
  - split; [| ].
    + destruct (negb (cell_set_extruded mesh) && (2 ^ (Np.bits T - 4) <=? n));
        split; intros H; try discriminate; contradiction.
    + intros s.
      destruct (negb (cell_set_extruded mesh) && (2 ^ (Np.bits T - 4) <=? n));
        [discriminate |].
      intros [= <-]. rewrite total_size_node_set. fold n.
      destruct (cell_set_extruded mesh); by repeat split.
  - split; [by split | discriminate].
Qed.

Lemma get_node_set_outcome_witness :
  Op2.set_sizes (Op2.mkSet [6; 6; 6] (Some 2)) = node_classes column_mesh [1]
  /\ Op2.total_size (Op2.mkSet [6; 6; 6] (Some 2))
     = getStorageSize (numbering_of column_mesh [] [1])
  /\ Op2.set_layers (Op2.mkSet [6; 6; 6] (Some 2))
     = if cell_set_extruded column_mesh then Some 2 else None.
Proof.
  apply (proj2 (get_node_set_outcome Np.Int32 column_mesh [] [1])).
  reflexivity.
Defined.

(** ** Reading the components back from a map value *)

Lemma sorted_lookup_inj (a : list Z) (i j : nat) (x : Z) :
  StronglySorted Z.lt a -> a !! i = Some x -> a !! j = Some x -> i = j.
Proof.
  intros Hs Hi Hj.
  destruct (Nat.lt_trichotomy i j) as [Hlt | [Heq | Hgt]]; [| exact Heq |].
  - pose proof (sorted_lookup_lt a i j x x Hs Hi Hj Hlt). lia.
  - pose proof (sorted_lookup_lt a j i x x Hs Hj Hi Hgt). lia.
Qed.

Lemma searchsorted_member (bcids nodes : list Z) (k : nat) (n : Z) :
  StronglySorted Z.lt bcids -> (forall v, In v nodes -> In v bcids) ->
  bcids !! k = Some n ->
  Z.of_nat k ∈ Np.searchsorted bcids nodes <-> In n nodes.
Proof.
  intros Hs Hsub Hk. unfold Np.searchsorted. rewrite list_elem_of_In, in_map_iff.
  assert (Hfind : forall v, In v nodes ->
            exists p, bcids !! p = Some v
                      /\ Np.bisect_left (S (length bcids)) bcids v 0 (length bcids) = p).
  { intros v Hv. apply Hsub, list_elem_of_In, list_elem_of_lookup in Hv.
    destruct Hv as (p & Hp). exists p. split; [exact Hp |].
    pose proof (lookup_lt_Some _ _ _ Hp). apply bisect_left_found; auto; lia. }
  split.
  - intros (v & Heq & Hv). destruct (Hfind v Hv) as (p & Hp & Hb).
    rewrite Hb in Heq. apply Nat2Z.inj in Heq. subst p.
    rewrite Hk in Hp. by injection Hp as ->.
  - intros Hn. exists n. split; [| exact Hn].
    destruct (Hfind n Hn) as (p & Hp & ->). f_equal.
    by apply (sorted_lookup_inj bcids p k n).
Qed.

Lemma ior_shift_exact (T : Np.IntType) (bcids negids nodes : list Z) (m : Z) :
  StronglySorted Z.lt bcids -> (forall v, In v nodes -> In v bcids) ->
  length negids = length bcids ->
  0 <= m <= Np.bits T - 2 ->
  exists negids',
    ior_shift T negids (Np.searchsorted bcids nodes) m = Ok negids'
    /\ length negids' = length bcids
    /\ forall k n e, bcids !! k = Some n -> negids !! k = Some e ->
         negids' !! k = Some (if decide (n ∈ nodes) then Z.lor e (2 ^ m) else e).
Proof.
  intros Hs Hsub Hlen Hm.
  assert (Hidx : Forall (fun i => 0 <= i < Z.of_nat (length negids))
                   (Np.searchsorted bcids nodes)).
  { rewrite Hlen. by apply searchsorted_found. }
  unfold ior_shift. rewrite (take_in_range _ _ Hidx). simpl.
  unfold shl1. destruct (Z.ltb_spec m 0) as [? | _]; [lia |]. simpl.
  rewrite Z.shiftl_1_l.
  destruct (Z.ltb_spec (2 ^ m) (2 ^ (Np.bits T - 1))) as [_ | Hge].
  2: { assert (2 ^ m < 2 ^ (Np.bits T - 1)) by (apply Z.pow_lt_mono_r; lia). lia. }
  rewrite map_map.
  destruct (setitems_by_index
              (fun i => Z.lor (default 0 (negids !! Z.to_nat i)) (2 ^ m))
              (Np.searchsorted bcids nodes) negids Hidx)
    as (negids' & Hset & Hlen' & Hval).
  exists negids'. split; [exact Hset |]. split; [congruence |].
  intros k n e Hn He. pose proof (lookup_lt_Some _ _ _ He) as Hk.
  specialize (Hval (Z.of_nat k)). rewrite Nat2Z.id in Hval. rewrite Hval by lia.
  rewrite He. simpl.
  destruct (decide (Z.of_nat k ∈ Np.searchsorted bcids nodes)) as [Hin | Hnin],
    (decide (n ∈ nodes)) as [Hin' | Hnin']; try reflexivity; exfalso.
  - apply Hnin', list_elem_of_In. by apply (searchsorted_member bcids nodes k n).
  - apply Hnin. apply (searchsorted_member bcids nodes k n); auto.
    by apply list_elem_of_In.
Qed.

Lemma set_by_app (s1 s2 : list (list Z * Z)) (n i : Z) :
  set_by (s1 ++ s2) n i <-> set_by s1 n i \/ set_by s2 n i.
Proof. unfold set_by. apply Exists_app. Qed.

Lemma bits_ok_step (T : Np.IntType) (settings : list (list Z * Z))
    (bcids negids nodes : list Z) (m : Z) :
  StronglySorted Z.lt bcids -> (forall v, In v nodes -> In v bcids) ->
  0 <= m <= Np.bits T - 2 ->
  bits_ok settings bcids negids ->
  exists negids',
    ior_shift T negids (Np.searchsorted bcids nodes) m = Ok negids'
    /\ bits_ok (settings ++ [(nodes, m)]) bcids negids'.
Proof.
  intros Hs Hsub Hm [Hlen Hbits].
  destruct (ior_shift_exact T bcids negids nodes m Hs Hsub Hlen Hm)
    as (negids' & Hrun & Hlen' & Hval).
  exists negids'. split; [exact Hrun |]. split; [exact Hlen' |].
  intros k n e' Hn He' i Hi.
  destruct (lookup_lt_is_Some_2 negids k) as [e He].
  { rewrite Hlen. by eapply lookup_lt_Some. }
  rewrite (Hval k n e Hn He) in He'. injection He' as <-.
  rewrite set_by_app. unfold set_by at 2. rewrite Exists_cons, Exists_nil. simpl.
  specialize (Hbits k n e Hn He i Hi).
  destruct (decide (n ∈ nodes)) as [Hin | Hnin].
  - rewrite Z.lor_spec, orb_true_iff, Hbits, Z.pow2_bits_eqb by lia.
    rewrite Z.eqb_eq. apply list_elem_of_In in Hin. intuition congruence.
  - rewrite Hbits. rewrite list_elem_of_In in Hnin. intuition congruence.
Qed.

Lemma bits_ok_components (T : Np.IntType) (bcids nodes : list Z) (cmps : list Z) :
  StronglySorted Z.lt bcids -> (forall v, In v nodes -> In v bcids) ->
  forall settings negids,
    (forall c, In c cmps -> 0 <= c <= 2) ->
    bits_ok settings bcids negids ->
    exists negids',
      for_each (fun cmp negids0 =>
                  ior_shift T negids0 (Np.searchsorted bcids nodes)
                    (Np.itemsize T * 8 - 2 - cmp)) cmps negids = Ok negids'
      /\ bits_ok (settings ++ map (fun cmp => (nodes, Np.itemsize T * 8 - 2 - cmp)) cmps)
           bcids negids'.
Proof.
  intros Hs Hsub. induction cmps as [| c cmps IH]; intros settings negids Hc Hok; simpl.
  - exists negids. by rewrite app_nil_r.
  - assert (Hm : 0 <= Np.itemsize T * 8 - 2 - c <= Np.bits T - 2).
    { specialize (Hc c (or_introl eq_refl)). destruct T; unfold Np.bits; simpl; lia. }
    destruct (bits_ok_step T settings bcids negids nodes _ Hs Hsub Hm Hok)
      as (negids1 & -> & Hok1). simpl.
    destruct (IH _ negids1 (fun c' H => Hc c' (or_intror H)) Hok1)
      as (negids' & Hrun & Hok').
    exists negids'. split; [exact Hrun |].
    by rewrite <- app_assoc in Hok'.
Qed.

Lemma encode_bc_bits (T : Np.IntType) (decorate : bool) (bcids negids : list Z)
    (bc : DirichletBC) (settings : list (list Z * Z)) :
  StronglySorted Z.lt bcids ->
  (is_explicit bc = true -> forall v, In v (bc_nodes bc) -> In v bcids) ->
  component_ok bc ->
  oversized decorate bc = false ->
  bits_ok settings bcids negids ->
  exists negids',
    encode_bc T decorate bcids bc negids = Ok negids'
    /\ bits_ok (settings ++ bit_settings T decorate bc) bcids negids'.
Proof.
  intros Hs Hsub Hcomp Hsize Hok.
  unfold oversized, encode_bc, bit_settings, is_explicit in *.
  destruct (is_top_bottom (bc_sub_domain bc)); simpl in *.
  { exists negids. by rewrite app_nil_r. }
  specialize (Hsub eq_refl). unfold component_ok in Hcomp.
  destruct (fs_component (bc_function_space bc)) as [c |] eqn:Hc.
  - rewrite andb_false_r. simpl.
    apply bits_ok_step; auto. destruct T; unfold Np.bits; simpl; lia.
  - rewrite bool_decide_eq_true_2 in * by reflexivity. rewrite andb_true_r in *.
    destruct decorate; simpl in *.
    2: { exists negids. by rewrite app_nil_r. }
    rewrite Hsize.
    destruct (bits_ok_components T bcids (bc_nodes bc)
                (range (fs_value_size (bc_function_space bc))) Hs Hsub settings negids)
      as (negids' & -> & Hok'); [| exact Hok |].
    { intros c Hin. apply range_In in Hin. apply Z.ltb_ge in Hsize. lia. }
    simpl. exists negids'. by rewrite app_nil_r.
Qed.

Lemma encode_all_bits (T : Np.IntType) (decorate : bool) (bcids : list Z)
    (lbcs : list DirichletBC) :
  StronglySorted Z.lt bcids ->
  Forall (fun bc =>
            (is_explicit bc = true -> forall v, In v (bc_nodes bc) -> In v bcids)
            /\ component_ok bc) lbcs ->
  existsb (oversized decorate) lbcs = false ->
  forall settings negids,
    bits_ok settings bcids negids ->
    exists negids',
      for_each (encode_bc T decorate bcids) lbcs negids = Ok negids'
      /\ bits_ok (settings ++ concat (map (bit_settings T decorate) lbcs)) bcids negids'.
Proof.
  intros Hs Hall.
  induction Hall as [| bc lbcs [Hsub Hcomp] _ IH]; intros Hsize settings negids Hok; simpl.
  - exists negids. by rewrite app_nil_r.
  - simpl in Hsize. apply orb_false_iff in Hsize as [Hbc Hrest].
    destruct (encode_bc_bits T decorate bcids negids bc settings Hs Hsub Hcomp Hbc Hok)
      as (negids1 & -> & Hok1). simpl.
    destruct (IH Hrest _ negids1 Hok1) as (negids' & Hrun & Hok').
    exists negids'. split; [exact Hrun |]. by rewrite <- app_assoc in Hok'.
Qed.

Lemma In_range (n c : Z) : 0 <= c < n -> In c (range n).
Proof.
  intros Hc. unfold range. apply in_map_iff. exists (Z.to_nat c).
  split; [lia |]. apply in_seq. lia.
Qed.

Lemma set_by_bit_settings (T : Np.IntType) (decorate : bool) (lbcs : list DirichletBC)
    (n c : Z) :
  set_by (concat (map (bit_settings T decorate) lbcs)) n (Np.itemsize T * 8 - 2 - c)
  <-> exists bc,
        In bc lbcs /\ is_explicit bc = true /\ In n (bc_nodes bc)
        /\ (fs_component (bc_function_space bc) = Some c
            \/ (fs_component (bc_function_space bc) = None
                /\ decorate = true
                /\ 0 <= c < fs_value_size (bc_function_space bc))).
Proof.
  unfold set_by. rewrite Exists_exists. split.
  - intros (s & Hs & Hn & Hi). apply list_elem_of_In, in_concat in Hs as (ss & Hss & Hs).
    apply in_map_iff in Hss as (bc & <- & Hbc). exists bc. split; [exact Hbc |].
    unfold bit_settings, is_explicit in *.
    destruct (is_top_bottom (bc_sub_domain bc)); [destruct Hs |].
    split; [reflexivity |]. apply in_app_or in Hs as [Hs | Hs].
    + destruct decorate; simpl in Hs; [| destruct Hs].
      case_bool_decide as Hc; [| destruct Hs].
      apply in_map_iff in Hs as (cmp & <- & Hcmp). simpl in *.
      apply range_In in Hcmp. split; [exact Hn |]. right.
      assert (cmp = c) by lia. subst cmp. auto.
    + destruct (fs_component (bc_function_space bc)) as [c' |]; [| destruct Hs].
      destruct Hs as [<- | []]. simpl in *. split; [exact Hn |]. left. f_equal. lia.
  - intros (bc & Hbc & Hexp & Hn & Hcase).
    exists (bc_nodes bc, Np.itemsize T * 8 - 2 - c). split; [| by split].
    apply list_elem_of_In, in_concat. exists (bit_settings T decorate bc).
    split; [by apply in_map |].
    unfold bit_settings, is_explicit in *.
    destruct (is_top_bottom (bc_sub_domain bc)); [discriminate |].
    apply in_or_app. destruct Hcase as [Hc | (Hc & -> & Hr)]; rewrite Hc.
    + right. by left.
    + left. rewrite bool_decide_eq_true_2 by reflexivity. simpl.
      apply in_map_iff. exists c. split; [reflexivity | by apply In_range].
Qed.

Lemma testbit_above (n N i : Z) : 0 <= n < 2 ^ N -> 0 <= N <= i -> Z.testbit n i = false.
Proof.
  intros Hn Hi. destruct (Z.eq_dec n 0) as [-> | Hne]; [apply Z.bits_0 |].
  apply Z.bits_above_log2; [lia |].
  assert (Z.log2 n < N) by (apply Z.log2_lt_pow2; lia). lia.
Qed.

(** The entries of [negids] can be decoded.  Under the node-count limit
    of [get_node_set], for every constrained node [n] with entry [e] in
    [negids], the value [v = -(e + 1)] is negative, [- v - 1] has [n]
    in its low [indexBits-4] bits, and for each of the three components
    [c] the bit [indexBits - 2 - c] of [- v - 1] is set exactly when
    component [c] is constrained at [n]. *)
Lemma encode_nodes_decode (T : Np.IntType) (lbcs : list DirichletBC) (total : Z) :
  explicit_nodes lbcs <> [] ->
  Forall wf_bc lbcs ->
  existsb (oversized (decorate_of lbcs)) lbcs = false ->
  total < 2 ^ (Np.bits T - 4) ->
  (forall n, In n (constrained_nodes lbcs) -> 0 <= n < total) ->
  exists bcids negids,
    encode_nodes T lbcs (explicit_nodes lbcs) = Ok (bcids, negids)
    /\ forall k n e, bcids !! k = Some n -> negids !! k = Some e ->
         let v := Np.neg T (Np.add T e 1) in
         v < 0
         /\ (- v - 1) mod 2 ^ (Np.bits T - 4) = n
         /\ forall c, 0 <= c <= 2 ->
              Z.testbit (- v - 1) (Np.bits T - 2 - c) = true
              <-> component_constrained lbcs n c.
Proof.
  intros Hne Hwf Hsize Htotal Hrange.
  destruct (encode_nodes_cases T (encoded T) (encoded_bit T) lbcs Hne Hwf)
    as (bcids & Hred & Hin & Hrun).
  { intros n Hn. apply encoded_node. specialize (Hrange n Hn). lia. }
  rewrite Hsize in Hrun. destruct Hrun as (negids & Hrun & Hlen & HR).
  exists bcids, negids. split; [exact Hrun |].
  pose proof (reduce_union1d_sorted _ _ (explicit_nodes_sorted lbcs Hwf) Hred) as Hs.
  assert (Hall : Forall (fun bc =>
                   (is_explicit bc = true -> forall v, In v (bc_nodes bc) -> In v bcids)
                   /\ component_ok bc) lbcs).
  { apply List.Forall_forall. intros bc Hbc. split.
    - intros Hexp v Hv. apply Hin. by apply (explicit_nodes_sub lbcs bc).
    - rewrite List.Forall_forall in Hwf. by destruct (Hwf bc Hbc). }
  assert (Hinit : bits_ok [] bcids bcids).
  { split; [reflexivity |]. intros k n e Hn He i _. rewrite Hn in He. injection He as <-.
    unfold set_by. rewrite Exists_nil. tauto. }
  destruct (encode_all_bits T (decorate_of lbcs) bcids lbcs Hs Hall Hsize [] bcids Hinit)
    as (negids' & Hrun' & _ & Hbits).
  unfold encode_nodes in Hrun. rewrite Hred in Hrun. simpl in Hrun.
  rewrite Hrun' in Hrun. simpl in Hrun. injection Hrun as ->.
  intros k n e Hn He v. pose proof (HR k n e Hn He) as Henc.
  assert (Hnr : 0 <= n < total).
  { apply Hrange, Hin, list_elem_of_In. by eapply list_elem_of_lookup_2. }
  destruct (encoded_below T n e Henc ltac:(lia)) as [He0 He1].
  destruct (neg_add_exact T e He0 He1) as [Hadd Hneg].
  assert (Hv : - v - 1 = e) by (unfold v; lia). rewrite Hv.
  split; [unfold v; lia |]. split; [by destruct Henc |].
  intros c Hc.
  assert (Hb : 32 <= Np.bits T) by (destruct T; unfold Np.bits; simpl; lia).
  rewrite (Hbits k n e Hn He (Np.bits T - 2 - c)) by lia.
  rewrite (testbit_above n (Np.bits T - 4)) by lia.
  change (Np.bits T) with (Np.itemsize T * 8) at 1.
  simpl app. rewrite set_by_bit_settings. unfold component_constrained.
  intuition discriminate.
Qed.

Lemma component_constrained_perm (bcs1 bcs2 : list DirichletBC) (n c : Z) :
  Permutation bcs1 bcs2 -> component_constrained bcs1 n c -> component_constrained bcs2 n c.
Proof.
  intros Hperm (bc & Hbc & Hexp & Hn & Hcase). exists bc.
  split; [by apply (Permutation_in _ Hperm) |]. split; [exact Hexp |].
  split; [exact Hn |]. destruct Hcase as [Hc | (Hc & Hd & Hr)]; [by left |].
  right. split; [exact Hc |]. split; [| exact Hr].
  unfold decorate_of in *. by rewrite <- (existsb_perm _ _ _ Hperm).
Qed.

(** The array of a cache miss on a mesh that is not extruded: the
    entity->node array read through the lookup table, in which a
    constrained node is a negative value that decodes to the node and
    to the components constrained there. *)
Lemma new_entity_node_list_encoded (T : Np.IntType) (self : FunctionSpaceData)
    (entity_set : EntitySet) (lbcs : list DirichletBC) :
  fsd_extruded self = false ->
  Op2.total_size (node_set self) < 2 ^ (Np.bits T - 4) ->
  explicit_nodes lbcs <> [] ->
  Forall wf_bc lbcs ->
  existsb (oversized (decorate_of lbcs)) lbcs = false ->
  (forall n, In n (constrained_nodes lbcs) -> 0 <= n < Op2.total_size (node_set self)) ->
  Forall (Forall (fun n => 0 <= n < Op2.total_size (node_set self)))
    (entity_node_lists self entity_set) ->
  exists f,
    new_entity_node_list T self entity_set lbcs
    = Ok (map (map f) (entity_node_lists self entity_set))
    /\ forall n, 0 <= n < Op2.total_size (node_set self) ->
         (~ In n (constrained_nodes lbcs) -> f n = n)
         /\ (In n (constrained_nodes lbcs) ->
             - 2 ^ (Np.bits T - 1) <= f n < 0
             /\ (- f n - 1) mod 2 ^ (Np.bits T - 4) = n
             /\ forall c, 0 <= c <= 2 ->
                  Z.testbit (- f n - 1) (Np.bits T - 2 - c) = true
                  <-> component_constrained lbcs n c).
Proof.
  intros Hext Hlimit Hne Hwf Hsize Hrange Hentries.
  destruct (node_list_bc_table T self lbcs Hext Hlimit Hne Hwf Hsize Hrange)
    as (bcids & negids & table & _ & Hrun & Hlen & Hin & Htable & Htlen & Hat & Hother).
  destruct (encode_nodes_decode T lbcs (Op2.total_size (node_set self)) Hne Hwf Hsize
              Hlimit Hrange) as (bcids' & negids' & Hrun' & Hdec).
  rewrite Hrun in Hrun'. injection Hrun' as <- <-.
  exists (fun n => default 0 (table !! Z.to_nat n)). split.
  - unfold new_entity_node_list. fold (explicit_nodes lbcs).
    destruct (explicit_nodes lbcs) as [| a ls] eqn:Hnodes; [contradiction |].
    rewrite Htable. simpl. apply take2_in_range.
    eapply Forall_impl; [exact Hentries |]. intros row Hrow.
    eapply Forall_impl; [exact Hrow |]. simpl. intros n Hn. lia.
  - intros n Hn. split.
    + intros Hc. by rewrite (Hother n Hn Hc).
    + intros Hc. apply Hin, list_elem_of_In, list_elem_of_lookup_1 in Hc as [k Hk].
      destruct (lookup_lt_is_Some_2 negids k) as [e He].
      { rewrite Hlen. by eapply lookup_lt_Some. }
      destruct (Hat k n e Hk He) as [Henc ->]. simpl.
      pose proof (Hdec k n e Hk He) as Hd. cbv zeta in Hd.
      destruct Hd as (Hneg & Hmod & Hbits).
      destruct (encoded_below T n e Henc ltac:(lia)) as [He0 He1].
      destruct (neg_add_exact T e He0 He1) as [_ Hval].
      split; [rewrite Hval in *; lia |]. split; [exact Hmod | exact Hbits].
Qed.

(** X11: the values that [get_map] stores for constrained nodes on a
    mesh that is not extruded can be decoded.  Under the node-count
    limit of [get_node_set], a call with explicit constraints returns a
    map whose array is the entity->node array with every entry [n]
    replaced by a value [f n]: [n] itself when [n] is no node of an
    explicit constraint, and otherwise a negative value of the array's
    type such that [- f n - 1] has [n] in its low [indexBits-4] bits
    and, for each of the three components [c], has bit
    [indexBits - 2 - c] set exactly when component [c] is constrained
    at [n]: by a constraint on component [c] with [n] among its nodes,
    or, when some constraint is component-indexed, by a constraint on a
    whole space with more than [c] components.  The name given for the
    map holds no [%] and the store is one that [get_map] has made. *)
Theorem get_map_values_decode (T : Np.IntType) (self : FunctionSpaceData)
    (V : FunctionSpace) (entity_set : EntitySet) (map_arity : Z)
    (bcs : list DirichletBC) (name : string) (offset : option (list Z))
    (parent : option nat) (st : MapStore) :
  fsd_extruded self = false ->
  fs_len V = 1%nat ->
  plain_name name = true ->
  Op2.total_size (node_set self) < 2 ^ (Np.bits T - 4) ->
  cache_consistent T self st ->
  Exists (fun bc => is_explicit bc = true) bcs ->
  Forall (targets V) bcs ->
  Forall wf_bc bcs ->
  existsb (oversized (decorate_of bcs)) bcs = false ->
  (forall n, In n (constrained_nodes bcs) -> 0 <= n < Op2.total_size (node_set self)) ->
  Forall (Forall (fun n => 0 <= n < Op2.total_size (node_set self)))
    (entity_node_lists self entity_set) ->
  exists a st' f,
    get_map T self V entity_set map_arity (Some bcs) name offset parent st = (Ok a, st')
    /\ map_values_of st' a = Some (map (map f) (entity_node_lists self entity_set))
    /\ forall n, 0 <= n < Op2.total_size (node_set self) ->
         (~ In n (constrained_nodes bcs) -> f n = n)
         /\ (In n (constrained_nodes bcs) ->
             - 2 ^ (Np.bits T - 1) <= f n < 0
             /\ (- f n - 1) mod 2 ^ (Np.bits T - 4) = n
             /\ forall c, 0 <= c <= 2 ->
                  Z.testbit (- f n - 1) (Np.bits T - 2 - c) = true
                  <-> component_constrained bcs n c).
Proof.
  intros Hext Hlen Hname Hlimit Hinv Hex Htargets Hwf Hsize Hrange Hentries.
  pose proof (split_bcs_with_explicit bcs Hex) as Hsplit.
  set (lbcs := sorted_by hash_leb bcs).
  assert (Hperm : Permutation lbcs bcs) by apply sorted_by_perm.
  assert (Hnodes : forall n, In n (constrained_nodes lbcs) <-> In n (constrained_nodes bcs))
    by (intros n; by apply constrained_nodes_perm).
  assert (Hne : explicit_nodes lbcs <> []).
  { apply List.Exists_exists in Hex as (e & He & Hexp).
    intros Hnil. unfold explicit_nodes in Hnil. apply map_eq_nil in Hnil.
    assert (Hin : In e (List.filter is_explicit lbcs)).
    { apply filter_In. split; [| exact Hexp]. by apply (sorted_by_In hash_leb). }
    rewrite Hnil in Hin. destruct Hin. }
  assert (Hwf' : Forall wf_bc lbcs) by (by rewrite Hperm).
  assert (Hsize' : existsb (oversized (decorate_of lbcs)) lbcs = false).
  { unfold decorate_of in *.
    rewrite (existsb_perm _ _ _ Hperm). rewrite (existsb_perm _ _ _ Hperm). exact Hsize. }
  destruct (new_entity_node_list_encoded T self entity_set lbcs Hext Hlimit Hne Hwf' Hsize')
    as (f & Hvals & Hf).
  { intros n Hn. by apply Hrange, Hnodes. }
  { exact Hentries. }
  destruct (get_map_returns T self V entity_set map_arity (Some bcs) name offset parent st
              (map (map f) (entity_node_lists self entity_set)) Hlen Hname)
    as (a & st' & Hcall).
  { by rewrite Hsplit. }
  { rewrite Hsplit. exact Hvals. }
  exists a, st', f. split; [exact Hcall |]. split.
  - destruct (get_map_consistent _ _ _ _ _ _ _ _ _ _ _ _ Hinv Hcall) as [_ Hvalues].
    destruct (Hvalues a eq_refl) as (vals & Hvals' & Hmap).
    rewrite Hsplit in Hvals'. fold lbcs in Hvals'. rewrite Hvals in Hvals'.
    by injection Hvals' as <-.
  - intros n Hn. destruct (Hf n Hn) as [Hfree Hcon]. split.
    + intros Hc. apply Hfree. intros Hc'. by apply Hc, Hnodes.
    + intros Hc. destruct (Hcon (proj2 (Hnodes n) Hc)) as (Hneg & Hmod & Hbits).
      split; [exact Hneg |]. split; [exact Hmod |].
      intros c Hc3. rewrite (Hbits c Hc3). split.
      * by apply component_constrained_perm.
      * by apply component_constrained_perm, Permutation_sym.
Qed.

Lemma get_map_values_decode_witness :
  exists a st' f,
    get_map Np.Int32 interval_data interval_V3 CellSet 2 (Some [bc_inner_0; bc_ends])
      "cell_node" None None empty_store = (Ok a, st')
    /\ map_values_of st' a
       = Some (map (map f) (entity_node_lists interval_data CellSet))
    /\ forall n, 0 <= n < Op2.total_size (node_set interval_data) ->
         (~ In n (constrained_nodes [bc_inner_0; bc_ends]) -> f n = n)
         /\ (In n (constrained_nodes [bc_inner_0; bc_ends]) ->
             - 2 ^ (Np.bits Np.Int32 - 1) <= f n < 0
             /\ (- f n - 1) mod 2 ^ (Np.bits Np.Int32 - 4) = n
             /\ forall c, 0 <= c <= 2 ->
                  Z.testbit (- f n - 1) (Np.bits Np.Int32 - 2 - c) = true
                  <-> component_constrained [bc_inner_0; bc_ends] n c).
Proof.
  apply (get_map_values_decode Np.Int32 interval_data interval_V3 CellSet 2
           [bc_inner_0; bc_ends] "cell_node" None None empty_store).
  - reflexivity.
  - reflexivity.
  - reflexivity.
  - exact interval_limit.
  - apply cache_consistent_empty.
  - apply Exists_cons_hd. reflexivity.
  - repeat constructor.
  - repeat constructor; simpl; lia.
  - reflexivity.
  - intros n Hn. change (Op2.total_size (node_set interval_data)) with 4.
    vm_compute in Hn. intuition lia.
  - change (Op2.total_size (node_set interval_data)) with 4.
    change (entity_node_lists interval_data CellSet) with [[0; 1]; [1; 2]; [2; 3]].
    repeat constructor; lia.
Defined.

(** ** The layout of the boundary masks *)

Lemma for_each_prefix {A S : Type} (P : list A -> S -> Prop) (body : A -> S -> result S)
    (l : list A) (s0 : S) :
  (forall done x s, In x l -> P done s ->
     exists s', body x s = Ok s' /\ P (done ++ [x]) s') ->
  P [] s0 ->
  exists s', for_each body l s0 = Ok s' /\ P l s'.
Proof.
  intros Hstep.
  assert (Hgen : forall l' done s, (forall x, In x l' -> In x l) -> P done s ->
            exists s', for_each body l' s = Ok s' /\ P (done ++ l') s').
  { induction l' as [| x l' IH]; intros done s Hsub Hs; simpl.
    - exists s. by rewrite app_nil_r.
    - destruct (Hstep done x s (Hsub x (or_introl eq_refl)) Hs) as (s1 & -> & Hs1).
      simpl. destruct (IH (done ++ [x]) s1 (fun y H => Hsub y (or_intror H)) Hs1)
        as (s' & Hrun & Hs').
      exists s'. split; [exact Hrun |]. by rewrite <- app_assoc in Hs'. }
  intros H0. exact (Hgen l [] s0 (fun x H => H) H0).
Qed.

Lemma where_eq_from_app (a : list Z) (x v i : Z) :
  Np.where_eq_from i (a ++ [x]) v
  = Np.where_eq_from i a v ++ (if x =? v then [i + Z.of_nat (length a)] else []).
Proof.
  revert i. induction a as [| y a IH]; intros i; simpl.
  - rewrite Z.add_0_r. by destruct (x =? v).
  - rewrite IH. replace (i + 1 + Z.of_nat (length a)) with (i + Z.pos (Pos.of_succ_nat (length a)))
      by lia.
    by destruct (y =? v).
Qed.

Lemma covers_spec (ecd esd : dict (list Z) (dict Z (list Z))) (ent : list Z) (key : Z) :
  covers ecd esd = true ->
  In ent (keys ecd) -> In key (keys (item_of [] ecd ent)) ->
  In ent (keys esd) /\ In key (keys (item_of [] esd ent)).
Proof.
  unfold covers. rewrite forallb_forall. intros Hc Hent Hkey.
  specialize (Hc ent Hent). apply andb_true_iff in Hc as [He Hk].
  apply bool_decide_eq_true_1, list_elem_of_In in He. split; [exact He |].
  rewrite forallb_forall in Hk. specialize (Hk key Hkey).
  by apply bool_decide_eq_true_1, list_elem_of_In in Hk.
Qed.

Lemma mask_loop_body_state (dim : Z) (ecd : dict (list Z) (dict Z (list Z)))
    (esd : option (dict (list Z) (dict Z (list Z)))) (ent : list Z) (key : Z)
    (pts : list (list Z * Z)) (s : MaskLoop) :
  In ent (keys ecd) -> In key (keys (item_of [] ecd ent)) ->
  match esd with Some esd => covers ecd esd = true | None => True end ->
  mask_state dim ecd esd pts s ->
  exists s',
    mask_loop_body dim ecd esd ent key s = Ok s'
    /\ mask_state dim ecd esd (pts ++ [(ent, key)]) s'.
Proof.
  intros Hent Hkey Hcov (Hcs & Hci & Hsup & Hfp & Hp). unfold mask_loop_body.
  rewrite (getitem_item_of [] ecd ent Hent). simpl.
  rewrite (getitem_item_of [] (item_of [] ecd ent) key Hkey). simpl.
  assert (Hfacet :
    (if sumZ ent =? dim - 1 then facet_points s ++ [loop_p s] else facet_points s)
    = Np.where_eq (map (fun p : list Z * Z => sumZ (fst p)) (pts ++ [(ent, key)]))
        (dim - 1)).
  { unfold Np.where_eq in *. rewrite map_app. simpl. rewrite where_eq_from_app.
    rewrite length_map, Hfp, Hp. simpl.
    destruct (sumZ ent =? dim - 1); [reflexivity | by rewrite app_nil_r]. }
  assert (Hlen : loop_p s + 1 = Z.of_nat (length (pts ++ [(ent, key)]))).
  { rewrite length_app. simpl. lia. }
  destruct esd as [esd |].
  - destruct (covers_spec ecd esd ent key Hcov Hent Hkey) as [Hent' Hkey'].
    rewrite (getitem_item_of [] esd ent Hent'). simpl.
    rewrite (getitem_item_of [] (item_of [] esd ent) key Hkey'). simpl.
    eexists. split; [reflexivity |]. destruct Hsup as [Hss Hsi].
    unfold mask_state. simpl.
    rewrite !map_app, !concat_app, Hcs, Hci, Hss, Hsi. simpl.
    rewrite !app_nil_r. unfold dofs_at at 3 6 9 12. simpl.
    rewrite map_app in Hfacet. repeat split; try reflexivity; assumption.
  - simpl. eexists. split; [reflexivity |].
    unfold mask_state. simpl.
    rewrite !map_app, !concat_app, Hcs, Hci. simpl.
    rewrite !app_nil_r. unfold dofs_at at 3 6. simpl.
    rewrite map_app in Hfacet. repeat split; try reflexivity; try assumption; apply Hsup.
Qed.

Lemma mask_loop_ent_state (dim : Z) (ecd : dict (list Z) (dict Z (list Z)))
    (esd : option (dict (list Z) (dict Z (list Z)))) (ent : list Z)
    (pts : list (list Z * Z)) (s : MaskLoop) :
  In ent (keys ecd) ->
  match esd with Some esd => covers ecd esd = true | None => True end ->
  mask_state dim ecd esd pts s ->
  exists s',
    mask_loop_ent dim ecd esd ent s = Ok s'
    /\ mask_state dim ecd esd
         (pts ++ (if sumZ ent =? dim then []
                  else map (pair ent) (sorted_by Z.leb (keys (item_of [] ecd ent))))) s'.
Proof.
  intros Hent Hcov Hs. unfold mask_loop_ent.
  destruct (sumZ ent =? dim).
  { exists s. by rewrite app_nil_r. }
  rewrite (getitem_item_of [] ecd ent Hent). simpl.
  apply (for_each_prefix
           (fun done s' => mask_state dim ecd esd (pts ++ map (pair ent) done) s')).
  - intros done key s1 Hkey Hs1. apply sorted_by_In in Hkey.
    destruct (mask_loop_body_state dim ecd esd ent key _ s1 Hent Hkey Hcov Hs1)
      as (s' & Hrun & Hs').
    exists s'. split; [exact Hrun |]. by rewrite map_app, app_assoc.
  - simpl. by rewrite app_nil_r.
Qed.

Lemma mask_loops_state (dim : Z) (ecd : dict (list Z) (dict Z (list Z)))
    (esd : option (dict (list Z) (dict Z (list Z)))) (s0 : MaskLoop) :
  match esd with Some esd => covers ecd esd = true | None => True end ->
  mask_state dim ecd esd [] s0 ->
  exists s,
    for_each (mask_loop_ent dim ecd esd) (sorted_by tuple_leb (keys ecd)) s0 = Ok s
    /\ mask_state dim ecd esd (mask_points dim ecd) s.
Proof.
  intros Hcov H0. unfold mask_points.
  apply (for_each_prefix
           (fun done s =>
              mask_state dim ecd esd
                (concat
                   (map (fun ent =>
                           if sumZ ent =? dim then []
                           else map (pair ent)
                                  (sorted_by Z.leb (keys (item_of [] ecd ent))))
                      done)) s)).
  - intros done ent s Hent Hs. apply sorted_by_In in Hent.
    destruct (mask_loop_ent_state dim ecd esd ent _ s Hent Hcov Hs) as (s' & Hrun & Hs').
    exists s'. split; [exact Hrun |].
    rewrite map_app, concat_app. simpl. by rewrite app_nil_r.
  - exact H0.
Qed.

Lemma sumZ_lengths_nonneg (ls : list (list Z)) :
  0 <= sumZ (map (fun l => Z.of_nat (length l)) ls).
Proof. induction ls as [| l ls IH]; simpl; lia. Qed.

Lemma skipn_concat (ls : list (list Z)) (k : nat) :
  skipn (Z.to_nat (sumZ (firstn k (map (fun l => Z.of_nat (length l)) ls)))) (concat ls)
  = concat (skipn k ls).
Proof.
  revert k. induction ls as [| l ls IH]; intros [| k]; simpl; try reflexivity.
  specialize (IH k).
  set (q := sumZ (firstn k (map (fun l0 : list Z => Z.of_nat (length l0)) ls))) in *.
  assert (Hq : 0 <= q).
  { subst q. rewrite firstn_map. apply sumZ_lengths_nonneg. }
  rewrite Z2Nat.inj_add, Nat2Z.id by lia.
  rewrite skipn_app, skipn_all2 by lia. simpl.
  replace (length l + Z.to_nat q - length l)%nat with (Z.to_nat q) by lia.
  exact IH.
Qed.

Lemma slice_section (sec : PetscSection) (indices : list Z) (ls : list (list Z))
    (k : nat) (x : list Z) :
  sec_dofs sec = map (fun l => Z.of_nat (length l)) ls ->
  indices = concat ls ->
  ls !! k = Some x ->
  Np.slice indices (getOffset sec (Z.of_nat k))
    (getOffset sec (Z.of_nat k) + getDof sec (Z.of_nat k)) = x.
Proof.
  intros Hsec -> Hk. unfold Np.slice, getOffset, getDof.
  destruct (Z.ltb_spec (Z.of_nat k) 0) as [? | _]; [lia |].
  rewrite Nat2Z.id, Hsec.
  rewrite skipn_concat. rewrite (drop_S ls x k Hk). simpl.
  replace (_ + _ - _) with (nth k (map (fun l => Z.of_nat (length l)) ls) 0) by lia.
  rewrite (nth_lookup_Some _ _ _ (Z.of_nat (length x))).
  2: { by rewrite list_lookup_fmap, Hk. }
  rewrite Nat2Z.id. apply take_app_length.
Qed.

Lemma mask_state_reads_back (sec : PetscSection) (indices facets : list Z)
    (pts : list (list Z * Z)) (d : dict (list Z) (dict Z (list Z))) :
  sec_dofs sec = map (fun p => Z.of_nat (length (dofs_at d p))) pts ->
  indices = concat (map (fun p => sorted_by Z.leb (dofs_at d p)) pts) ->
  reads_back (Op2.mkMapMask sec indices facets) pts d.
Proof.
  intros Hsec Hidx k p Hk. simpl.
  apply (slice_section sec indices (map (fun p => sorted_by Z.leb (dofs_at d p)) pts)).
  - rewrite Hsec, map_map. apply map_ext. intros q. f_equal.
    symmetry. apply Permutation_length, sorted_by_perm.
  - exact Hidx.
  - by rewrite list_lookup_fmap, Hk.
Qed.

(** X12: the masks that [get_boundary_masks] builds on an extruded mesh
    can be read back.  When the support dofs are given for every
    sub-entity that has closure dofs, or are not implemented, both masks
    are built; reading the topological mask at its [k]-th point, from
    the section's offset over the section's dof count, gives the closure
    dofs of the [k]-th sub-entity in increasing order, the sub-entities
    being those of every dimension but the cell's, in increasing order;
    the geometric mask gives the support dofs in the same way, or has no
    index when they are not implemented; the two masks share their facet
    points, which increase strictly and are exactly the points of the
    sub-entities one dimension below the cell. *)
Theorem boundary_masks_read_back (mesh : MeshTopology) (finat_element : FinatElement) :
  cell_set_extruded mesh = true ->
  match el_entity_support_dofs finat_element with
  | Ok esd => covers (el_entity_closure_dofs finat_element) esd = true
  | Raise e => e = NotImplementedError
  end ->
  exists M G,
    get_boundary_masks mesh finat_element
    = Ok (Some [("topological"%string, Some M); ("geometric"%string, Some G)])
    /\ let dim := el_spatial_dimension finat_element in
       let ecd := el_entity_closure_dofs finat_element in
       let pts := mask_points dim ecd in
       reads_back M pts ecd
       /\ match el_entity_support_dofs finat_element with
          | Ok esd => reads_back G pts esd
          | Raise _ => Op2.mask_indices G = []
          end
       /\ Op2.mask_facet_points G = Op2.mask_facet_points M
       /\ StronglySorted Z.lt (Op2.mask_facet_points M)
       /\ forall k, In k (Op2.mask_facet_points M) <->
            0 <= k /\ exists p, pts !! Z.to_nat k = Some p /\ sumZ (fst p) = dim - 1.
Proof.
  intros Hext Hsup. unfold get_boundary_masks. rewrite Hext. simpl.
  set (dim := el_spatial_dimension finat_element).
  set (ecd := el_entity_closure_dofs finat_element).
  set (chart := sumZ _ - 1).
  set (init := mkMaskLoop _ _ _ _ _ _).
  assert (Hfacets : forall s esd,
            mask_state dim ecd esd (mask_points dim ecd) s ->
            StronglySorted Z.lt (facet_points s)
            /\ forall k, In k (facet_points s) <->
                 0 <= k /\ exists p, mask_points dim ecd !! Z.to_nat k = Some p
                                     /\ sumZ (fst p) = dim - 1).
  { intros s esd (_ & _ & _ & Hfp & _). rewrite Hfp. split.
    - apply where_eq_from_sorted.
    - intros k. rewrite where_eq_In, list_lookup_fmap.
      split; intros [Hk Hp]; (split; [exact Hk |]).
      + destruct (mask_points dim ecd !! Z.to_nat k) as [p |]; [| discriminate].
        exists p. split; [reflexivity |]. simpl in Hp. congruence.
      + destruct Hp as (p & -> & Hp). simpl. by rewrite Hp. }
  destruct (el_entity_support_dofs finat_element) as [esd | e] eqn:Hesd.
  - simpl.
    destruct (mask_loops_state dim ecd (Some esd) init Hsup) as (s & -> & Hs).
    { by repeat split. }
    simpl. eexists _, _. split; [reflexivity |].
    destruct (Hfacets s _ Hs) as [Hsorted Hin].
    destruct Hs as (Hcs & Hci & [Hss Hsi] & _).
    split; [by apply mask_state_reads_back |].
    split; [by apply mask_state_reads_back |].
    split; [reflexivity |]. split; assumption.
  - subst e. simpl.
    destruct (mask_loops_state dim ecd None init I) as (s & -> & Hs).
    { by repeat split. }
    simpl. eexists _, _. split; [reflexivity |].
    destruct (Hfacets s _ Hs) as [Hsorted Hin].
    destruct Hs as (Hcs & Hci & [Hss Hsi] & _).
    split; [by apply mask_state_reads_back |].
    split; [exact Hsi |].
    split; [reflexivity |]. split; assumption.
Qed.

Lemma boundary_masks_read_back_witness :
  exists M G,
    get_boundary_masks column_mesh column_element_supported
    = Ok (Some [("topological"%string, Some M); ("geometric"%string, Some G)])
    /\ let dim := el_spatial_dimension column_element_supported in
       let ecd := el_entity_closure_dofs column_element_supported in
       let pts := mask_points dim ecd in
       reads_back M pts ecd
       /\ match el_entity_support_dofs column_element_supported with
          | Ok esd => reads_back G pts esd
          | Raise _ => Op2.mask_indices G = []
          end
       /\ Op2.mask_facet_points G = Op2.mask_facet_points M
       /\ StronglySorted Z.lt (Op2.mask_facet_points M)
       /\ forall k, In k (Op2.mask_facet_points M) <->
            0 <= k /\ exists p, pts !! Z.to_nat k = Some p /\ sumZ (fst p) = dim - 1.
Proof.
  apply (boundary_masks_read_back column_mesh column_element_supported);
    reflexivity.
Defined.

(** ** Explicit and implicit constraints together *)

Lemma get_map_other_keys (T : Np.IntType) (self : FunctionSpaceData) (V : FunctionSpace)
    (entity_set : EntitySet) (map_arity : Z) (bcs : option (list DirichletBC))
    (name : string) (offset : option (list Z)) (parent : option nat) (st : MapStore)
    (k : EntitySet * list DirichletBC) :
  k <> (entity_set, sorted_by hash_leb (fst (split_bcs bcs))) ->
  getitem (map_caches (snd (get_map T self V entity_set map_arity bcs name offset parent st)))
    k
  = getitem (map_caches st) k.
Proof.
  intros Hk. unfold get_map.
  destruct (negb (fs_len V =? 1)%nat); [reflexivity |].
  destruct (split_bcs bcs) as [bcs' implicit_bcs]. cbn [fst] in Hk.
  destruct (for_each (check_bc V) bcs' tt) as [u | e]; [| reflexivity].
  set (lbcs := sorted_by hash_leb bcs') in *.
  destruct (getitem (map_caches st) (entity_set, lbcs)) as [hit | e] eqn:Hget.
  - by destruct implicit_bcs.
  - destruct (new_entity_node_list T self entity_set lbcs) as [vals |]; [| reflexivity].
    destruct (format_name (fs_name V) name) as [map_name |]; [| reflexivity].
    unfold alloc, cache_store. simpl.
    destruct (decorate_of lbcs), implicit_bcs; simpl;
      rewrite getitem_setitem_ne; congruence.
Qed.

(** X14: explicit and implicit constraints together, on an extruded
    mesh, with a name without [%].  The top and bottom constraints stay
    in the cache key when an explicit constraint comes with them:
    [get_map] returns the decoration, carrying the sub-domains and
    methods of the implicit constraints, of the map that is cached
    under the sorted list of all the constraints; the entry of every
    other key, that of the explicit constraints alone included, is as
    before.  The map holds the entity node list with every node of an
    explicit constraint replaced by -10000000. *)
Theorem get_map_mixed_constraints (T : Np.IntType) (self : FunctionSpaceData)
    (V : FunctionSpace) (entity_set : EntitySet) (map_arity : Z)
    (bcs : list DirichletBC) (name : string) (offset : option (list Z))
    (parent : option nat) (st : MapStore) :
  fs_len V = 1%nat ->
  plain_name name = true ->
  cache_consistent T self st ->
  fsd_extruded self = true ->
  Exists (fun bc => is_explicit bc = true) bcs ->
  Exists (fun bc => is_explicit bc = false) bcs ->
  Forall (targets V) bcs ->
  Forall wf_bc bcs ->
  existsb (oversized (decorate_of bcs)) bcs = false ->
  (forall n, In n (constrained_nodes bcs) -> 0 <= n < Op2.total_size (node_set self)) ->
  Forall (Forall (fun n => 0 <= n < Op2.total_size (node_set self)))
    (entity_node_lists self entity_set) ->
  exists base b st',
    get_map T self V entity_set map_arity (Some bcs) name offset parent st = (Ok b, st')
    /\ heap st' !! b
       = Some (DecoratedMap base false
                 (Some (map (fun bc => (bc_sub_domain bc, bc_method bc))
                          (List.filter (fun bc => is_top_bottom (bc_sub_domain bc)) bcs))))
    /\ getitem (map_caches st') (entity_set, sorted_by hash_leb bcs) = Ok base
    /\ map_values_of st' b
       = Some (map (map (fun n => if decide (n ∈ constrained_nodes bcs)
                                  then sentinel else n))
                 (entity_node_lists self entity_set))
    /\ (forall k, k <> (entity_set, sorted_by hash_leb bcs) ->
          getitem (map_caches st') k = getitem (map_caches st) k)
    /\ sorted_by hash_leb (List.filter is_explicit bcs) <> sorted_by hash_leb bcs.
Proof.
  intros Hlen Hname Hinv Hext Hex Him Htargets Hwf Hsize Hrange Hentries.
  pose proof (split_bcs_mixed bcs Hex Him) as Hsplit.
  pose proof (sorted_by_perm hash_leb bcs) as Hperm.
  assert (Hvals :
    new_entity_node_list T self entity_set (sorted_by hash_leb bcs)
    = Ok (map (map (fun n => if decide (n ∈ constrained_nodes bcs) then sentinel else n))
            (entity_node_lists self entity_set))).
  { rewrite (new_entity_node_list_sentinel T self entity_set (sorted_by hash_leb bcs)
               Hext).
    - f_equal. apply map_ext. intros row. apply map_ext. intros n.
      destruct (decide (n ∈ constrained_nodes (sorted_by hash_leb bcs))) as [H1 | H1],
        (decide (n ∈ constrained_nodes bcs)) as [H2 | H2]; try reflexivity; exfalso.
      + apply H2, list_elem_of_In, (constrained_nodes_perm _ _ n Hperm), list_elem_of_In, H1.
      + apply H1, list_elem_of_In, (constrained_nodes_perm _ _ n Hperm), list_elem_of_In, H2.
    - apply List.Exists_exists in Hex as (e & He & Hexp).
      intros Hnil. unfold explicit_nodes in Hnil. apply map_eq_nil in Hnil.
      assert (Hin : In e (List.filter is_explicit (sorted_by hash_leb bcs))).
      { apply filter_In. split; [| exact Hexp]. by apply sorted_by_In. }
      rewrite Hnil in Hin. destruct Hin.
    - by rewrite Hperm.
    - unfold decorate_of in *.
      rewrite (existsb_perm _ _ _ Hperm). rewrite (existsb_perm _ _ _ Hperm). exact Hsize.
    - intros n Hn. apply Hrange. by apply (constrained_nodes_perm _ _ n Hperm).
    - exact Hentries. }
  destruct (get_map_returns T self V entity_set map_arity (Some bcs) name offset parent st
              (map (map (fun n => if decide (n ∈ constrained_nodes bcs)
                                  then sentinel else n))
                 (entity_node_lists self entity_set)) Hlen Hname) as (b & st' & Hcall).
  { by rewrite Hsplit. }
  { rewrite Hsplit. exact Hvals. }
  destruct (get_map_cached_after _ _ _ _ _ _ _ _ _ _ _ _ Hinv Hcall)
    as (base & Hbase & Hb & _).
  rewrite Hsplit in Hbase, Hb. simpl in Hbase, Hb. destruct Hb as (Hobj & _).
  destruct (get_map_consistent _ _ _ _ _ _ _ _ _ _ _ _ Hinv Hcall) as [_ Hat].
  destruct (Hat b eq_refl) as (vals & Hvals' & Hat').
  rewrite Hsplit in Hvals'. simpl in Hvals'. rewrite Hvals in Hvals'. injection Hvals' as <-.
  exists base, b, st'. repeat split; try assumption.
  - intros k Hk.
    pose proof (get_map_other_keys T self V entity_set map_arity (Some bcs) name offset
                  parent st k) as Hother.
    rewrite Hsplit, Hcall in Hother. by apply Hother.
  - intros Heq. apply (f_equal (@length _)) in Heq.
    rewrite !(Permutation_length (sorted_by_perm hash_leb _)) in Heq.
    apply List.Exists_exists in Him as (i & Hi & Himp).
    clear - Heq Hi Himp. induction bcs as [| bc bcs IH]; [destruct Hi |].
    simpl in Heq. pose proof (filter_length_le is_explicit bcs) as Hle.
    destruct Hi as [-> | Hi].
    + rewrite Himp in Heq. lia.
    + destruct (is_explicit bc); simpl in Heq; [apply IH; [exact Hi | lia] | lia].
Qed.

Lemma get_map_mixed_constraints_witness :
  exists base b st',
    get_map Np.Int32 column_data column_W ExteriorFacetSet 4 (Some [bc_whole; bc_top])
      "exterior_facet_node" (Some [1; 1; 1; 1]) None empty_store = (Ok b, st')
    /\ heap st' !! b
       = Some (DecoratedMap base false
                 (Some (map (fun bc => (bc_sub_domain bc, bc_method bc))
                          (List.filter (fun bc => is_top_bottom (bc_sub_domain bc))
                             [bc_whole; bc_top]))))
    /\ getitem (map_caches st') (ExteriorFacetSet, sorted_by hash_leb [bc_whole; bc_top])
       = Ok base
    /\ map_values_of st' b
       = Some (map (map (fun n => if decide (n ∈ constrained_nodes [bc_whole; bc_top])
                                  then sentinel else n))
                 (entity_node_lists column_data ExteriorFacetSet))
    /\ (forall k, k <> (ExteriorFacetSet, sorted_by hash_leb [bc_whole; bc_top]) ->
          getitem (map_caches st') k = getitem (map_caches empty_store) k)
    /\ sorted_by hash_leb (List.filter is_explicit [bc_whole; bc_top])
       <> sorted_by hash_leb [bc_whole; bc_top].
Proof.
  apply (get_map_mixed_constraints Np.Int32 column_data column_W ExteriorFacetSet 4
           [bc_whole; bc_top] "exterior_facet_node" (Some [1; 1; 1; 1]) None empty_store).
  - reflexivity.
  - reflexivity.
  - apply cache_consistent_empty.
  - reflexivity.
  - apply Exists_cons_hd. reflexivity.
  - apply Exists_cons_tl, Exists_cons_hd. reflexivity.
  - repeat constructor.
  - repeat constructor; simpl; lia.
  - reflexivity.
  - intros n Hn. change (Op2.total_size (node_set column_data)) with 6.
    vm_compute in Hn. intuition lia.
  - change (Op2.total_size (node_set column_data)) with 6.
    change (entity_node_lists column_data ExteriorFacetSet)
      with [[0; 1; 3; 4]; [0; 1; 3; 4]].
    repeat constructor; lia.
Defined.

(** ** The boundary nodes are shared through the mesh *)

Lemma cached_outcome {K V : Type} `{EqDecision K} (f : K -> result V) (key : K)
    (cache : dict K V) :
  (exists v cache', cached f key cache = (Ok v, cache') /\ getitem cache' key = Ok v)
  \/ (exists e, cached f key cache = (Raise e, cache)).
Proof.
  unfold cached. destruct (getitem cache key) as [v | e] eqn:Hget.
  - left. by exists v, cache.
  - rewrite (getitem_raise_KeyError _ _ _ Hget).
    destruct (f key) as [r | e']; [| right; by exists e'].
    left. exists r, (cache ++ [(key, r)]). split; [reflexivity |].
    rewrite (getitem_app_new _ _ key r _ Hget). by rewrite decide_True.
Qed.

Lemma as_tuple_eq (sd sd' : SubDomain) :
  as_tuple sd' = as_tuple sd ->
  is_top_bottom sd' = is_top_bottom sd
  /\ (if bool_decide (sd' = on_boundary) then sd' else as_tuple sd')
     = (if bool_decide (sd = on_boundary) then sd else as_tuple sd)
  /\ (is_top_bottom sd = true -> sd' = sd).
Proof.
  destruct sd as [s | i | t], sd' as [s' | i' | t']; simpl; intros Heq;
    try discriminate; try (injection Heq as ->); try (injection Heq as <-);
    repeat split; try reflexivity; try discriminate.
Qed.

(** X13: the boundary nodes are memoized on the mesh under the entity
    dofs of the element, the sub-domain and the method, not under the
    function space.  When [boundary_nodes] returns an array, every later
    call for a function space whose element has the same entity dofs,
    with the same sub-domain, be it given as an integer or as the tuple
    of that integer, returns that array and leaves the caches alone;
    when it raises, nothing has been cached. *)
Theorem boundary_nodes_shared (T : Np.IntType) (env : Collaborators) (mesh : MeshTopology)
    (V V' : Space) (sub_domain sub_domain' : SubDomain) (method : string)
    (c : BoundaryCaches) :
  el_entity_dofs (V_finat_element V') = el_entity_dofs (V_finat_element V) ->
  fsd_extruded (V_data V') = fsd_extruded (V_data V) ->
  as_tuple sub_domain' = as_tuple sub_domain ->
  match boundary_nodes T env mesh V sub_domain method c with
  | (Ok l, c') => boundary_nodes T env mesh V' sub_domain' method c' = (Ok l, c')
  | (Raise _, c') => c' = c
  end.
Proof.
  intros Hdofs Hext Hsd.
  destruct (as_tuple_eq sub_domain sub_domain' Hsd) as (Htb & Hkey & Hsame).
  unfold boundary_nodes. rewrite Htb, Hkey, Hext, Hdofs.
  destruct (negb _); [reflexivity |].
  destruct (is_top_bottom sub_domain) eqn:Htop.
  - rewrite (Hsame eq_refl).
    destruct (negb (fsd_extruded (V_data V))); [reflexivity |].
    destruct (entity_dofs_key tuple_leb _) as [edk | e]; [| reflexivity].
    destruct (cached_outcome
                (fun key => get_top_bottom_boundary_nodes T env mesh key V)
                (edk, sub_domain, method) (top_bottom_cache c))
      as [(l & cache' & -> & Hget) | (e & ->)]; [| by destruct c].
    simpl. unfold cached. by rewrite Hget.
  - destruct (entity_dofs_key tuple_leb _) as [edk | e]; [| reflexivity].
    set (sdkey := if bool_decide (sub_domain = on_boundary) then sub_domain
                  else as_tuple sub_domain).
    destruct (cached_outcome
                (fun key => get_boundary_nodes T env mesh key V)
                (edk, sdkey, method) (boundary_cache c))
      as [(l & cache' & -> & Hget) | (e & ->)]; [| by destruct c].
    simpl. unfold cached. by rewrite Hget.
Qed.

Lemma boundary_nodes_shared_witness :
  match boundary_nodes Np.Int32 interval_collaborators interval_mesh interval_space
          (SubInt 1) "topological" (mkBCaches [] []) with
  | (Ok l, c') =>
      boundary_nodes Np.Int32 interval_collaborators interval_mesh interval_space
        (SubTuple [1]) "topological" c' = (Ok l, c')
  | (Raise _, c') => c' = mkBCaches [] []
  end.
Proof.
  apply (boundary_nodes_shared Np.Int32 interval_collaborators interval_mesh
           interval_space interval_space (SubInt 1) (SubTuple [1]) "topological"
           (mkBCaches [] [])); reflexivity.
Defined.

(** ** Function spaces with the same entity dofs share their data *)

Lemma extends_refl (m : MeshState) : extends m m.
Proof. split; [exists []; by rewrite app_nil_r | auto]. Qed.

Lemma extends_trans (m1 m2 m3 : MeshState) :
  extends m1 m2 -> extends m2 m3 -> extends m1 m3.
Proof.
  intros [[a1 H1] Hc1] [[a2 H2] Hc2]. split.
  - exists (a1 ++ a2). by rewrite H2, H1, app_assoc.
  - auto.
Qed.

Lemma bind_inv {A B : Type} (f : Build A) (g : A -> Build B) (m m' : MeshState)
    (r : result B) :
  (f ≫= g) m = (r, m') ->
  (exists a m1, f m = (Ok a, m1) /\ g a m1 = (r, m'))
  \/ (exists e, f m = (Raise e, m') /\ r = Raise e).
Proof.
  unfold mbind, build_bind. destruct (f m) as [[a | e] m1]; intros H.
  - left. by exists a, m1.
  - right. exists e. by injection H as <- <-.
Qed.

Lemma grows_bind {A B : Type} (f : Build A) (g : A -> Build B) :
  grows f -> (forall a, grows (g a)) -> grows (f ≫= g).
Proof.
  intros Hf Hg m r m' H.
  destruct (bind_inv f g m m' r H) as [(a & m1 & H1 & H2) | (e & H1 & _)].
  - eapply extends_trans; [eapply Hf, H1 | eapply Hg, H2].
  - eapply Hf, H1.
Qed.

Lemma grows_ret {A : Type} (x : A) : grows (mret x : Build A).
Proof. intros m r m' H. injection H as _ <-. apply extends_refl. Qed.

Lemma grows_lift {A : Type} (x : result A) : grows (lift x).
Proof. intros m r m' H. injection H as _ <-. apply extends_refl. Qed.

Lemma grows_new_object (o : SharedObject) : grows (new_object o).
Proof.
  intros m r m' H. injection H as _ <-. split; simpl; [by eexists | auto].
Qed.

Lemma grows_the_object (r : Ref) : grows (the_object r).
Proof.
  intros m r' m' H. unfold the_object in H.
  destruct r as [| a]; [| destruct (objects m !! a)]; injection H as _ <-;
    apply extends_refl.
Qed.

Lemma getitem_setitem_keeps {K V : Type} `{EqDecision K} (d : dict K V) (k k' : K)
    (v v' : V) (e : exn) :
  getitem d k = Raise e -> getitem d k' = Ok v' -> getitem (setitem d k v) k' = Ok v'.
Proof.
  intros Hk Hk'. destruct (decide (k = k')) as [<- | Hne]; [congruence |].
  by rewrite getitem_setitem_ne.
Qed.

Lemma cached_call_hit (fname : string) (f : Build Ref) (key : CacheKey) (m : MeshState)
    (v : Ref) :
  getitem (shared_data_cache m) (fname, key) = Ok v ->
  cached_call fname f key m = (Ok v, m).
Proof. intros H. unfold cached_call. by rewrite H. Qed.

(** A cached call lets the mesh grow when the function does, and what
    it returns is then in the cache. *)
Lemma cached_call_stores (fname : string) (f : Build Ref) (key : CacheKey) :
  grows f ->
  grows (cached_call fname f key)
  /\ forall m r m', cached_call fname f key m = (Ok r, m') ->
       getitem (shared_data_cache m') (fname, key) = Ok r.
Proof.
  intros Hf. split.
  - intros m r m' H. unfold cached_call in H.
    destruct (getitem (shared_data_cache m) (fname, key)) as [v | e] eqn:Hget.
    { injection H as _ <-. apply extends_refl. }
    destruct e; try (injection H as _ <-; apply extends_refl).
    destruct (f m) as [[r0 | e0] m0] eqn:Hrun.
    + injection H as _ <-. destruct (Hf m _ _ Hrun) as [Hobj Hcache].
      split; [exact Hobj |]. simpl. intros k v Hk.
      destruct (decide ((fname, key) = k)) as [<- | Hne]; [congruence |].
      rewrite getitem_setitem_ne by exact Hne. by apply Hcache.
    + injection H as _ <-. eapply Hf, Hrun.
  - intros m r m' H. unfold cached_call in H.
    destruct (getitem (shared_data_cache m) (fname, key)) as [v | e] eqn:Hget.
    { injection H as <- <-. exact Hget. }
    destruct e; try discriminate.
    destruct (f m) as [[r0 | e0] m0] eqn:Hrun; [| discriminate].
    injection H as <- <-. simpl. apply getitem_setitem_eq.
Qed.

Lemma grows_get_global_numbering (mesh : MeshTopology) (nodes_per_entity : list Z) :
  grows (s ← lift (get_global_numbering mesh nodes_per_entity);
         new_object (SectionObj s)).
Proof. apply grows_bind; [apply grows_lift | intros; apply grows_new_object]. Qed.

Lemma grows_get_node_set (T : Np.IntType) (mesh : MeshTopology)
    (nodes_per_entity : list Z) :
  grows (global_numbering ← cached_get_global_numbering mesh nodes_per_entity;
         o ← the_object global_numbering;
         match o with
         | SectionObj s =>
             node_set ← lift (get_node_set T mesh [(nodes_per_entity, s)]
                                nodes_per_entity);
             new_object (SetObj node_set)
         | _ => lift (Raise TypeError)
         end).
Proof.
  apply grows_bind.
  { apply cached_call_stores, grows_get_global_numbering. }
  intros r. apply grows_bind; [apply grows_the_object |].
  intros [s | | | | |]; try apply grows_lift.
  apply grows_bind; [apply grows_lift | intros; apply grows_new_object].
Qed.

Lemma grows_get_dof_offset (mm : MeshMethods)
    (entity_dofs : dict (list Z) (dict Z (list Z))) (ndof : Z) :
  grows (match make_offset mm entity_dofs ndof with
         | Some a => new_object (ArrayObj a)
         | None => mret PyNone
         end).
Proof. destruct (make_offset mm entity_dofs ndof); [apply grows_new_object | apply grows_ret]. Qed.

Lemma grows_get_entity_node_lists (mm : MeshMethods)
    (entity_dofs : dict (list Z) (dict Z (list Z))) (global_numbering offsets : Ref) :
  grows (o ← the_object global_numbering;
         offsets ← match offsets with
                   | PyNone => mret None
                   | At _ =>
                       a ← the_object offsets;
                       match a with
                       | ArrayObj a => mret (Some a)
                       | _ => lift (Raise TypeError)
                       end
                   end;
         match o with
         | SectionObj s =>
             lists ← lift (get_entity_node_lists mm entity_dofs s offsets);
             new_object (NodeListsObj lists)
         | _ => lift (Raise TypeError)
         end).
Proof.
  apply grows_bind; [apply grows_the_object |]. intros o. apply grows_bind.
  - destruct offsets; [apply grows_ret |].
    apply grows_bind; [apply grows_the_object |].
    intros [| | | arr | |]; first [apply grows_lift | apply grows_ret].
  - intros offs. destruct o; try apply grows_lift.
    apply grows_bind; [apply grows_lift | intros; apply grows_new_object].
Qed.

Lemma grows_get_boundary_masks (mesh : MeshTopology) (finat_element : FinatElement) :
  grows (masks ← lift (get_boundary_masks mesh finat_element);
         match masks with
         | Some masks => new_object (MasksObj masks)
         | None => mret PyNone
         end).
Proof.
  apply grows_bind; [apply grows_lift |].
  intros [masks |]; [apply grows_new_object | apply grows_ret].
Qed.

(** What a construction leaves in the cache: the six objects of the
    slots, under the nodes per entity and the canonical entity dofs. *)
Lemma FunctionSpaceData_init_cached (T : Np.IntType) (mesh : MeshTopology)
    (mm : MeshMethods) (finat_element : FinatElement) (m0 m1 : MeshState)
    (d : FunctionSpaceDataSlots) :
  FunctionSpaceData_init T mesh mm finat_element m0 = (Ok d, m1) ->
  exists edofs_key,
    let nodes_per_entity := make_dofs_per_plex_entity mm (el_entity_dofs finat_element) in
    let cache := shared_data_cache m1 in
    entity_dofs_key tuple_leb (el_entity_dofs finat_element) = Ok edofs_key
    /\ getitem cache ("get_global_numbering"%string, NodesKey nodes_per_entity)
       = Ok (slot_global_numbering d)
    /\ getitem cache ("get_node_set"%string, NodesKey nodes_per_entity)
       = Ok (slot_node_set d)
    /\ getitem cache ("get_map_caches"%string, DofsKey edofs_key) = Ok (slot_map_caches d)
    /\ getitem cache ("get_dof_offset"%string, DofsKey edofs_key) = Ok (slot_offset d)
    /\ getitem cache ("get_entity_node_lists"%string, DofsKey edofs_key)
       = Ok (slot_entity_node_lists d)
    /\ getitem cache ("get_boundary_masks"%string, DofsKey edofs_key)
       = Ok (slot_boundary_masks d)
    /\ slot_extruded d = cell_set_extruded mesh
    /\ slot_mesh d = mesh_id mesh
    /\ extends m0 m1.
Proof.
  unfold FunctionSpaceData_init. intros H.
  set (entity_dofs := el_entity_dofs finat_element) in *.
  set (npe := make_dofs_per_plex_entity mm entity_dofs) in *.
  apply bind_inv in H as [(gn & s1 & H1 & H) | (e & _ & ?)]; [| discriminate].
  apply bind_inv in H as [(ns & s2 & H2 & H) | (e & _ & ?)]; [| discriminate].
  apply bind_inv in H as [(key & s3 & H3 & H) | (e & _ & ?)]; [| discriminate].
  apply bind_inv in H as [(mc & s4 & H4 & H) | (e & _ & ?)]; [| discriminate].
  apply bind_inv in H as [(off & s5 & H5 & H) | (e & _ & ?)]; [| discriminate].
  apply bind_inv in H as [(enl & s6 & H6 & H) | (e & _ & ?)]; [| discriminate].
  apply bind_inv in H as [(bm & s7 & H7 & H) | (e & _ & ?)]; [| discriminate].
  injection H as <- <-. unfold lift in H3. injection H3 as Hkey <-.
  destruct (cached_call_stores "get_global_numbering" _ (NodesKey npe)
              (grows_get_global_numbering mesh npe)) as [G1 S1].
  destruct (cached_call_stores "get_node_set" _ (NodesKey npe)
              (grows_get_node_set T mesh npe)) as [G2 S2].
  destruct (cached_call_stores "get_map_caches" _ (DofsKey key)
              (grows_new_object MapCachesObj)) as [G4 S4].
  destruct (cached_call_stores "get_dof_offset" _ (DofsKey key)
              (grows_get_dof_offset mm entity_dofs (el_space_dimension finat_element)))
    as [G5 S5].
  destruct (cached_call_stores "get_entity_node_lists" _ (DofsKey key)
              (grows_get_entity_node_lists mm entity_dofs gn off)) as [G6 S6].
  destruct (cached_call_stores "get_boundary_masks" _ (DofsKey key)
              (grows_get_boundary_masks mesh finat_element)) as [G7 S7].
  pose proof (G1 _ _ _ H1) as E1. pose proof (G2 _ _ _ H2) as E2.
  pose proof (G4 _ _ _ H4) as E4. pose proof (G5 _ _ _ H5) as E5.
  pose proof (G6 _ _ _ H6) as E6. pose proof (G7 _ _ _ H7) as E7.
  exists key. simpl. split; [exact Hkey |].
  split; [apply E7, E6, E5, E4, E2, (S1 _ _ _ H1) |].
  split; [apply E7, E6, E5, E4, (S2 _ _ _ H2) |].
  split; [apply E7, E6, E5, (S4 _ _ _ H4) |].
  split; [apply E7, E6, (S5 _ _ _ H5) |].
  split; [apply E7, (S6 _ _ _ H6) |].
  split; [apply (S7 _ _ _ H7) |].
  split; [reflexivity |]. split; [reflexivity |].
  repeat (eapply extends_trans; [| eassumption]). apply extends_refl.
Qed.

(** X15: function spaces with the same entity dofs share their data.
    After the data of an element was built on the mesh, building the
    data of an element with the same canonical entity dofs and the same
    nodes per entity builds nothing: every slot is the object that the
    first construction got, so the two compare equal, and the mesh and
    its caches are as before. *)
Theorem shared_data_reused (T : Np.IntType) (mesh : MeshTopology) (mm : MeshMethods)
    (e1 e2 : FinatElement) (m0 m1 : MeshState) (d1 : FunctionSpaceDataSlots) :
  FunctionSpaceData_init T mesh mm e1 m0 = (Ok d1, m1) ->
  entity_dofs_key tuple_leb (el_entity_dofs e2)
  = entity_dofs_key tuple_leb (el_entity_dofs e1) ->
  make_dofs_per_plex_entity mm (el_entity_dofs e2)
  = make_dofs_per_plex_entity mm (el_entity_dofs e1) ->
  exists d2,
    FunctionSpaceData_init T mesh mm e2 m1 = (Ok d2, m1)
    /\ FunctionSpaceData_eq d1 d2 = true.
Proof.
  intros Hinit Hkey Hnodes.
  destruct (FunctionSpaceData_init_cached T mesh mm e1 m0 m1 d1 Hinit)
    as (key & Hk & C1 & C2 & C3 & C4 & C5 & C6 & Hext & Hmesh & _).
  simpl in *. exists d1. split.
  - unfold FunctionSpaceData_init. rewrite Hnodes, Hkey, Hk.
    unfold cached_get_global_numbering, cached_get_node_set, cached_get_map_caches,
      cached_get_dof_offset, cached_get_entity_node_lists, cached_get_boundary_masks.
    unfold mbind, build_bind, lift, mret, build_ret.
    rewrite (cached_call_hit _ _ _ _ _ C1), (cached_call_hit _ _ _ _ _ C2),
      (cached_call_hit _ _ _ _ _ C3), (cached_call_hit _ _ _ _ _ C4),
      (cached_call_hit _ _ _ _ _ C5), (cached_call_hit _ _ _ _ _ C6).
    rewrite <- Hext, <- Hmesh. by destruct d1.
  - unfold FunctionSpaceData_eq. by rewrite !bool_decide_eq_true_2.
Qed.

Lemma shared_data_reused_witness :
  exists d2,
    FunctionSpaceData_init Np.Int32 interval_mesh interval_methods
      interval_element_reordered interval_mesh_state = (Ok d2, interval_mesh_state)
    /\ FunctionSpaceData_eq (mkSlots (At 2) (At 3) (At 1) PyNone PyNone false 1 (At 0)) d2
       = true.
Proof.
  apply (shared_data_reused Np.Int32 interval_mesh interval_methods interval_element
           interval_element_reordered (mkMeshState [] []) interval_mesh_state
           (mkSlots (At 2) (At 3) (At 1) PyNone PyNone false 1 (At 0)));
    reflexivity.
Defined.

Lemma keeps_bind {A B : Type} (fname : string) (f : Build A) (g : A -> Build B) :
  keeps fname f -> (forall a, keeps fname (g a)) -> keeps fname (f ≫= g).
Proof.
  intros Hf Hg m r m' key H.
  destruct (bind_inv f g m m' r H) as [(a & m1 & H1 & H2) | (e & H1 & _)].
  - rewrite (Hg a _ _ _ key H2). apply (Hf _ _ _ key H1).
  - apply (Hf _ _ _ key H1).
Qed.

Lemma keeps_lift {A : Type} (fname : string) (x : result A) : keeps fname (lift x).
Proof. intros m r m' key H. by injection H as _ <-. Qed.

Lemma keeps_new_object (fname : string) (o : SharedObject) : keeps fname (new_object o).
Proof. intros m r m' key H. by injection H as _ <-. Qed.

Lemma keeps_the_object (fname : string) (r : Ref) : keeps fname (the_object r).
Proof.
  intros m r' m' key H. unfold the_object in H.
  destruct r as [| a]; [| destruct (objects m !! a)]; by injection H as _ <-.
Qed.

Lemma keeps_cached_call (fname name : string) (f : Build Ref) (key : CacheKey) :
  name <> fname -> keeps fname f -> keeps fname (cached_call name f key).
Proof.
  intros Hne Hf m r m' key' H. unfold cached_call in H.
  destruct (getitem (shared_data_cache m) (name, key)) as [v | e].
  { by injection H as _ <-. }
  destruct e; try (by injection H as _ <-).
  destruct (f m) as [[r0 | e0] m0] eqn:Hrun; injection H as _ <-; simpl.
  - rewrite getitem_setitem_ne by congruence. apply (Hf _ _ _ key' Hrun).
  - apply (Hf _ _ _ key' Hrun).
Qed.

Lemma keeps_get_global_numbering (fname : string) (mesh : MeshTopology)
    (nodes_per_entity : list Z) :
  fname <> "get_global_numbering"%string ->
  keeps fname (cached_get_global_numbering mesh nodes_per_entity).
Proof.
  intros Hne. apply keeps_cached_call; [congruence |].
  apply keeps_bind; [apply keeps_lift | intros; apply keeps_new_object].
Qed.

Lemma keeps_get_node_set (fname : string) (T : Np.IntType) (mesh : MeshTopology)
    (nodes_per_entity : list Z) :
  fname <> "get_global_numbering"%string -> fname <> "get_node_set"%string ->
  keeps fname (cached_get_node_set T mesh nodes_per_entity).
Proof.
  intros Hne1 Hne2. apply keeps_cached_call; [congruence |].
  apply keeps_bind; [by apply keeps_get_global_numbering |].
  intros r. apply keeps_bind; [apply keeps_the_object |].
  intros [s | | | | |]; try apply keeps_lift.
  apply keeps_bind; [apply keeps_lift | intros; apply keeps_new_object].
Qed.

Lemma keeps_get_dof_offset (fname : string) (mm : MeshMethods)
    (key : list (list Z * list (list Z)))
    (entity_dofs : dict (list Z) (dict Z (list Z))) (ndof : Z) :
  fname <> "get_dof_offset"%string ->
  keeps fname (cached_get_dof_offset mm key entity_dofs ndof).
Proof.
  intros Hne. apply keeps_cached_call; [congruence |].
  destruct (make_offset mm entity_dofs ndof); [apply keeps_new_object | apply keeps_lift].
Qed.

Lemma keeps_get_entity_node_lists (fname : string) (mm : MeshMethods)
    (key : list (list Z * list (list Z)))
    (entity_dofs : dict (list Z) (dict Z (list Z))) (global_numbering offsets : Ref) :
  fname <> "get_entity_node_lists"%string ->
  keeps fname (cached_get_entity_node_lists mm key entity_dofs global_numbering offsets).
Proof.
  intros Hne. apply keeps_cached_call; [congruence |].
  apply keeps_bind; [apply keeps_the_object |]. intros o. apply keeps_bind.
  - destruct offsets; [apply keeps_lift |].
    apply keeps_bind; [apply keeps_the_object |].
    intros [| | | arr | |]; apply keeps_lift.
  - intros offs. destruct o; try apply keeps_lift.
    apply keeps_bind; [apply keeps_lift | intros; apply keeps_new_object].
Qed.

Lemma keeps_get_boundary_masks (fname : string) (mesh : MeshTopology)
    (key : list (list Z * list (list Z))) (finat_element : FinatElement) :
  fname <> "get_boundary_masks"%string ->
  keeps fname (cached_get_boundary_masks mesh key finat_element).
Proof.
  intros Hne. apply keeps_cached_call; [congruence |].
  apply keeps_bind; [apply keeps_lift |].
  intros [masks |]; [apply keeps_new_object | apply keeps_lift].
Qed.

Lemma map_caches_distinct_empty : map_caches_distinct (mkMeshState [] []).
Proof. intros k r H. discriminate. Qed.

(** Code that grows the mesh and leaves the entries of [get_map_caches]
    alone keeps them distinct. *)
Lemma map_caches_distinct_kept {A : Type} (f : Build A) (m m' : MeshState) (r : result A) :
  grows f -> keeps "get_map_caches" f -> f m = (r, m') ->
  map_caches_distinct m -> map_caches_distinct m'.
Proof.
  intros Hg Hk Hrun Hd k v Hv.
  rewrite (Hk _ _ _ k Hrun) in Hv. destruct (Hd k v Hv) as (a & -> & Ha & Hinj).
  destruct (Hg _ _ _ Hrun) as [[added Hobj] _].
  exists a. split; [reflexivity |]. split.
  - rewrite Hobj, length_app. lia.
  - intros k' Hk'. rewrite (Hk _ _ _ k' Hrun) in Hk'. by apply Hinj.
Qed.

Lemma map_caches_distinct_call (key : list (list Z * list (list Z)))
    (m m' : MeshState) (r : result Ref) :
  cached_get_map_caches key m = (r, m') ->
  map_caches_distinct m -> map_caches_distinct m'.
Proof.
  unfold cached_get_map_caches, cached_call. intros Hrun Hd.
  destruct (getitem (shared_data_cache m) ("get_map_caches"%string, DofsKey key))
    as [v | e] eqn:Hget.
  { by injection Hrun as _ <-. }
  destruct e; try (by injection Hrun as _ <-).
  injection Hrun as _ <-. intros k v. simpl.
  destruct (decide (DofsKey key = k)) as [<- | Hne].
  - rewrite getitem_setitem_eq. intros Hv. injection Hv as <-.
    exists (length (objects m)). split; [reflexivity |]. split.
    { rewrite length_app. simpl. lia. }
    intros k' Hk'. destruct (decide (DofsKey key = k')) as [<- | Hne']; [reflexivity |].
    rewrite getitem_setitem_ne in Hk' by congruence.
    destruct (Hd k' _ Hk') as (a & Ha & Hlt & _). injection Ha as Ha. lia.
  - rewrite getitem_setitem_ne by congruence. intros Hv.
    destruct (Hd k v Hv) as (a & -> & Ha & Hinj).
    exists a. split; [reflexivity |]. split.
    { rewrite length_app. lia. }
    intros k' Hk'. destruct (decide (DofsKey key = k')) as [<- | Hne'].
    + rewrite getitem_setitem_eq in Hk'. injection Hk' as Hk'. lia.
    + rewrite getitem_setitem_ne in Hk' by congruence. by apply Hinj.
Qed.

Lemma FunctionSpaceData_init_distinct (T : Np.IntType) (mesh : MeshTopology)
    (mm : MeshMethods) (finat_element : FinatElement) (m0 m1 : MeshState)
    (r : result FunctionSpaceDataSlots) :
  FunctionSpaceData_init T mesh mm finat_element m0 = (r, m1) ->
  map_caches_distinct m0 -> map_caches_distinct m1.
Proof.
  unfold FunctionSpaceData_init. intros H Hd.
  set (entity_dofs := el_entity_dofs finat_element) in *.
  set (npe := make_dofs_per_plex_entity mm entity_dofs) in *.
  assert (G1 : grows (cached_get_global_numbering mesh npe))
    by apply cached_call_stores, grows_get_global_numbering.
  assert (K1 : keeps "get_map_caches" (cached_get_global_numbering mesh npe))
    by (apply keeps_get_global_numbering; discriminate).
  apply bind_inv in H as [(gn & s1 & H1 & H) | (e & H1 & _)].
  2: { exact (map_caches_distinct_kept _ _ _ _ G1 K1 H1 Hd). }
  pose proof (map_caches_distinct_kept _ _ _ _ G1 K1 H1 Hd) as Hd1.
  assert (G2 : grows (cached_get_node_set T mesh npe))
    by apply cached_call_stores, grows_get_node_set.
  assert (K2 : keeps "get_map_caches" (cached_get_node_set T mesh npe))
    by (apply keeps_get_node_set; discriminate).
  apply bind_inv in H as [(ns & s2 & H2 & H) | (e & H2 & _)].
  2: { exact (map_caches_distinct_kept _ _ _ _ G2 K2 H2 Hd1). }
  pose proof (map_caches_distinct_kept _ _ _ _ G2 K2 H2 Hd1) as Hd2.
  apply bind_inv in H as [(key & s3 & H3 & H) | (e & H3 & _)];
    unfold lift in H3; injection H3 as _ <-; [| exact Hd2].
  apply bind_inv in H as [(mc & s4 & H4 & H) | (e & H4 & _)].
  2: { exact (map_caches_distinct_call _ _ _ _ H4 Hd2). }
  pose proof (map_caches_distinct_call _ _ _ _ H4 Hd2) as Hd4.
  assert (G5 : grows (cached_get_dof_offset mm key entity_dofs
                        (el_space_dimension finat_element)))
    by apply cached_call_stores, grows_get_dof_offset.
  assert (K5 : keeps "get_map_caches"
                 (cached_get_dof_offset mm key entity_dofs
                    (el_space_dimension finat_element)))
    by (apply keeps_get_dof_offset; discriminate).
  apply bind_inv in H as [(off & s5 & H5 & H) | (e & H5 & _)].
  2: { exact (map_caches_distinct_kept _ _ _ _ G5 K5 H5 Hd4). }
  pose proof (map_caches_distinct_kept _ _ _ _ G5 K5 H5 Hd4) as Hd5.
  assert (G6 : grows (cached_get_entity_node_lists mm key entity_dofs gn off))
    by apply cached_call_stores, grows_get_entity_node_lists.
  assert (K6 : keeps "get_map_caches"
                 (cached_get_entity_node_lists mm key entity_dofs gn off))
    by (apply keeps_get_entity_node_lists; discriminate).
  apply bind_inv in H as [(enl & s6 & H6 & H) | (e & H6 & _)].
  2: { exact (map_caches_distinct_kept _ _ _ _ G6 K6 H6 Hd5). }
  pose proof (map_caches_distinct_kept _ _ _ _ G6 K6 H6 Hd5) as Hd6.
  assert (G7 : grows (cached_get_boundary_masks mesh key finat_element))
    by apply cached_call_stores, grows_get_boundary_masks.
  assert (K7 : keeps "get_map_caches" (cached_get_boundary_masks mesh key finat_element))
    by (apply keeps_get_boundary_masks; discriminate).
  apply bind_inv in H as [(bm & s7 & H7 & H) | (e & H7 & _)].
  2: { exact (map_caches_distinct_kept _ _ _ _ G7 K7 H7 Hd6). }
  injection H as _ <-.
  exact (map_caches_distinct_kept _ _ _ _ G7 K7 H7 Hd6).
Qed.

(** X16: elements with other entity dofs get map caches of their own.
    On a mesh whose map caches are distinct objects, as on a new mesh
    and after every construction, when the data of two elements with the
    same nodes per entity and different canonical entity dofs are built
    one after the other, the two share the numbering and the node set,
    their map caches are different objects, and they do not compare
    equal. *)
Theorem shared_numbering_only (T : Np.IntType) (mesh : MeshTopology) (mm : MeshMethods)
    (e1 e2 : FinatElement) (m0 m1 m2 : MeshState) (d1 d2 : FunctionSpaceDataSlots) :
  map_caches_distinct m0 ->
  FunctionSpaceData_init T mesh mm e1 m0 = (Ok d1, m1) ->
  FunctionSpaceData_init T mesh mm e2 m1 = (Ok d2, m2) ->
  make_dofs_per_plex_entity mm (el_entity_dofs e2)
  = make_dofs_per_plex_entity mm (el_entity_dofs e1) ->
  entity_dofs_key tuple_leb (el_entity_dofs e2)
  <> entity_dofs_key tuple_leb (el_entity_dofs e1) ->
  slot_global_numbering d2 = slot_global_numbering d1
  /\ slot_node_set d2 = slot_node_set d1
  /\ slot_map_caches d2 <> slot_map_caches d1
  /\ FunctionSpaceData_eq d1 d2 = false
  /\ map_caches_distinct m2.
Proof.
  intros Hd0 Hinit1 Hinit2 Hnodes Hkeys.
  pose proof (FunctionSpaceData_init_distinct _ _ _ _ _ _ _ Hinit1 Hd0) as Hd1.
  pose proof (FunctionSpaceData_init_distinct _ _ _ _ _ _ _ Hinit2 Hd1) as Hd2.
  destruct (FunctionSpaceData_init_cached T mesh mm e1 m0 m1 d1 Hinit1)
    as (key1 & Hk1 & N1 & S1 & M1 & _).
  destruct (FunctionSpaceData_init_cached T mesh mm e2 m1 m2 d2 Hinit2)
    as (key2 & Hk2 & N2 & S2 & M2 & _ & _ & _ & _ & _ & [_ Hext]).
  simpl in *. rewrite Hnodes in N2, S2.
  apply Hext in N1, S1, M1.
  assert (Hmc : slot_map_caches d2 <> slot_map_caches d1).
  { intros Heq. rewrite Heq in M2.
    destruct (Hd2 _ _ M1) as (a & _ & _ & Hinj).
    specialize (Hinj _ M2). injection Hinj as Hinj. congruence. }
  split; [congruence |]. split; [congruence |]. split; [exact Hmc |].
  split; [| exact Hd2].
  unfold FunctionSpaceData_eq. rewrite (bool_decide_eq_false_2 (_ = _)); [reflexivity |].
  congruence.
Qed.

Lemma shared_numbering_only_witness :
  slot_global_numbering (mkSlots (At 4) (At 5) (At 1) PyNone PyNone false 1 (At 0))
  = slot_global_numbering (mkSlots (At 2) (At 3) (At 1) PyNone PyNone false 1 (At 0))
  /\ slot_node_set (mkSlots (At 4) (At 5) (At 1) PyNone PyNone false 1 (At 0))
     = slot_node_set (mkSlots (At 2) (At 3) (At 1) PyNone PyNone false 1 (At 0))
  /\ slot_map_caches (mkSlots (At 4) (At 5) (At 1) PyNone PyNone false 1 (At 0))
     <> slot_map_caches (mkSlots (At 2) (At 3) (At 1) PyNone PyNone false 1 (At 0))
  /\ FunctionSpaceData_eq (mkSlots (At 2) (At 3) (At 1) PyNone PyNone false 1 (At 0))
       (mkSlots (At 4) (At 5) (At 1) PyNone PyNone false 1 (At 0)) = false
  /\ map_caches_distinct
       (snd (FunctionSpaceData_init Np.Int32 interval_mesh interval_methods
               interval_element_other interval_mesh_state)).
Proof.
  apply (shared_numbering_only Np.Int32 interval_mesh interval_methods interval_element
           interval_element_other (mkMeshState [] []) interval_mesh_state).
  - apply map_caches_distinct_empty.
  - reflexivity.
  - reflexivity.
  - reflexivity.
  - vm_compute. discriminate.
Defined.

(** ** Boundary nodes of a tagged sub-domain on an extruded mesh *)

Lemma add_scaled_exact (T : Np.IntType) (k N : Z) (row offset : list Z) :
  length row = length offset ->
  N <= 2 ^ (Np.bits T - 1) ->
  Forall (fun n => 0 <= n < N) row ->
  Forall (fun n => 0 <= n < N) (zip_with (fun x o => x + k * o) row offset) ->
  Np.add_scaled T k row offset = Ok (zip_with (fun x o => x + k * o) row offset).
Proof.
  intros Hlen HN Hrow Hsum. unfold Np.add_scaled.
  rewrite Hlen, Nat.eqb_refl. f_equal. revert offset Hlen Hrow Hsum.
  induction row as [| x row IH]; intros [| o offset] Hlen Hrow Hsum;
    try discriminate; [reflexivity |].
  simpl in *. injection Hlen as Hlen.
  apply Forall_cons in Hrow as [Hx Hrow]. apply Forall_cons in Hsum as [Hxo Hsum].
  rewrite (IH offset Hlen Hrow Hsum). f_equal.
  unfold Np.add, Np.mul.
  rewrite (wrap_representable T (k * o)) by (unfold Np.representable; lia).
  apply wrap_representable. unfold Np.representable. lia.
Qed.





(** ** Top and bottom nodes by the topological method *)

Lemma get_boundary_masks_state (mesh : MeshTopology) (finat_element : FinatElement) :
  cell_set_extruded mesh = true ->
  match el_entity_support_dofs finat_element with
  | Ok esd => covers (el_entity_closure_dofs finat_element) esd = true
  | Raise e => e = NotImplementedError
  end ->
  exists s,
    get_boundary_masks mesh finat_element
    = Ok (Some
            [("topological"%string,
               Some (Op2.mkMapMask (closure_section s) (closure_indices s)
                       (facet_points s)));
             ("geometric"%string,
               Some (Op2.mkMapMask (support_section s) (support_indices s)
                       (facet_points s)))])
    /\ mask_state (el_spatial_dimension finat_element)
         (el_entity_closure_dofs finat_element)
         (match el_entity_support_dofs finat_element with
          | Ok esd => Some esd
          | Raise _ => None
          end)
         (mask_points (el_spatial_dimension finat_element)
            (el_entity_closure_dofs finat_element)) s.
Proof.
  intros Hext Hsup. unfold get_boundary_masks. rewrite Hext. simpl.
  set (init := mkMaskLoop _ _ _ _ _ _).
  destruct (el_entity_support_dofs finat_element) as [esd | e]; [| subst e]; simpl.
  - destruct (mask_loops_state (el_spatial_dimension finat_element)
                (el_entity_closure_dofs finat_element) (Some esd) init Hsup)
      as (s & -> & Hs); [by repeat split |].
    by exists s.
  - destruct (mask_loops_state (el_spatial_dimension finat_element)
                (el_entity_closure_dofs finat_element) None init I)
      as (s & -> & Hs); [by repeat split |].
    by exists s.
Qed.

Lemma np_getitem_In (a : list Z) (i v : Z) : Np.getitem a i = Ok v -> In v a.
Proof.
  unfold Np.getitem. destruct (Np.norm_index (length a) i) as [j |]; [| discriminate].
  simpl. destruct (a !! j) as [x |] eqn:Hj; [| discriminate].
  intros H. injection H as <-. apply list_elem_of_In. by eapply list_elem_of_lookup_2.
Qed.

Lemma zip_with_maps {A : Type} (f : Z -> Z -> Z) (g h : A -> Z) (l : list A) :
  zip_with f (map g l) (map h l) = map (fun j => f (g j) (h j)) l.
Proof. induction l as [| x l IH]; simpl; [reflexivity | by rewrite IH]. Qed.

Lemma facet_nodes_In (cell_node_list : list (list Z)) (sel : list Z) (shift : Z -> Z)
    (row : list Z) (n : Z) :
  In row cell_node_list ->
  In n (map (fun j => default 0 (row !! Z.to_nat j) + shift j) sel) ->
  In n (facet_nodes cell_node_list sel shift).
Proof.
  intros Hrow Hn. unfold facet_nodes. apply in_concat.
  eexists. split; [| exact Hn]. apply in_map_iff. by exists row.
Qed.

(** X18: the top and bottom nodes by the topological method, for a
    function space whose masks are those that [get_boundary_masks]
    builds on its extruded mesh of uniform layers.  The facet is the
    last but one point of codimension one for the bottom, the last for
    the top; the result is the sorted distinct cell nodes at the closure
    dofs of that facet, for the top moved up by [layers - 2] times the
    offset of the dof.  For the top the nodes before and after the move
    are taken to be below a node count that the index type holds, so
    that no sum wraps around. *)
Theorem top_bottom_nodes_topological (T : Np.IntType) (env : Collaborators)
    (mesh : MeshTopology) (edk : list (list Z * list (list Z))) (V : Space)
    (top : bool) (f N : Z) :
  let dim := el_spatial_dimension (V_finat_element V) in
  let ecd := el_entity_closure_dofs (V_finat_element V) in
  let pts := mask_points dim ecd in
  let cell_node_list := entity_node_lists (V_data V) CellSet in
  let offset := default [] (fsd_offset (V_data V)) in
  let shift := fun j => if top then (cell_set_layers mesh - 2) * default 0 (offset !! Z.to_nat j)
                        else 0 in
  cell_set_extruded mesh = true ->
  variable_layers mesh = false ->
  match el_entity_support_dofs (V_finat_element V) with
  | Ok esd => covers ecd esd = true
  | Raise e => e = NotImplementedError
  end ->
  get_boundary_masks mesh (V_finat_element V) = Ok (fsd_boundary_masks (V_data V)) ->
  Np.getitem (Np.where_eq (map (fun p => sumZ (fst p)) pts) (dim - 1))
    (if top then -1 else -2) = Ok f ->
  (forall p, pts !! Z.to_nat f = Some p ->
     Forall (fun row => Forall (fun j => 0 <= j < Z.of_nat (length row))
                          (sorted_by Z.leb (dofs_at ecd p))) cell_node_list) ->
  (top = true ->
   is_Some (fsd_offset (V_data V))
   /\ N <= 2 ^ (Np.bits T - 1)
   /\ forall p, pts !! Z.to_nat f = Some p ->
        Forall (fun j => 0 <= j < Z.of_nat (length offset)) (sorted_by Z.leb (dofs_at ecd p))
        /\ Forall (fun n => 0 <= n < N)
             (facet_nodes cell_node_list (sorted_by Z.leb (dofs_at ecd p)) (fun _ => 0))
        /\ Forall (fun n => 0 <= n < N)
             (facet_nodes cell_node_list (sorted_by Z.leb (dofs_at ecd p)) shift)) ->
  exists p,
    pts !! Z.to_nat f = Some p
    /\ sumZ (fst p) = dim - 1
    /\ get_top_bottom_boundary_nodes T env mesh
         (edk, SubStr (if top then "top" else "bottom"), "topological"%string) V
       = Ok (Np.unique (facet_nodes cell_node_list (sorted_by Z.leb (dofs_at ecd p)) shift)).
Proof.
  intros dim ecd pts cell_node_list offset shift Hext Hvl Hsup Hmasks Hf Hrows Htop.
  destruct (get_boundary_masks_state mesh (V_finat_element V) Hext Hsup)
    as (s & Hrun & Hcs & Hci & _ & Hfp & _).
  fold dim ecd pts in Hcs, Hci, Hfp.
  rewrite Hrun in Hmasks. injection Hmasks as Hmasks. rewrite <- Hfp in Hf.
  pose proof (np_getitem_In _ _ _ Hf) as Hin. rewrite Hfp in Hin.
  apply where_eq_In in Hin as [Hf0 Hlook]. rewrite list_lookup_fmap in Hlook.
  destruct (pts !! Z.to_nat f) as [p |] eqn:Hp; [| discriminate].
  simpl in Hlook. injection Hlook as Hsum.
  exists p. split; [reflexivity |]. split; [exact Hsum |].
  set (sel := sorted_by Z.leb (dofs_at ecd p)) in *.
  assert (Hslice :
    Np.slice (closure_indices s) (getOffset (closure_section s) f)
      (getOffset (closure_section s) f + getDof (closure_section s) f) = sel).
  { pose proof (mask_state_reads_back (closure_section s) (closure_indices s)
                  (facet_points s) pts ecd Hcs Hci (Z.to_nat f) p Hp) as Hread.
    simpl in Hread. by rewrite Z2Nat.id in Hread by lia. }
  specialize (Hrows p eq_refl). fold sel in Hrows.
  assert (Htake :
    mapM (fun row => Np.take row sel) cell_node_list
    = Ok (map (fun row => map (fun j => default 0 (row !! Z.to_nat j)) sel)
            cell_node_list)).
  { apply mapM_Ok. intros row Hrow. apply take_in_range.
    rewrite List.Forall_forall in Hrows. by apply Hrows. }
  unfold get_top_bottom_boundary_nodes. rewrite Hvl, <- Hmasks.
  fold cell_node_list. destruct top; simpl.
  - destruct (Htop eq_refl) as ([o Ho] & HN & Hp'). destruct (Hp' p eq_refl) as (Hsel & H0 & H1).
    fold sel in Hsel, H0, H1. subst shift offset. rewrite Ho in *. simpl in *.
    rewrite Hf. simpl. rewrite Hslice, Htake. simpl.
    rewrite (take_in_range o sel Hsel). simpl.
    rewrite List.Forall_forall in H0, H1.
    rewrite (mapM_Ok _ (fun taken =>
               zip_with (fun x o => x + (cell_set_layers mesh - 2) * o) taken
                 (map (fun j => default 0 (o !! Z.to_nat j)) sel))).
    + simpl. rewrite map_map. do 2 f_equal. unfold facet_nodes. f_equal.
      apply map_ext. intros row. by rewrite zip_with_maps.
    + intros taken Htaken. apply in_map_iff in Htaken as (row & <- & Hrow).
      rewrite (add_scaled_exact T _ N); [reflexivity | | exact HN | |].
      * by rewrite !length_map.
      * apply List.Forall_forall. intros n Hn. apply H0.
        apply (facet_nodes_In _ _ _ row); [exact Hrow |].
        apply in_map_iff in Hn as (j & <- & Hj). apply in_map_iff. exists j.
        split; [lia | exact Hj].
      * rewrite zip_with_maps. apply List.Forall_forall. intros n Hn. apply H1.
        by apply (facet_nodes_In _ _ _ row).
  - rewrite Hf. simpl. rewrite Hslice, Htake. simpl. do 2 f_equal.
    unfold facet_nodes. f_equal. apply map_ext. intros row. apply map_ext. intros j.
    subst shift. simpl. lia.
Qed.

Lemma top_bottom_nodes_topological_witness :
  exists p,
    mask_points (el_spatial_dimension (V_finat_element column_space))
      (el_entity_closure_dofs (V_finat_element column_space)) !! Z.to_nat 7 = Some p
    /\ sumZ (fst p) = el_spatial_dimension (V_finat_element column_space) - 1
    /\ get_top_bottom_boundary_nodes Np.Int32 interval_collaborators column_mesh
         ([], SubStr (if true then "top" else "bottom"), "topological"%string) column_space
       = Ok (Np.unique
               (facet_nodes (entity_node_lists (V_data column_space) CellSet)
                  (sorted_by Z.leb
                     (dofs_at (el_entity_closure_dofs (V_finat_element column_space)) p))
                  (fun j => if true
                            then (cell_set_layers column_mesh - 2)
                                 * default 0 (default [] (fsd_offset (V_data column_space))
                                              !! Z.to_nat j)
                            else 0))).
Proof.
  apply (top_bottom_nodes_topological Np.Int32 interval_collaborators column_mesh []
           column_space true 7 6).
  - reflexivity.
  - reflexivity.
  - reflexivity.
  - vm_compute. reflexivity.
  - vm_compute. reflexivity.
  - intros p Hp. vm_compute in Hp. injection Hp as <-.
    change (Forall (fun row => Forall (fun j => 0 <= j < Z.of_nat (length row)) [1; 3])
              [[0; 1; 3; 4]]).
    repeat constructor; simpl; lia.
  - intros _. split; [by eexists |]. split; [change (6 <= 2 ^ 31); lia |].
    intros p Hp. vm_compute in Hp. injection Hp as <-.
    split; [| split].
    + change (Forall (fun j => 0 <= j < 4) [1; 3]). repeat constructor; lia.
    + change (Forall (fun n => 0 <= n < 6) [1; 4]). repeat constructor; lia.
    + change (Forall (fun n => 0 <= n < 6) [2; 5]). repeat constructor; lia.
Defined.

(** ** Which maps carry the vector index *)

Lemma vector_indexed_alloc (obj : MapObject) (st : MapStore) (a : nat) :
  (a < length (heap st))%nat ->
  vector_indexed (snd (alloc obj st)) a = vector_indexed st a.
Proof.
  intros Ha. unfold vector_indexed, alloc. simpl. by rewrite lookup_app_l.
Qed.

Lemma vector_indexed_new (obj : MapObject) (st : MapStore) :
  vector_indexed (snd (alloc obj st)) (length (heap st))
  = match obj with DecoratedMap _ vector_index _ => vector_index | _ => false end.
Proof.
  unfold vector_indexed, alloc. simpl.
  by rewrite lookup_app_r, Nat.sub_diag by lia.
Qed.

Lemma cache_decorated_empty : cache_decorated empty_store.
Proof. intros entity_set lbcs a H. discriminate. Qed.

Lemma cache_decorated_alloc (obj : MapObject) (st : MapStore) :
  cache_decorated st -> cache_decorated (snd (alloc obj st)).
Proof.
  intros Hinv entity_set lbcs a Hget. destruct (Hinv entity_set lbcs a Hget) as [Ha Hv].
  split.
  - unfold alloc. simpl. rewrite length_app. lia.
  - by rewrite vector_indexed_alloc.
Qed.

Lemma cache_decorated_store (entity_set : EntitySet) (lbcs : list DirichletBC) (val : nat)
    (st : MapStore) :
  cache_decorated st ->
  (val < length (heap st))%nat -> vector_indexed st val = decorate_of lbcs ->
  cache_decorated (cache_store entity_set lbcs val st).
Proof.
  intros Hinv Hval Hvi entity_set' lbcs' a. unfold cache_store. simpl.
  destruct (decide ((entity_set, lbcs) = (entity_set', lbcs'))) as [Heq | Hne].
  - injection Heq as <- <-. rewrite getitem_setitem_eq. intros [= <-]. by split.
  - rewrite getitem_setitem_ne by exact Hne. apply Hinv.
Qed.

Lemma get_map_decorated (T : Np.IntType) (self : FunctionSpaceData) (V : FunctionSpace)
    (entity_set : EntitySet) (map_arity : Z) (bcs : option (list DirichletBC))
    (name : string) (offset : option (list Z)) (parent : option nat)
    (st st' : MapStore) (r : result nat) :
  cache_decorated st ->
  get_map T self V entity_set map_arity bcs name offset parent st = (r, st') ->
  cache_decorated st'
  /\ forall a, r = Ok a -> snd (split_bcs bcs) = None ->
       vector_indexed st' a = decorate_of (sorted_by hash_leb (fst (split_bcs bcs))).
Proof.
  intros Hinv. unfold get_map.
  destruct (negb (fs_len V =? 1)%nat).
  { intros [= <- <-]. split; [exact Hinv | discriminate]. }
  destruct (split_bcs bcs) as [bcs' implicit_bcs]. cbn [fst snd].
  destruct (for_each (check_bc V) bcs' tt) as [u | e].
  2: { intros [= <- <-]. split; [exact Hinv | discriminate]. }
  set (lbcs := sorted_by hash_leb bcs').
  destruct (getitem (map_caches st) (entity_set, lbcs)) as [hit | e] eqn:Hget.
  - destruct (Hinv _ _ _ Hget) as [Hlt Hvi].
    destruct implicit_bcs as [implicit_bcs |].
    + rewrite alloc_eq. intros [= <- <-]. split; [| discriminate].
      by apply cache_decorated_alloc.
    + intros [= <- <-]. split; [exact Hinv |]. by intros a [= <-] _.
  - destruct (new_entity_node_list T self entity_set lbcs) as [vals | e'].
    2: { intros [= <- <-]. split; [exact Hinv | discriminate]. }
    destruct (format_name (fs_name V) name) as [map_name | e'].
    2: { intros [= <- <-]. split; [exact Hinv | discriminate]. }
    rewrite alloc_eq.
    set (m := Map entity_set (node_set self) map_arity vals _ offset parent _).
    set (st1 := snd (alloc m st)).
    assert (Hinv1 : cache_decorated st1) by (by apply cache_decorated_alloc).
    assert (Hcached : exists val st2,
               (if decorate_of lbcs
                then alloc (DecoratedMap (length (heap st)) true None) st1
                else (length (heap st), st1)) = (val, st2)
               /\ cache_decorated st2
               /\ (val < length (heap st2))%nat
               /\ vector_indexed st2 val = decorate_of lbcs).
    { destruct (decorate_of lbcs).
      - rewrite alloc_eq. eexists _, _. split; [reflexivity |].
        split; [by apply cache_decorated_alloc |]. split.
        + unfold alloc. simpl. rewrite !length_app. simpl. lia.
        + assert (Hl : length (heap st1) = S (length (heap st))).
          { unfold st1, alloc. simpl. rewrite length_app. simpl. lia. }
          rewrite Hl.
          pose proof (vector_indexed_new (DecoratedMap (length (heap st)) true None) st1)
            as Hnew.
          by rewrite Hl in Hnew.
      - eexists _, _. split; [reflexivity |]. split; [exact Hinv1 |]. split.
        + unfold st1, alloc. simpl. rewrite length_app. simpl. lia.
        + exact (vector_indexed_new m st). }
    destruct Hcached as (val & st2 & -> & Hinv2 & Hlt2 & Hvi2).
    assert (Hinv3 : cache_decorated (cache_store entity_set lbcs val st2))
      by (by apply cache_decorated_store).
    destruct implicit_bcs as [implicit_bcs |].
    + rewrite alloc_eq. intros [= <- <-]. split; [| discriminate].
      exact (cache_decorated_alloc (DecoratedMap val false (Some implicit_bcs))
               (cache_store entity_set lbcs val st2) Hinv3).
    + intros [= <- <-]. split; [exact Hinv3 |]. by intros a [= <-] _.
Qed.

(** X19: the map that [get_map] returns for explicit constraints
    carries [vector_index=True] exactly when one of the constraints is
    component-indexed, whether the map was cached or is built by the
    call.  This holds in every store whose cached maps are so marked,
    as in the empty store, and the call leaves the store so. *)
Theorem get_map_vector_index (T : Np.IntType) (self : FunctionSpaceData)
    (V : FunctionSpace) (entity_set : EntitySet) (map_arity : Z)
    (bcs : list DirichletBC) (name : string) (offset : option (list Z))
    (parent : option nat) (st st' : MapStore) (a : nat) :
  cache_decorated st ->
  Forall (fun bc => is_explicit bc = true) bcs ->
  get_map T self V entity_set map_arity (Some bcs) name offset parent st = (Ok a, st') ->
  cache_decorated st'
  /\ (vector_indexed st' a = true
      <-> exists bc, In bc bcs /\ is_Some (fs_component (bc_function_space bc))).
Proof.
  intros Hinv Hexp Hcall.
  destruct (get_map_decorated _ _ _ _ _ _ _ _ _ _ _ _ Hinv Hcall) as [Hinv' Hvi].
  split; [exact Hinv' |].
  rewrite (Hvi a eq_refl) by (by rewrite split_bcs_explicit).
  rewrite split_bcs_explicit by exact Hexp. simpl.
  unfold decorate_of. rewrite (existsb_perm _ _ _ (sorted_by_perm hash_leb bcs)).
  rewrite existsb_exists. split.
  - intros (bc & Hbc & Hc). exists bc. split; [exact Hbc |].
    by apply bool_decide_eq_true_1 in Hc.
  - intros (bc & Hbc & Hc). exists bc. split; [exact Hbc |].
    by apply bool_decide_eq_true_2.
Qed.

Lemma get_map_vector_index_witness :
  cache_decorated
    (snd (get_map Np.Int32 column_data column_W ExteriorFacetSet 4
            (Some [bc_component; bc_whole]) "exterior_facet_node" None None empty_store))
  /\ (vector_indexed
        (snd (get_map Np.Int32 column_data column_W ExteriorFacetSet 4
                (Some [bc_component; bc_whole]) "exterior_facet_node" None None
                empty_store)) 1 = true
      <-> exists bc, In bc [bc_component; bc_whole]
                     /\ is_Some (fs_component (bc_function_space bc))).
Proof.
  apply (get_map_vector_index Np.Int32 column_data column_W ExteriorFacetSet 4
           [bc_component; bc_whole] "exterior_facet_node" None None empty_store).
  - apply cache_decorated_empty.
  - repeat constructor.
  - vm_compute. reflexivity.
Defined.

(** ** Equal keys, equal entity dofs *)

Lemma NoDup_range (n : Z) : NoDup (range n).
Proof.
  unfold range. apply (NoDup_fmap_2 Z.of_nat). apply NoDup_seq.
Qed.

Lemma well_numbered_sub {K : Type} `{EqDecision K} (d : dict K (dict Z (list Z)))
    (k : K) (sub : dict Z (list Z)) :
  well_numbered d = true -> getitem d k = Ok sub ->
  is_dict sub /\ sorted_by Z.leb (keys sub) = range (Z.of_nat (length sub)).
Proof.
  unfold well_numbered. intros Hw Hsub. apply andb_true_iff in Hw as [_ Hw].
  rewrite forallb_forall in Hw.
  assert (Hs : sorted_by Z.leb (keys sub) = range (Z.of_nat (length sub))).
  { assert (Hin : In sub (values d)).
    { unfold values. apply in_map_iff.
      exists (k, sub). split; [reflexivity | by apply getitem_Ok_In]. }
    specialize (Hw sub Hin). by apply bool_decide_eq_true in Hw. }
  split; [| exact Hs]. unfold is_dict.
  rewrite <- (sorted_by_perm Z.leb (keys sub)), Hs. apply NoDup_range.
Qed.

(** X20: the key keeps all of the entity dofs of a dictionary whose
    sub-entities are numbered from 0: two such dictionaries with the
    same key have the same entities, the same sub-entities, and the same
    dof tuple at each: elements that share a key, and with it their
    maps, have the same entity dofs. *)
Theorem entity_dofs_key_faithful {K : Type} `{EqDecision K} (leb : K -> K -> bool)
    (d1 d2 : dict K (dict Z (list Z))) :
  well_numbered d1 = true ->
  well_numbered d2 = true ->
  entity_dofs_key leb d1 = entity_dofs_key leb d2 ->
  same_layout d1 d2.
Proof.
  intros Hw1 Hw2 Hkey.
  rewrite !entity_dofs_key_value in Hkey. injection Hkey as Hkey.
  assert (Hkeys : sorted_by leb (keys d1) = sorted_by leb (keys d2)).
  { apply (f_equal (map fst)) in Hkey. rewrite !map_map in Hkey. simpl in Hkey.
    by rewrite !map_id in Hkey. }
  assert (Hperm : Permutation (keys d1) (keys d2)).
  { by rewrite <- (sorted_by_perm leb (keys d1)), Hkeys, sorted_by_perm. }
  rewrite <- Hkeys in Hkey.
  assert (Hrows : forall k, In k (keys d1) ->
            map (item_of [] (item_of [] d1 k)) (sorted_by Z.leb (keys (item_of [] d1 k)))
            = map (item_of [] (item_of [] d2 k)) (sorted_by Z.leb (keys (item_of [] d2 k)))).
  { intros k Hk. apply (sorted_by_In leb) in Hk.
    pose proof (proj1 map_ext_in_iff Hkey k Hk) as Hrow. simpl in Hrow.
    by injection Hrow. }
  pose proof Hw1 as Hd1. pose proof Hw2 as Hd2. unfold well_numbered in Hd1, Hd2.
  apply andb_true_iff in Hd1 as [Hd1 _]. apply andb_true_iff in Hd2 as [Hd2 _].
  apply bool_decide_eq_true_1 in Hd1. apply bool_decide_eq_true_1 in Hd2.
  split; [exact Hd1 |]. split; [exact Hd2 |]. intros k.
  destruct (getitem d1 k) as [s1 | e1] eqn:H1, (getitem d2 k) as [s2 | e2] eqn:H2.
  - pose proof (getitem_Ok_keys _ _ _ H1) as Hk. specialize (Hrows k Hk).
    assert (Hi1 : item_of [] d1 k = s1) by (unfold item_of; by rewrite H1).
    assert (Hi2 : item_of [] d2 k = s2) by (unfold item_of; by rewrite H2).
    rewrite Hi1, Hi2 in Hrows.
    destruct (well_numbered_sub d1 k s1 Hw1 H1) as [Hs1 Hn1].
    destruct (well_numbered_sub d2 k s2 Hw2 H2) as [Hs2 Hn2].
    assert (Hlen : length s1 = length s2).
    { apply (f_equal (@length _)) in Hrows. rewrite !length_map in Hrows.
      rewrite !(Permutation_length (sorted_by_perm Z.leb _)) in Hrows.
      unfold keys in Hrows. by rewrite !length_map in Hrows. }
    rewrite Hn1, Hn2, Hlen in Hrows.
    assert (Hsame : forall sk, In sk (keys s1) -> item_of [] s1 sk = item_of [] s2 sk).
    { intros sk Hsk. apply (proj1 map_ext_in_iff Hrows).
      rewrite <- Hlen, <- Hn1. by apply sorted_by_In. }
    assert (Hpk : Permutation (keys s1) (keys s2)).
    { rewrite <- (sorted_by_perm Z.leb (keys s1)), <- (sorted_by_perm Z.leb (keys s2)).
      by rewrite Hn1, Hn2, Hlen. }
    split; [exact Hs1 |]. split; [exact Hs2 |]. intros sk.
    destruct (getitem s1 sk) as [v1 | ?] eqn:G1, (getitem s2 sk) as [v2 | ?] eqn:G2.
    + pose proof (Hsame sk (getitem_Ok_keys _ _ _ G1)) as Hv.
      unfold item_of in Hv. by rewrite G1, G2 in Hv.
    + pose proof (getitem_Ok_keys _ _ _ G1) as Hin.
      apply (Permutation_in _ Hpk) in Hin.
      destruct (getitem_In_keys _ _ Hin) as (v & Hv & _). congruence.
    + pose proof (getitem_Ok_keys _ _ _ G2) as Hin.
      apply (Permutation_in _ (Permutation_sym Hpk)) in Hin.
      destruct (getitem_In_keys _ _ Hin) as (v & Hv & _). congruence.
    + exact I.
  - pose proof (getitem_Ok_keys _ _ _ H1) as Hin. apply (Permutation_in _ Hperm) in Hin.
    destruct (getitem_In_keys _ _ Hin) as (v & Hv & _). congruence.
  - pose proof (getitem_Ok_keys _ _ _ H2) as Hin.
    apply (Permutation_in _ (Permutation_sym Hperm)) in Hin.
    destruct (getitem_In_keys _ _ Hin) as (v & Hv & _). congruence.
  - exact I.
Qed.

Lemma entity_dofs_key_faithful_witness :
  same_layout (el_entity_dofs interval_element) (el_entity_dofs interval_element_reordered).
Proof.
  apply (entity_dofs_key_faithful tuple_leb); reflexivity.
Defined.

(** ** Boundary nodes on a mesh of variable layers *)

Lemma where_marked_In (total : Z) (indices : list Z) (i : Z) :
  Forall (fun i => 0 <= i < total) indices ->
  In i (Np.where_eq (marked total indices) 1) <-> In i indices.
Proof.
  intros Hrange. rewrite where_eq_In. unfold marked. rewrite list_lookup_fmap. split.
  - intros [Hi Hv].
    destruct (Np.arange total !! Z.to_nat i) as [j |] eqn:Hj; [| discriminate].
    assert (Hlt : i < total).
    { apply lookup_lt_Some in Hj. rewrite length_arange in Hj. lia. }
    rewrite lookup_arange in Hj by lia. injection Hj as <-. simpl in Hv.
    destruct (decide (i ∈ indices)) as [Hin | _]; [by apply list_elem_of_In | discriminate].
  - intros Hin. rewrite Forall_forall in Hrange.
    pose proof (Hrange i ltac:(by apply list_elem_of_In)) as Hi.
    split; [lia |]. rewrite lookup_arange by lia. simpl.
    by rewrite decide_True by (by apply list_elem_of_In).
Qed.

(** X21: on a mesh of variable layers the boundary nodes are those
    that the extruded numbering finds, for every sub-domain,
    ["on_boundary"] included: they are marked, exchanged and read back,
    so the result increases strictly whatever their order, and on one
    process it has exactly the nodes found. *)
Theorem get_boundary_nodes_variable_layers (T : Np.IntType) (env : Collaborators)
    (mesh : MeshTopology) (edk : list (list Z * list (list Z))) (sub_domain : SubDomain)
    (method : string) (V : Space) (indices : list Z) :
  variable_layers mesh = true ->
  extnum_boundary_nodes env V sub_domain method = Ok indices ->
  Forall (fun i => 0 <= i < Op2.total_size (node_set (V_data V))) indices ->
  Op2.total_size (node_set (V_data V)) < 2 ^ (Np.bits T - 1) ->
  (forall d, length (global_to_local env d) = length d) ->
  exists l,
    get_boundary_nodes T env mesh (edk, sub_domain, method) V = Ok l
    /\ StronglySorted Z.lt l
    /\ ((forall d, global_to_local env d = d) -> forall i, In i l <-> In i indices).
Proof.
  intros Hvl Hnodes Hrange Hsmall Hlen.
  assert (Hlocal : local_boundary_indices T env mesh sub_domain method V
                   = Ok (Some indices)).
  { unfold local_boundary_indices. by rewrite Hvl, Hnodes. }
  eexists. split; [by apply get_boundary_nodes_exchange |].
  split; [apply where_eq_from_sorted |].
  intros Hid i. rewrite Hid. by apply where_marked_In.
Qed.

Lemma get_boundary_nodes_variable_layers_witness :
  exists l,
    get_boundary_nodes Np.Int32 variable_collaborators variable_mesh
      ([], on_boundary, "topological"%string) interval_space = Ok l
    /\ StronglySorted Z.lt l
    /\ ((forall d, global_to_local variable_collaborators d = d) ->
        forall i, In i l <-> In i [3; 0; 3]).
Proof.
  apply (get_boundary_nodes_variable_layers Np.Int32 variable_collaborators variable_mesh
           [] on_boundary "topological" interval_space [3; 0; 3]).
  - reflexivity.
  - reflexivity.
  - change (Op2.total_size (node_set (V_data interval_space))) with 4.
    repeat constructor; lia.
  - reflexivity.
  - reflexivity.
Defined.

(** ** A construction at the node limit *)

Lemma get_node_set_refuses (T : Np.IntType) (mesh : MeshTopology)
    (nodes_per_entity : list Z) (s : PetscSection) :
  cell_set_extruded mesh = false ->
  getStorageSize s = local_node_count mesh nodes_per_entity ->
  2 ^ (Np.bits T - 4) <= local_node_count mesh nodes_per_entity ->
  get_node_set T mesh [(nodes_per_entity, s)] nodes_per_entity = Raise RuntimeError.
Proof.
  intros Hext Hsize Hlimit. unfold get_node_set. rewrite cached_numbering.
  unfold numbering_of. simpl. rewrite decide_True by reflexivity. simpl.
  rewrite total_size_node_set, shiftl_1_limit, Hext.
  rewrite bool_decide_eq_true_2 by exact Hsize. simpl.
  by destruct (Z.leb_spec (2 ^ (Np.bits T - 4)) (local_node_count mesh nodes_per_entity));
    [| lia].
Qed.

(** X22: a construction at the node limit.  On a new mesh that is not
    extruded and whose node count is at least [2^(indexBits-4)],
    building the data of an element raises the [RuntimeError] of
    [get_node_set]; the numbering that was built on the way stays in the
    cache, no node set is cached, and building again raises again and
    changes nothing. *)
Theorem FunctionSpaceData_init_at_limit (T : Np.IntType) (mesh : MeshTopology)
    (mm : MeshMethods) (finat_element : FinatElement) :
  let nodes_per_entity := make_dofs_per_plex_entity mm (el_entity_dofs finat_element) in
  let section := create_section mesh nodes_per_entity in
  let m1 := mkMeshState [SectionObj section]
              [(("get_global_numbering"%string, NodesKey nodes_per_entity), At 0)] in
  cell_set_extruded mesh = false ->
  getStorageSize section = local_node_count mesh nodes_per_entity ->
  2 ^ (Np.bits T - 4) <= local_node_count mesh nodes_per_entity ->
  FunctionSpaceData_init T mesh mm finat_element (mkMeshState [] [])
  = (Raise RuntimeError, m1)
  /\ FunctionSpaceData_init T mesh mm finat_element m1 = (Raise RuntimeError, m1).
Proof.
  intros npe section m1 Hext Hsize Hlimit.
  pose proof (get_node_set_refuses T mesh npe section Hext Hsize Hlimit) as Href.
  assert (Hnum : forall m, shared_data_cache m = shared_data_cache m1 ->
            cached_get_global_numbering mesh npe m = (Ok (At 0), m)).
  { intros m Hm. apply cached_call_hit. rewrite Hm. simpl.
    by rewrite decide_True by reflexivity. }
  assert (Hset : cached_get_node_set T mesh npe m1 = (Raise RuntimeError, m1)).
  { unfold cached_get_node_set, cached_call. simpl.
    unfold mbind, build_bind. rewrite (Hnum m1 eq_refl). simpl.
    fold section npe. unfold lift. by rewrite Href. }
  unfold FunctionSpaceData_init. fold npe. unfold mbind, build_bind. split.
  - assert (H0 : cached_get_global_numbering mesh npe (mkMeshState [] [])
                 = (Ok (At 0), m1)) by reflexivity.
    by rewrite H0, Hset.
  - by rewrite (Hnum m1 eq_refl), Hset.
Qed.

Lemma FunctionSpaceData_init_at_limit_witness :
  FunctionSpaceData_init Np.Int32 mesh_at_limit limit_methods interval_element
    (mkMeshState [] [])
  = (Raise RuntimeError,
     mkMeshState [SectionObj (create_section mesh_at_limit [1])]
       [(("get_global_numbering"%string, NodesKey [1]), At 0)])
  /\ FunctionSpaceData_init Np.Int32 mesh_at_limit limit_methods interval_element
       (mkMeshState [SectionObj (create_section mesh_at_limit [1])]
          [(("get_global_numbering"%string, NodesKey [1]), At 0)])
     = (Raise RuntimeError,
        mkMeshState [SectionObj (create_section mesh_at_limit [1])]
          [(("get_global_numbering"%string, NodesKey [1]), At 0)]).
Proof.
  apply (FunctionSpaceData_init_at_limit Np.Int32 mesh_at_limit limit_methods
           interval_element).
  - reflexivity.
  - reflexivity.
  - vm_compute. discriminate.
Defined.
